(** * grpc-web-ts: the protobuf wire codec (encoder, reader, writer)

    A shallow embedding of [src/encoder.ts], [src/reader.ts], [src/writer.ts]
    and the constants file, followed by the properties of the codec.

    Conventions of the embedding.
    - A JavaScript [number] that holds an integer is a [Z]; the 32-bit
      coercions that the bit operators perform ([ToInt32], [ToUint32]) are
      written out.  Integer arithmetic on [Z] is the arithmetic of JavaScript
      numbers on the safe-integer range; where an operation of the code can
      leave that range (the tag of the writer, the sum in the reader's
      [Fixed64], [Number] of a [bigint] in the encoder's [Fixed64]) its
      rounding to a binary64 is written out ([JS.binary64], [JS.plus]).
    - A [bigint] is a [Z]; its operators are the operators of [Z].
    - The encoder buffer ([number[]]) is a [list Z]; the reader input
      ([Uint8Array]) is a [list Z] of octets, and a read outside of it gives
      [None] (JavaScript's [undefined]).
    - A method that mutates [this] is a function from the state to an
      [outcome]: either a normal return with a value and the new state, or a
      throw with the state reached when the exception left the method.
    - Floating-point values are outside of the embedding: the encoder's and
      the writer's [Float] and [Double] are left out, with the writer's
      [Map] (whose values are dynamically typed) and the repeated and packed
      loops that add nothing to the operations they iterate; the reader's
      [Float] and [Double] keep the integer fields they decode. *)

From Equations Require Import Equations.
From Stdlib Require Import ZArith List Lia Bool.
Import ListNotations.

Local Open Scope Z_scope.

(* ===================================================================== *)
(** ** JavaScript numbers and operators *)
(* ===================================================================== *)

Module JS.

(** [ToUint32] and [ToInt32] of an integer-valued number. *)
Definition to_uint32 (x : Z) : Z := x mod 2 ^ 32.

Definition to_int32 (x : Z) : Z := (x + 2 ^ 31) mod 2 ^ 32 - 2 ^ 31.

(** [a & b], [a | b], [a ^ b] on numbers: both operands go through
    [ToInt32], the result is an int32. *)
Definition and (a b : Z) : Z := Z.land (to_int32 a) (to_int32 b).
Definition or (a b : Z) : Z := Z.lor (to_int32 a) (to_int32 b).
Definition xor (a b : Z) : Z := Z.lxor (to_int32 a) (to_int32 b).

(** [a << n]: int32 result; the shift count is taken modulo 32. *)
Definition shl (a n : Z) : Z := to_int32 (Z.shiftl (to_int32 a) (n mod 32)).

(** [a >> n]: sign-propagating shift of [ToInt32 a]. *)
Definition shr (a n : Z) : Z := Z.shiftr (to_int32 a) (n mod 32).

(** [a >>> n]: zero-filling shift of [ToUint32 a]. *)
Definition ushr (a n : Z) : Z := Z.shiftr (to_uint32 a) (n mod 32).

(** A number that may be [NaN] (the only non-integer the codec can
    produce from integer inputs: arithmetic on an [undefined] element). *)
Inductive number : Type :=
| Num (z : Z)
| NaN.

(** [ToNumber] of an array element: [undefined] becomes [NaN]. *)
Definition of_elem (y : option Z) : number :=
  match y with Some v => Num v | None => NaN end.

(** [ToInt32] of a number: [NaN] becomes [0]. *)
Definition int32_of (x : number) : Z :=
  match x with Num z => to_int32 z | NaN => 0 end.

Definition add (a b : number) : number :=
  match a, b with
  | Num x, Num y => Num (x + y)
  | _, _ => NaN
  end.

(** [a || b] on numbers: [a] when it is truthy, otherwise [b]. *)
Definition oror (a b : Z) : Z := if a =? 0 then b else a.

(** [a == b] on numbers: [NaN] equals nothing. *)
Definition eqb (a b : number) : bool :=
  match a, b with
  | Num x, Num y => x =? y
  | _, _ => false
  end.

(** Operators applied to an array element that may be [undefined]. *)
Definition elem_and (y : option Z) (m : Z) : Z := and (int32_of (of_elem y)) m.

Definition elem_lt (y : option Z) (k : Z) : bool :=
  match y with Some v => v <? k | None => false end.

Definition elem_ge (y : option Z) (k : Z) : bool :=
  match y with Some v => k <=? v | None => false end.

Definition elem_truthy (y : option Z) : bool :=
  match y with Some v => negb (v =? 0) | None => false end.

(** [BigInt.asUintN(64, v)] and [BigInt.asIntN(64, v)]. *)
Definition asUintN64 (v : Z) : Z := v mod 2 ^ 64.

Definition asIntN64 (v : Z) : Z := (v + 2 ^ 63) mod 2 ^ 64 - 2 ^ 63.

(** The Number nearest to the integer [x]: a binary64 float has 53
    significant bits, so an integer of more bits is rounded to a multiple
    of [2 ^ (Z.log2 |x| - 52)], the nearest one, and the one whose quotient
    is even when two are as near.  This is [Number(x)] on a [bigint], as
    long as the magnitude is finite as a Number (below [2 ^ 1024]). *)
Definition binary64 (x : Z) : Z :=
  let e := Z.log2 (Z.abs x) - 52 in
  if e <=? 0 then x
  else
    let ulp := 2 ^ e in
    let q := x / ulp in
    let rest := x mod ulp in
    if 2 * rest <? ulp then q * ulp
    else if ulp <? 2 * rest then (q + 1) * ulp
    else if Z.even q then q * ulp else (q + 1) * ulp.

(** [a + b] on two Numbers that hold integers: the exact sum, rounded to
    the nearest Number.  Adding zero rounds nothing, whatever [a] is. *)
Definition plus (a b : Z) : Z :=
  if b =? 0 then a else binary64 (a + b).

(** [a.splice(start, 0, ...items)]: insertion at [start]; a negative
    [start] counts from the end, and the position is clamped to the
    array. *)
Definition splice_insert (start : Z) (items a : list Z) : list Z :=
  let len := Z.of_nat (length a) in
  let pos := if start <? 0 then Z.max (len + start) 0 else Z.min start len in
  firstn (Z.to_nat pos) a ++ items ++ skipn (Z.to_nat pos) a.

(** [a.subarray(b, e)] on a typed array: negative positions count from
    the end, and both are clamped to the array. *)
Definition subarray (a : list Z) (b e : Z) : list Z :=
  let len := Z.of_nat (length a) in
  let clamp i := if i <? 0 then Z.max (len + i) 0 else Z.min i len in
  firstn (Z.to_nat (Z.max (clamp e - clamp b) 0)) (skipn (Z.to_nat (clamp b)) a).

(** [String.fromCharCode(...units)]: every unit goes through [ToUint16]. *)
Definition fromCharCode (units : list Z) : list Z :=
  map (fun u => u mod 2 ^ 16) units.

(** [new Uint8Array(a)] on an array of integers: every element goes through
    [ToUint8]. *)
Definition Uint8Array_of (a : list Z) : list Z :=
  map (fun x => x mod 2 ^ 8) a.

(** The receiver of a call to [Array.prototype.push]. *)
Inductive receiver : Type :=
| Array (a : list Z)
| Uint8Array (a : list Z).

(** [Array.prototype.push.apply(recv, items)].  On an array the items are
    appended.  On a typed array the index writes past the end are ignored
    and the final assignment to [length], which has no setter, raises a
    [TypeError]: [None]. *)
Definition push_apply (recv : receiver) (items : list Z) : option receiver :=
  match recv with
  | Array a => Some (Array (a ++ items))
  | Uint8Array _ => None
  end.

End JS.

(* ===================================================================== *)
(** ** Constants *)
(* ===================================================================== *)

(** Field type codes. *)
Inductive FieldType : Type :=
| INVALID | DOUBLE | FLOAT | INT64 | UINT64 | INT32 | FIXED64 | FIXED32
| BOOL | STRING | GROUP | MESSAGE | BYTES | UINT32 | ENUM | SFIXED32
| SFIXED64 | SINT32 | SINT64.

(** Wire-format type codes; the enum members are the numbers 0 to 5. *)
Module WireType.
Definition VARINT : Z := 0.
Definition FIXED64 : Z := 1.
Definition DELIMITED : Z := 2.
Definition START_GROUP : Z := 3.
Definition END_GROUP : Z := 4.
Definition FIXED32 : Z := 5.
End WireType.

Definition TWO_TO_31 : Z := 2147483648.
Definition TWO_TO_32 : Z := 4294967296.
Definition TWO_TO_52 : Z := 4503599627370496.
Definition TWO_TO_63 : Z := 9223372036854775808.
Definition TWO_TO_64 : Z := 18446744073709551616.

(** Thrown values.  The codec throws strings; each constructor stands for one
    message, with the interpolated numbers as arguments.  [TypeError] is the
    engine's own exception. *)
Inductive error : Type :=
| TypeError
| AdvancingCursorOutOfBounds (cursor end_ : Z)
| InvalidWireType (type position : Z)
| InvalidWireEncoding
| DecoderCursorOutOfBounds (cursor end_ : Z)
| Varint32TooLong
| Overflow
| TypeNever
| StringLengthTooLong
| InvalidLength (l : Z)
| InvalidMapKeyFieldType (kFT : FieldType)
| InvalidMapValueFieldType
| FieldNumberInvalid (field : Z)
| OutOfRange.

(** The result of running a method on a state of type [S]. *)
Inductive outcome (S A : Type) : Type :=
| Ok (a : A) (s : S)
| Throw (e : error) (s : S).
Arguments Ok {S A} a s.
Arguments Throw {S A} e s.

Definition M (S A : Type) : Type := S -> outcome S A.

Definition ret {S A} (a : A) : M S A := fun s => Ok a s.

Definition throw {S A} (e : error) : M S A := fun s => Throw e s.

Definition bind {S A B} (m : M S A) (k : A -> M S B) : M S B :=
  fun s => match m s with
           | Ok a s' => k a s'
           | Throw e s' => Throw e s'
           end.

Definition get {S} : M S S := fun s => Ok s s.

Definition modify {S} (f : S -> S) : M S unit := fun s => Ok tt (f s).

Declare Scope js_scope.
Delimit Scope js_scope with js.
Notation "x <- m ;; k" := (bind m (fun x => k))
  (at level 61, m at next level, right associativity) : js_scope.
Notation "m ;; k" := (bind m (fun _ => k))
  (at level 61, right associativity) : js_scope.
Local Open Scope js_scope.

(* ===================================================================== *)
(** ** BinaryEncoder ([src/encoder.ts]) *)
(* ===================================================================== *)

Module BinaryEncoder.

(** The encoder's state is its [buffer]. *)
Definition t : Type := list Z.

Definition Length (buffer : t) : Z := Z.of_nat (length buffer).

(** The loops of the encoder shift their counter right by seven bits while
    it is above 127; the number of bits of the counter decreases. *)
Lemma shiftr7_log2_lt (v w : Z) :
  127 < v -> 0 <= w <= v ->
  (Z.to_nat (Z.log2 (Z.shiftr w 7)) < Z.to_nat (Z.log2 v))%nat.
Proof.
  intros Hv Hw.
  assert (H7 : 7 <= Z.log2 v).
  { change 7 with (Z.log2 128). apply Z.log2_le_mono. lia. }
  assert (Hle : Z.log2 w <= Z.log2 v) by (apply Z.log2_le_mono; lia).
  destruct (Z.eq_dec w 0) as [-> | Hnz]; [simpl; lia |].
  rewrite Z.log2_shiftr by lia.
  pose proof (Z.log2_nonneg w). lia.
Qed.

(** [UnsignedVarint32]: the [while (value > 127)] loop and the final
    push. *)
Equations? UnsignedVarint32 (value : Z) (buffer : t) : t
  by wf (Z.to_nat (Z.log2 value)) lt :=
  UnsignedVarint32 value buffer with Z_gt_dec value 127 := {
    | left _ =>
        UnsignedVarint32 (JS.ushr value 7)
                         (buffer ++ [JS.or (JS.and value 127) 128]);
    | right _ => buffer ++ [value] }.
Proof.
  unfold JS.ushr, JS.to_uint32. change (7 mod 32) with 7.
  apply shiftr7_log2_lt; [lia |].
  split; [apply Z.mod_pos_bound; lia | apply Z.mod_le; lia].
Qed.

(** [Varint32]: the unsigned form for a non-negative value; otherwise the
    [for] loop of four pushes, then the pushes of [v] and of [1]. *)
Fixpoint Varint32_loop (i : nat) (v : Z) (buffer : t) : Z * t :=
  match i with
  | O => (v, buffer)
  | S i' =>
      Varint32_loop i' (JS.shr v 7) (buffer ++ [JS.or (JS.and v 127) 128])
  end.

Definition Varint32 (v : Z) (buffer : t) : t :=
  if v >=? 0 then UnsignedVarint32 v buffer
  else
    let '(v, buffer) := Varint32_loop 4 v buffer in
    (buffer ++ [v]) ++ [1].

(** [UnsignedVarint] on a [bigint]; [Number(v)] of the pushed [bigint]s is
    exact, these being octets for [v >= 0]. *)
Equations? UnsignedVarint (v : Z) (buffer : t) : t
  by wf (Z.to_nat (Z.log2 v)) lt :=
  UnsignedVarint v buffer with Z_gt_dec v 127 := {
    | left _ =>
        UnsignedVarint (Z.shiftr v 7)
                       (buffer ++ [Z.lor (Z.land v 127) 128]);
    | right _ => buffer ++ [v] }.
Proof.
  apply shiftr7_log2_lt; lia.
Qed.

(** [Varint] on a [bigint]: nine pushes for a negative value, then [1]. *)
Fixpoint Varint_loop (i : nat) (v : Z) (buffer : t) : Z * t :=
  match i with
  | O => (v, buffer)
  | S i' =>
      Varint_loop i' (Z.shiftr v 7) (buffer ++ [Z.lor (Z.land v 127) 128])
  end.

Definition Varint (v : Z) (buffer : t) : t :=
  if v >=? 0 then UnsignedVarint v buffer
  else
    let '(_, buffer) := Varint_loop 9 v buffer in
    buffer ++ [1].

Definition Zigzag32 (value : Z) (buffer : t) : t :=
  UnsignedVarint32 (JS.ushr (JS.xor (JS.shl value 1) (JS.shr value 31)) 0)
                   buffer.

Definition Zigzag64 (x : Z) (buffer : t) : t :=
  Varint (Z.lxor (Z.shiftl x 1) (Z.shiftr x 63)) buffer.

Definition Fixed32 (value : Z) (buffer : t) : t :=
  buffer ++ [JS.and (JS.ushr value 0) 255]
         ++ [JS.and (JS.ushr value 8) 255]
         ++ [JS.and (JS.ushr value 16) 255]
         ++ [JS.and (JS.ushr value 24) 255].

(** [Fixed64] pushes [Number(value >> k)]: the shifted [bigint]s, not
    masked, each one rounded to a Number. *)
Definition Fixed64 (value : Z) (buffer : t) : t :=
  buffer ++ [JS.binary64 (Z.shiftr value 0)]
         ++ [JS.binary64 (Z.shiftr value 8)]
         ++ [JS.binary64 (Z.shiftr value 16)]
         ++ [JS.binary64 (Z.shiftr value 24)]
         ++ [JS.binary64 (Z.shiftr value 32)]
         ++ [JS.binary64 (Z.shiftr value 40)]
         ++ [JS.binary64 (Z.shiftr value 48)]
         ++ [JS.binary64 (Z.shiftr value 56)].

Definition Bool (value : bool) (buffer : t) : t :=
  buffer ++ [if value then 1 else 0].

Definition Enum (value : Z) (buffer : t) : t := Varint32 value buffer.

(** [Bytes]: [this.buffer.push.apply(bytes)] calls [push] with [bytes] as
    its receiver and with no item.  The encoder's buffer is not an operand
    of the call. *)
Definition Bytes (bytes : list Z) : M t unit :=
  fun buffer =>
    match JS.push_apply (JS.Uint8Array bytes) [] with
    | Some _ => Ok tt buffer
    | None => Throw TypeError buffer
    end.

(** [String]: UTF-8 of the UTF-16 code units of [str].  The second unit of
    a surrogate pair is [charCodeAt(i)] after [i++]; past the end of the
    string it is [NaN], which [&] turns into [0]. *)
Fixpoint String_loop (str : list Z) (buffer : t) : t :=
  match str with
  | [] => buffer
  | charcode :: rest =>
      if charcode <? 128 then String_loop rest (buffer ++ [charcode])
      else if charcode <? 2048 then
        String_loop rest
          (buffer ++ [JS.or 192 (JS.shr charcode 6);
                      JS.or 128 (JS.and charcode 63)])
      else if (charcode <? 55296) || (charcode >=? 57344) then
        String_loop rest
          (buffer ++ [JS.or 224 (JS.shr charcode 12);
                      JS.or 128 (JS.and (JS.shr charcode 6) 63);
                      JS.or 128 (JS.and charcode 63)])
      else
        let low := match rest with [] => None | c :: _ => Some c end in
        let charcode :=
          65536 + JS.or (JS.shl (JS.and charcode 1023) 10)
                        (JS.elem_and low 1023) in
        let out :=
          buffer ++ [JS.or 240 (JS.shr charcode 18);
                     JS.or 128 (JS.and (JS.shr charcode 12) 63);
                     JS.or 128 (JS.and (JS.shr charcode 6) 63);
                     JS.or 128 (JS.and charcode 63)] in
        match rest with
        | [] => out
        | _ :: rest' => String_loop rest' out
        end
  end.

Definition String (str : list Z) (buffer : t) : Z * t :=
  let oLength := Length buffer in
  let buffer := String_loop str buffer in
  (Length buffer - oLength, buffer).

End BinaryEncoder.

(* ===================================================================== *)
(** ** Values handed to the client *)
(* ===================================================================== *)

(** The number that the reader's [Float] and [Double] compute from the
    fields of an IEEE-754 pattern.  The floating-point arithmetic of the
    source (powers of two, the rounding to seven decimals) is kept as the
    name of the branch with its integer inputs. *)
Inductive ieee : Type :=
| IeeeNaN
| IeeeInfinity (sign : Z)
| IeeeDenormal32 (sign mant : Z)
| IeeeNormal32 (sign exp mant : Z)
| IeeeDenormal64 (sign mant : Z)
| IeeeNormal64 (sign exp mant : Z).

(** What a decoder returns: a [number], a [bigint], a [boolean], a string
    (its UTF-16 code units), a [Uint8Array], a floating-point number, or the
    object (a reference) that a message deserializer returns. *)
Inductive value : Type :=
| VNumber (n : Z)
| VBigInt (n : Z)
| VBoolean (b : bool)
| VString (codeUnits : list Z)
| VBytes (b : list Z)
| VFloat (f : ieee)
| VObject (ref : Z)
| VUndefined.

(* ===================================================================== *)
(** ** BinaryReader ([src/reader.ts]) *)
(* ===================================================================== *)

Module BinaryReader.

Record t : Type := mk {
  bytes : list Z;
  end_ : Z;
  cursor : Z;
  nextField : option Z;
  nextWireType : option Z;
  (** In a streaming response, the end of the current message. *)
  length : JS.number
}.

Definition new (src : list Z) : t :=
  mk src (Z.of_nat (List.length src)) 0 None None (JS.Num 0).

Definition set_end (e : Z) (r : t) : t :=
  mk (bytes r) e (cursor r) (nextField r) (nextWireType r) (length r).

Definition set_cursor (c : Z) (r : t) : t :=
  mk (bytes r) (end_ r) c (nextField r) (nextWireType r) (length r).

Definition set_nextField (f : option Z) (r : t) : t :=
  mk (bytes r) (end_ r) (cursor r) f (nextWireType r) (length r).

Definition set_nextWireType (w : option Z) (r : t) : t :=
  mk (bytes r) (end_ r) (cursor r) (nextField r) w (length r).

Definition set_length (l : JS.number) (r : t) : t :=
  mk (bytes r) (end_ r) (cursor r) (nextField r) (nextWireType r) l.

(** A message object, as far as the reader uses it: its
    [deserializeBinaryFromReader], run on this reader. *)
Record Message_ : Type := {
  deserializeBinaryFromReader : M t value
}.

(** [this.bytes[i]]: [None] outside of the array. *)
Definition byte_at (r : t) (i : Z) : option Z :=
  if i <? 0 then None else nth_error (bytes r) (Z.to_nat i).

(** [this.bytes[this.cursor++]]. *)
Definition next_byte : M t (option Z) :=
  fun r => Ok (byte_at r (cursor r)) (set_cursor (cursor r + 1) r).

(** [this.nextWireType == w]. *)
Definition wire_is (r : t) (w : Z) : bool :=
  match nextWireType r with Some x => x =? w | None => false end.

Definition FieldNumber (r : t) : option Z := nextField r.

Definition advance (count : Z) : M t unit :=
  fun r =>
    let r := set_cursor (cursor r + count) r in
    if cursor r >? end_ r
    then Throw (AdvancingCursorOutOfBounds (cursor r) (end_ r)) r
    else Ok tt r.

(** The body of the [for] loop of [Header], run [i] times. *)
Fixpoint Header_loop (i : nat) (l : JS.number) : M t JS.number :=
  match i with
  | O => ret l
  | S i' =>
      r <- get;;
      let l := JS.add (JS.Num (JS.shl (JS.int32_of l) 8))
                      (JS.of_elem (byte_at r (cursor r))) in
      advance 1;;
      Header_loop i' l
  end.

Definition Header : M t bool :=
  r <- get;;
  if cursor r >=? end_ r then ret false
  else
    l <- Header_loop 5 (JS.Num 0);;
    if JS.eqb l (JS.Num 0) then ret false
    else
      modify (fun r => set_length (JS.add (length r) (JS.add l (JS.Num 5))) r);;
      ret true.

(** The five [this.bytes[this.cursor++] >= 128] joined by [&&] at the end
    of [Varint32]: evaluation stops at the first operand that is false. *)
Fixpoint all_continue (n : nat) : M t bool :=
  match n with
  | O => ret true
  | S n' =>
      y <- next_byte;;
      if JS.elem_ge y 128 then all_continue n' else ret false
  end.

Definition Varint32 : M t Z :=
  r <- get;;
  let y := byte_at r (cursor r) in
  let x := JS.elem_and y 127 in
  if JS.elem_lt y 128 then advance 1;; ret x
  else
    let y := byte_at r (cursor r + 1) in
    let x := JS.or x (JS.shl (JS.elem_and y 127) 7) in
    if JS.elem_lt y 128 then advance 2;; ret x
    else
      let y := byte_at r (cursor r + 2) in
      let x := JS.or x (JS.shl (JS.elem_and y 127) 14) in
      if JS.elem_lt y 128 then advance 3;; ret x
      else
        let y := byte_at r (cursor r + 3) in
        let x := JS.or x (JS.shl (JS.elem_and y 127) 21) in
        if JS.elem_lt y 128 then advance 4;; ret x
        else
          let y := byte_at r (cursor r + 4) in
          let x := JS.or x (JS.shl (JS.elem_and y 15) 28) in
          if JS.elem_lt y 128 then advance 5;; ret (JS.ushr x 0)
          else
            advance 5;;
            too_long <- all_continue 5;;
            if too_long then throw Varint32TooLong
            else
              r <- get;;
              if cursor r >? end_ r
              then throw (DecoderCursorOutOfBounds (cursor r) (end_ r))
              else ret x.

Definition sign (v : Z) (s : bool) : Z :=
  if s then JS.asIntN64 v else JS.asUintN64 v.

(** [BigInt(this.bytes[i])]: a [TypeError] on [undefined]. *)
Definition big_byte_at (i : Z) : M t Z :=
  fun r => match byte_at r i with
           | Some y => Ok y r
           | None => Throw TypeError r
           end.

(** One unrolled step of [Varint], for the byte at [cursor + k]:
    [y = BigInt(bytes[cursor + k]); v |= y << 7k;
     if (y < 0x80) { advance(k + 1); return sign(v, s) }
     v -= 0x80 << 7k], followed by the rest of the method. *)
Definition Varint_step (s : bool) (k : Z) (v : Z) (rest : Z -> M t Z)
  : M t Z :=
  r <- get;;
  y <- big_byte_at (cursor r + k);;
  let v := Z.lor v (Z.shiftl y (7 * k)) in
  if y <? 128 then advance (k + 1);; ret (sign v s)
  else rest (v - Z.shiftl 128 (7 * k)).

(** The last step, for the byte at [cursor + 9]. *)
Definition Varint_last (s : bool) (v : Z) : M t Z :=
  r <- get;;
  y <- big_byte_at (cursor r + 9);;
  let v := Z.lor v (Z.shiftl y 63) in
  if y <? 2 then advance 10;; ret (sign v s)
  else throw Overflow.

Definition Varint (s : bool) : M t Z :=
  r <- get;;
  v <- big_byte_at (cursor r);;
  if v <? 128 then advance 1;; ret (sign v s)
  else
    let v := v - 128 in
    Varint_step s 1 v (fun v =>
    Varint_step s 2 v (fun v =>
    Varint_step s 3 v (fun v =>
    Varint_step s 4 v (fun v =>
    Varint_step s 5 v (fun v =>
    Varint_step s 6 v (fun v =>
    Varint_step s 7 v (fun v =>
    Varint_step s 8 v (fun v =>
    Varint_last s v)))))))).

(** [NextField] (a getter that mutates the reader). *)
Definition NextField : M t bool :=
  r <- get;;
  if cursor r >=? end_ r then ret false
  else if JS.eqb (JS.Num (cursor r)) (length r) then ret false
  else
    tag <- Varint32;;
    let field := JS.shr tag 3 in
    let type := JS.and tag 7 in
    if negb (type =? WireType.VARINT)
       && negb (type =? WireType.FIXED32)
       && negb (type =? WireType.FIXED64)
       && negb (type =? WireType.DELIMITED)
       && (type =? JS.oror WireType.START_GROUP WireType.END_GROUP)
    then r <- get;; throw (InvalidWireType type (cursor r))
    else
      modify (set_nextField (Some field));;
      modify (set_nextWireType (Some type));;
      ret true.

(** The [while (this.bytes[this.cursor] & 0x80) advance(1)] of
    [skipField]: [advance] moves the cursor towards [end] or throws. *)
Equations? skip_varint (r : t) : outcome t unit
  by wf (Z.to_nat (end_ r + 1 - cursor r)) lt :=
  skip_varint r with Z.eq_dec (JS.elem_and (byte_at r (cursor r)) 128) 0 := {
    | left _ => Ok tt r;
    | right _ with Z_gt_dec (cursor r + 1) (end_ r) := {
        | left _ =>
            Throw (AdvancingCursorOutOfBounds (cursor r + 1) (end_ r))
                  (set_cursor (cursor r + 1) r);
        | right _ => skip_varint (set_cursor (cursor r + 1) r) } }.
Proof.
  simpl. lia.
Qed.

Definition skipField : M t unit :=
  r <- get;;
  if wire_is r WireType.VARINT then skip_varint;; advance 1
  else if wire_is r WireType.FIXED64 then advance 8
  else if wire_is r WireType.DELIMITED then l <- Varint32;; advance l
  else if wire_is r WireType.FIXED32 then advance 4
  else throw InvalidWireEncoding.

Definition Message (message : Message_) : M t unit :=
  r <- get;;
  if wire_is r WireType.DELIMITED then
    let oEnd := end_ r in
    l <- Varint32;;
    r <- get;;
    let nEnd := cursor r + l in
    modify (set_end nEnd);;
    deserializeBinaryFromReader message;;
    modify (set_cursor nEnd);;
    modify (set_end oEnd);;
    ret tt
  else throw TypeNever.

Definition Int32 : M t Z :=
  r <- get;;
  if wire_is r WireType.VARINT then Varint32 else throw TypeNever.

Definition Int64 : M t Z :=
  r <- get;;
  if wire_is r WireType.VARINT then Varint true else throw TypeNever.

Definition Uint32 : M t Z :=
  r <- get;;
  if wire_is r WireType.VARINT then Varint32 else throw TypeNever.

Definition Uint64 : M t Z :=
  r <- get;;
  if wire_is r WireType.VARINT then Varint false else throw TypeNever.

Definition Sint32 : M t Z :=
  r <- get;;
  if wire_is r WireType.VARINT then
    z <- Varint32;;
    ret (JS.xor (JS.ushr z 1) (- JS.and z 1))
  else throw TypeNever.

Definition Sint64 : M t Z :=
  r <- get;;
  if wire_is r WireType.VARINT then
    z <- Varint false;;
    ret (Z.lxor (Z.shiftr z 1)
                (- Z.land (Z.shiftr (Z.shiftl z 63) 63) 1))
  else throw TypeNever.

(** The little-endian word [(b[c] << 0) | (b[c+1] << 8) | (b[c+2] << 16)
    | (b[c+3] << 24)] at the cursor: an int32. *)
Definition word_at (r : t) : Z :=
  let b k := JS.int32_of (JS.of_elem (byte_at r (cursor r + k))) in
  JS.or (JS.or (JS.or (JS.shl (b 0) 0) (JS.shl (b 1) 8))
               (JS.shl (b 2) 16))
        (JS.shl (b 3) 24).

Definition Fixed32 : M t Z :=
  r <- get;;
  if wire_is r WireType.FIXED32 then
    let v := word_at r in
    advance 4;;
    ret v
  else throw TypeNever.

Definition Sfixed32 : M t Z :=
  r <- get;;
  if wire_is r WireType.FIXED32 then Fixed32 else throw TypeNever.

(** [Fixed64]: [BigInt(high * TWO_TO_32 + (low >>> 0))].  The product is
    a Number as it is ([high] has 32 bits); the sum is a Number too, and
    is rounded before [BigInt] reads it. *)
Definition Fixed64 : M t Z :=
  r <- get;;
  if wire_is r WireType.FIXED64 then
    let low := word_at r in
    advance 4;;
    r <- get;;
    let high := word_at r in
    advance 4;;
    ret (JS.plus (high * TWO_TO_32) (JS.ushr low 0))
  else throw TypeNever.

Definition Sfixed64 : M t Z :=
  r <- get;;
  if wire_is r WireType.FIXED64 then Fixed64 else throw TypeNever.

Definition Float : M t ieee :=
  r <- get;;
  if wire_is r WireType.FIXED32 then
    flt <- Fixed32;;
    let sign := JS.shr flt 31 * 2 + 1 in
    let exp := JS.and (JS.ushr flt 23) 255 in
    let mant := JS.and flt 8388607 in
    if exp =? 255 then
      if negb (mant =? 0) then ret IeeeNaN else ret (IeeeInfinity sign)
    else if exp =? 0 then ret (IeeeDenormal32 sign mant)
    else ret (IeeeNormal32 sign exp mant)
  else throw TypeNever.

Definition Double : M t ieee :=
  r <- get;;
  if wire_is r WireType.FIXED64 then
    let bitsLow := word_at r in
    advance 4;;
    r <- get;;
    let bitsHigh := word_at r in
    advance 4;;
    let sign := JS.shr bitsHigh 31 * 2 + 1 in
    let exp := JS.and (JS.ushr bitsHigh 20) 2047 in
    let mant := TWO_TO_32 * JS.and bitsHigh 1048575 + JS.ushr bitsLow 0 in
    if exp =? 2047 then
      if negb (mant =? 0) then ret IeeeNaN else ret (IeeeInfinity sign)
    else if exp =? 0 then ret (IeeeDenormal64 sign mant)
    else ret (IeeeNormal64 sign exp mant)
  else throw TypeNever.

Definition Bool : M t bool :=
  r <- get;;
  if wire_is r WireType.VARINT then
    y <- next_byte;;
    ret (JS.elem_truthy y)
  else throw TypeNever.

Definition Enum : M t Z :=
  r <- get;;
  if wire_is r WireType.VARINT then Varint32 else throw TypeNever.

(** One iteration of the decoding loop of [String], after
    [c = this.bytes[cursor++]]: the local cursor and the code units after
    it.  An [undefined] byte satisfies none of the comparisons of the [if]
    chain. *)
Definition String_body (r : t) (c : option Z) (cursor : Z)
           (codeUnits : list Z) : Z * list Z :=
  match c with
  | None => (cursor, codeUnits)
  | Some c =>
      if c <? 128 then (cursor, codeUnits ++ [c])
      else if c <? 192 then (cursor, codeUnits)
      else if c <? 224 then
        (cursor + 1,
         codeUnits ++
         [JS.or (JS.shl (JS.and c 31) 6)
                (JS.elem_and (byte_at r cursor) 63)])
      else if c <? 240 then
        (cursor + 2,
         codeUnits ++
         [JS.or (JS.or (JS.shl (JS.and c 15) 12)
                       (JS.shl (JS.elem_and (byte_at r cursor) 63) 6))
                (JS.elem_and (byte_at r (cursor + 1)) 63)])
      else if c <? 248 then
        let codepoint :=
          JS.or (JS.or (JS.or (JS.shl (JS.and c 7) 18)
                              (JS.shl (JS.elem_and (byte_at r cursor) 63) 12))
                       (JS.shl (JS.elem_and (byte_at r (cursor + 1)) 63) 6))
                (JS.elem_and (byte_at r (cursor + 2)) 63) in
        let codepoint := codepoint - 65536 in
        (cursor + 3,
         codeUnits ++
         [JS.and (JS.shr codepoint 10) 1023 + 55296;
          JS.and codepoint 1023 + 56320])
      else (cursor, codeUnits)
  end.

Lemma String_body_cursor (r : t) (c : option Z) (cursor : Z)
      (codeUnits : list Z) :
  cursor <= fst (String_body r c cursor codeUnits).
Proof.
  unfold String_body. destruct c as [c |]; [| cbn [fst]; lia].
  repeat (match goal with |- context [if ?b then _ else _] => destruct b end);
    cbn [fst]; lia.
Qed.

(** [while (cursor < end)] of [String], on the local [cursor]. *)
Equations? String_loop (r : t) (end' cursor' : Z) (codeUnits : list Z)
  : Z * list Z by wf (Z.to_nat (end' - cursor')) lt :=
  String_loop r end' cursor' codeUnits with Z_lt_dec cursor' end' := {
    | right _ => (cursor', codeUnits);
    | left _ =>
        String_loop r end'
          (fst (String_body r (byte_at r cursor') (cursor' + 1) codeUnits))
          (snd (String_body r (byte_at r cursor') (cursor' + 1) codeUnits)) }.
Proof.
  pose proof (String_body_cursor r (byte_at r cursor') (cursor' + 1) codeUnits).
  lia.
Qed.

Definition String : M t (list Z) :=
  r <- get;;
  if wire_is r WireType.DELIMITED then
    l <- Varint32;;
    r <- get;;
    let end' := cursor r + l in
    if (l <? 0) || (l >? TWO_TO_52) then throw StringLengthTooLong
    else
      let '(cursor', codeUnits) := String_loop r end' (cursor r) [] in
      modify (set_cursor cursor');;
      ret (JS.fromCharCode codeUnits)
  else throw TypeNever.

Definition Bytes : M t (list Z) :=
  r <- get;;
  if wire_is r WireType.DELIMITED then
    l <- Varint32;;
    if (l <? 0) || (l >? TWO_TO_52) then throw (InvalidLength l)
    else
      r <- get;;
      let result := JS.subarray (bytes r) (cursor r) (cursor r + l) in
      advance l;;
      ret result
  else throw TypeNever.

(** The first [switch] of [Map]: the key. *)
Definition Map_key (kFT : FieldType) : M t value :=
  match kFT with
  | INT64 => v <- Varint true;; ret (VBigInt v)
  | UINT64 => v <- Varint false;; ret (VBigInt v)
  | INT32 | UINT32 => v <- Varint32;; ret (VNumber v)
  | FIXED64 | SFIXED64 =>
      modify (set_nextWireType (Some WireType.FIXED64));;
      v <- Fixed64;; ret (VBigInt v)
  | STRING => v <- String;; ret (VString v)
  | FIXED32 | SFIXED32 =>
      modify (set_nextWireType (Some WireType.FIXED32));;
      v <- Fixed32;; ret (VNumber v)
  | BOOL =>
      modify (set_nextWireType (Some WireType.VARINT));;
      v <- Bool;; ret (VBoolean v)
  | ENUM =>
      modify (set_nextWireType (Some WireType.VARINT));;
      v <- Enum;; ret (VNumber v)
  | SINT32 =>
      modify (set_nextWireType (Some WireType.VARINT));;
      v <- Sint32;; ret (VNumber v)
  | SINT64 =>
      modify (set_nextWireType (Some WireType.VARINT));;
      v <- Sint64;; ret (VBigInt v)
  | _ => throw (InvalidMapKeyFieldType kFT)
  end.

(** The second [switch] of [Map]: the value, [None] when [arr[1]] is left
    unset (a [MESSAGE] value read without [msg]). *)
Definition Map_value (vFT : FieldType) (msg : option Message_)
  : M t (option value) :=
  match vFT with
  | DOUBLE =>
      modify (set_nextWireType (Some WireType.FIXED64));;
      v <- Double;; ret (Some (VFloat v))
  | FLOAT =>
      modify (set_nextWireType (Some WireType.FIXED32));;
      v <- Float;; ret (Some (VFloat v))
  | INT64 => v <- Varint true;; ret (Some (VBigInt v))
  | UINT64 => v <- Varint false;; ret (Some (VBigInt v))
  | INT32 | UINT32 => v <- Varint32;; ret (Some (VNumber v))
  | FIXED64 | SFIXED64 =>
      modify (set_nextWireType (Some WireType.FIXED64));;
      v <- Fixed64;; ret (Some (VBigInt v))
  | BOOL =>
      modify (set_nextWireType (Some WireType.VARINT));;
      v <- Bool;; ret (Some (VBoolean v))
  | MESSAGE =>
      match msg with
      | Some msg =>
          Varint32;;
          v <- deserializeBinaryFromReader msg;; ret (Some v)
      | None => ret None
      end
  | BYTES => v <- Bytes;; ret (Some (VBytes v))
  | STRING => v <- String;; ret (Some (VString v))
  | ENUM =>
      modify (set_nextWireType (Some WireType.VARINT));;
      v <- Enum;; ret (Some (VNumber v))
  | FIXED32 | SFIXED32 =>
      modify (set_nextWireType (Some WireType.FIXED32));;
      v <- Fixed32;; ret (Some (VNumber v))
  | SINT32 =>
      modify (set_nextWireType (Some WireType.VARINT));;
      v <- Sint32;; ret (Some (VNumber v))
  | SINT64 =>
      modify (set_nextWireType (Some WireType.VARINT));;
      v <- Sint64;; ret (Some (VBigInt v))
  | _ => throw InvalidMapValueFieldType
  end.

(** [Map]: the returned array is [[key; value]], or [[key]] when the
    value was left unset. *)
Definition Map (kFT vFT : FieldType) (msg : option Message_)
  : M t (list value) :=
  r <- get;;
  if wire_is r WireType.DELIMITED then
    let oEnd := end_ r in
    l <- Varint32;;
    r <- get;;
    let nEnd := cursor r + l in
    modify (set_end nEnd);;
    Varint32;;
    k <- Map_key kFT;;
    Varint32;;
    v <- Map_value vFT msg;;
    modify (set_end oEnd);;
    modify (set_cursor nEnd);;
    ret (k :: match v with Some v => [v] | None => [] end)
  else throw TypeNever.

(** *** Packed fields

    Every read that the packed loops call either throws or returns with the
    cursor moved forward: this is what ends [while (this.cursor < end)]. *)
Definition advances {A} (read : M t A) : Prop :=
  forall (r r' : t) (x : A), read r = Ok x r' -> cursor r < cursor r'.

(** The reads that move the cursor with [advance] only: when they return,
    the cursor has moved by some [k >= lo], nothing else has changed, and
    the cursor is not past [end] unless it was there before. *)
Definition moves (lo : Z) {A} (read : M t A) : Prop :=
  forall (r r' : t) (x : A), read r = Ok x r' ->
    exists k, lo <= k /\ r' = set_cursor (cursor r + k) r
              /\ cursor r + k <= Z.max (cursor r) (end_ r).

Lemma Ok_inv {S A} (a a' : A) (s s' : S) :
  Ok a s = Ok a' s' -> a = a' /\ s = s'.
Proof. intros H. injection H. auto. Qed.

Lemma set_cursor_twice (c c' : Z) (r : t) :
  set_cursor c' (set_cursor c r) = set_cursor c' r.
Proof. reflexivity. Qed.

Lemma set_cursor_same (r : t) : set_cursor (cursor r + 0) r = r.
Proof.
  destruct r. unfold set_cursor.
  cbn [cursor bytes end_ nextField nextWireType length]. f_equal. lia.
Qed.

Lemma moves_advances {A} (lo : Z) (read : M t A) :
  0 < lo -> moves lo read -> advances read.
Proof.
  intros Hlo H r r' x E. destruct (H r r' x E) as [k [Hk [-> _]]].
  cbn [set_cursor cursor]. lia.
Qed.

Lemma moves_weaken {A} (lo lo' : Z) (read : M t A) :
  lo' <= lo -> moves lo read -> moves lo' read.
Proof.
  intros Hlo H r r' x E. destruct (H r r' x E) as [k [Hk Hr]].
  exists k. split; [lia | exact Hr].
Qed.

Lemma advance_inv (count : Z) (r r' : t) (u : unit) :
  advance count r = Ok u r' ->
  r' = set_cursor (cursor r + count) r /\ cursor r + count <= end_ r.
Proof.
  unfold advance. cbn [cursor end_ set_cursor].
  destruct (cursor r + count >? end_ r) eqn:E; [discriminate |].
  intros H. apply Ok_inv in H. destruct H as [_ <-]. split; [reflexivity |].
  rewrite Z.gtb_ltb in E. apply Z.ltb_ge in E. exact E.
Qed.

Lemma advance_moves (count : Z) : moves count (advance count).
Proof.
  intros r r' u E. apply advance_inv in E. destruct E as [-> E].
  exists count. split; [lia |]. split; [reflexivity | lia].
Qed.

Lemma ret_moves {A} (x : A) : moves 0 (ret x).
Proof.
  intros r r' y E. apply Ok_inv in E. destruct E as [_ <-].
  exists 0. split; [lia |]. split; [symmetry; apply set_cursor_same | lia].
Qed.

Lemma throw_moves {A} (lo : Z) (e : error) : moves lo (@throw t A e).
Proof. intros r r' y E. discriminate E. Qed.

Lemma bind_moves {A B} (lo lo' : Z) (m : M t A) (k : A -> M t B) :
  moves lo m -> (forall x, moves lo' (k x)) -> moves (lo + lo') (x <- m;; k x).
Proof.
  intros Hm Hk r r' y. unfold bind.
  destruct (m r) as [x s |] eqn:E; [| discriminate].
  intros E'. destruct (Hm r s x E) as [j [Hj [-> Hb]]].
  destruct (Hk x _ r' y E') as [j' [Hj' [-> Hb']]].
  cbn [set_cursor cursor end_] in Hb' |- *.
  exists (j + j'). split; [lia |]. split; [| lia].
  rewrite set_cursor_twice. f_equal. lia.
Qed.

Lemma get_moves {A} (lo : Z) (k : t -> M t A) :
  (forall r, moves lo (k r)) -> moves lo (r <- get;; k r).
Proof. intros Hk r r' y. unfold bind, get. apply Hk. Qed.

Lemma if_moves {A} (lo : Z) (c : bool) (m m' : M t A) :
  moves lo m -> moves lo m' -> moves lo (if c then m else m').
Proof. destruct c; auto. Qed.

Lemma all_continue_inv (n : nat) :
  forall (r r' : t) (b : bool), all_continue n r = Ok b r' ->
    exists j, 0 <= j <= Z.of_nat n /\ r' = set_cursor (cursor r + j) r.
Proof.
  induction n as [| n IH]; intros r r' b H.
  - apply Ok_inv in H. destruct H as [_ <-]. exists 0. split; [lia |].
    symmetry. apply set_cursor_same.
  - cbn [all_continue] in H. unfold bind, next_byte in H.
    destruct (JS.elem_ge (byte_at r (cursor r)) 128).
    + apply IH in H. destruct H as [j [Hj ->]].
      exists (1 + j). split; [lia |].
      cbn [cursor set_cursor]. rewrite set_cursor_twice. f_equal. lia.
    + apply Ok_inv in H. destruct H as [_ <-]. exists 1.
      split; [lia | reflexivity].
Qed.

(** A successful [Varint32] has consumed between one and ten bytes, and
    has checked the cursor against [end]. *)
Lemma Varint32_inv (r r' : t) (x : Z) :
  Varint32 r = Ok x r' ->
  exists k, 1 <= k <= 10 /\ r' = set_cursor (cursor r + k) r
            /\ cursor r + k <= end_ r.
Proof.
  unfold Varint32. unfold bind at 1. unfold get.
  repeat match goal with
         | |- context [if JS.elem_lt ?y 128 then _ else _] =>
             destruct (JS.elem_lt y 128)
         end.
  1-5: unfold bind, ret;
    match goal with
    | |- context [advance ?k ?s] =>
        destruct (advance k s) as [u s' |] eqn:E; [| discriminate];
        apply advance_inv in E; destruct E as [-> E];
        intros H; apply Ok_inv in H; destruct H as [_ <-];
        exists k; split; [lia | split; [reflexivity | exact E]]
    end.
  unfold bind at 1.
  destruct (advance 5 r) as [u s' |] eqn:E; [| discriminate].
  apply advance_inv in E. destruct E as [-> E].
  unfold bind at 1.
  destruct (all_continue 5 (set_cursor (cursor r + 5) r)) as [b s' |] eqn:E5;
    [| discriminate].
  apply all_continue_inv in E5. destruct E5 as [j [Hj ->]].
  destruct b; [discriminate |].
  unfold bind, get. cbn [cursor end_ set_cursor].
  destruct (cursor r + 5 + j >? end_ r) eqn:Eend; [discriminate |].
  unfold ret. intros H. apply Ok_inv in H. destruct H as [_ <-].
  rewrite Z.gtb_ltb in Eend. apply Z.ltb_ge in Eend.
  exists (5 + j). split; [lia |]. split; [| lia].
  rewrite set_cursor_twice. f_equal. lia.
Qed.

Lemma Varint32_moves : moves 1 Varint32.
Proof.
  intros r r' x H. apply Varint32_inv in H. destruct H as [k [Hk [-> Hb]]].
  exists k. split; [lia |]. split; [reflexivity | lia].
Qed.

Lemma Varint32_advances : advances Varint32.
Proof. apply (moves_advances 1); [lia | exact Varint32_moves]. Qed.

Lemma advance_ret_moves {A} (k : Z) (x : A) : moves k (advance k;; ret x).
Proof.
  apply (moves_weaken (k + 0)); [lia |].
  apply (bind_moves k 0 (advance k) (fun _ => ret x)).
  - apply advance_moves.
  - intros _. apply ret_moves.
Qed.

Lemma Varint_step_moves (s : bool) (k v : Z) (rest : Z -> M t Z) :
  0 <= k -> (forall v', moves 1 (rest v')) ->
  moves 1 (Varint_step s k v rest).
Proof.
  intros Hk Hrest r r' x. unfold Varint_step. unfold bind at 1. unfold get.
  unfold bind at 1. unfold big_byte_at.
  destruct (byte_at r (cursor r + k)) as [y |]; [| discriminate].
  destruct (y <? 128).
  - apply (moves_weaken (k + 1)); [lia | apply advance_ret_moves].
  - apply Hrest.
Qed.

Lemma Varint_last_moves (s : bool) (v : Z) : moves 1 (Varint_last s v).
Proof.
  intros r r' x. unfold Varint_last. unfold bind at 1. unfold get.
  unfold bind at 1. unfold big_byte_at.
  destruct (byte_at r (cursor r + 9)) as [y |]; [| discriminate].
  destruct (y <? 2); [| discriminate].
  apply (moves_weaken 10); [lia | apply advance_ret_moves].
Qed.

Lemma Varint_moves (s : bool) : moves 1 (Varint s).
Proof.
  intros r r' x. unfold Varint. unfold bind at 1. unfold get.
  unfold bind at 1. unfold big_byte_at at 1.
  destruct (byte_at r (cursor r)) as [y |]; [| discriminate].
  destruct (y <? 128).
  - apply advance_ret_moves.
  - repeat (apply Varint_step_moves; [lia | intros ?]).
    apply Varint_last_moves.
Qed.

Lemma Varint_advances (s : bool) : advances (Varint s).
Proof. apply (moves_advances 1); [lia | apply Varint_moves]. Qed.

(** A read guarded by [if (this.nextWireType == w)]. *)
Lemma guarded_moves {A} (lo w : Z) (read : M t A) :
  moves lo read ->
  moves lo (r <- get;; if wire_is r w then read else throw TypeNever).
Proof.
  intros Hread. apply get_moves. intros r.
  apply if_moves; [exact Hread | apply throw_moves].
Qed.

(** A read followed by a computation on its result. *)
Lemma map_moves {A B} (lo : Z) (read : M t A) (f : A -> B) :
  moves lo read -> moves lo (x <- read;; ret (f x)).
Proof.
  intros Hread. apply (moves_weaken (lo + 0)); [lia |].
  apply bind_moves; [exact Hread |]. intros x. apply ret_moves.
Qed.

Lemma Sint32_moves : moves 1 Sint32.
Proof.
  apply guarded_moves.
  apply (map_moves 1 Varint32
           (fun z => JS.xor (JS.ushr z 1) (- JS.and z 1))).
  exact Varint32_moves.
Qed.

Lemma Sint32_advances : advances Sint32.
Proof. apply (moves_advances 1); [lia | exact Sint32_moves]. Qed.

Lemma Sint64_moves : moves 1 Sint64.
Proof.
  apply guarded_moves.
  apply (map_moves 1 (Varint false)
           (fun z => Z.lxor (Z.shiftr z 1)
                            (- Z.land (Z.shiftr (Z.shiftl z 63) 63) 1))).
  apply Varint_moves.
Qed.

Lemma Sint64_advances : advances Sint64.
Proof. apply (moves_advances 1); [lia | exact Sint64_moves]. Qed.

Lemma Enum_moves : moves 1 Enum.
Proof. apply guarded_moves. exact Varint32_moves. Qed.

Lemma Enum_advances : advances Enum.
Proof. apply (moves_advances 1); [lia | exact Enum_moves]. Qed.

(** [Bool] moves the cursor by itself, without [advance]. *)
Lemma Bool_advances : advances Bool.
Proof.
  intros r r' x. unfold Bool, bind, get, next_byte, ret.
  destruct (wire_is r WireType.VARINT); [| discriminate].
  intros H. apply Ok_inv in H. destruct H as [_ <-].
  cbn [set_cursor cursor]. lia.
Qed.

Lemma Fixed32_moves : moves 4 Fixed32.
Proof.
  apply get_moves. intros r.
  apply if_moves; [apply advance_ret_moves | apply throw_moves].
Qed.

Lemma Fixed32_advances : advances Fixed32.
Proof. apply (moves_advances 4); [lia | exact Fixed32_moves]. Qed.

Lemma Fixed64_moves : moves 8 Fixed64.
Proof.
  apply get_moves. intros r.
  apply if_moves; [| apply throw_moves].
  apply (bind_moves 4 4); [apply advance_moves | intros _].
  apply get_moves. intros r0. apply advance_ret_moves.
Qed.

Lemma Fixed64_advances : advances Fixed64.
Proof. apply (moves_advances 8); [lia | exact Fixed64_moves]. Qed.

Lemma Float_moves : moves 4 Float.
Proof.
  apply get_moves. intros r.
  apply if_moves; [| apply throw_moves].
  apply (bind_moves 4 0); [exact Fixed32_moves | intros flt].
  repeat apply if_moves; apply ret_moves.
Qed.

Lemma Float_advances : advances Float.
Proof. apply (moves_advances 4); [lia | exact Float_moves]. Qed.

Lemma Double_moves : moves 8 Double.
Proof.
  apply get_moves. intros r.
  apply if_moves; [| apply throw_moves].
  apply (bind_moves 4 4); [apply advance_moves | intros _].
  apply get_moves. intros r0.
  apply (bind_moves 4 0); [apply advance_moves | intros _].
  repeat apply if_moves; apply ret_moves.
Qed.

Lemma Double_advances : advances Double.
Proof. apply (moves_advances 8); [lia | exact Double_moves]. Qed.

Definition inspect {A} (a : A) : {b : A | a = b} := exist _ a eq_refl.

Section Packed.

Context {A : Type} (read : M t A) (read_advances : advances read).

(** [while (this.cursor < end) result.push(read())]. *)
Equations? Packed_loop (end' : Z) (result : list A) (r : t)
  : outcome t (list A) by wf (Z.to_nat (end' - cursor r)) lt :=
  Packed_loop end' result r with Z_lt_dec (cursor r) end' := {
    | right _ => Ok result r;
    | left _ with inspect (read r) := {
        | exist _ (Ok x r') _ => Packed_loop end' (result ++ [x]) r';
        | exist _ (Throw e r') _ => Throw e r' } }.
Proof.
  pose proof (read_advances r r' x e). lia.
Qed.

End Packed.

Definition PackedInt32 : M t (list Z) :=
  r <- get;;
  if wire_is r WireType.DELIMITED then
    length <- Varint32;;
    r <- get;;
    let end' := cursor r + length in
    Packed_loop Varint32 Varint32_advances end' []
  else throw TypeNever.

Definition PackedInt64 : M t (list Z) :=
  r <- get;;
  if wire_is r WireType.DELIMITED then
    length <- Varint32;;
    r <- get;;
    let end' := cursor r + length in
    Packed_loop (Varint true) (Varint_advances true) end' []
  else throw TypeNever.

Definition PackedUint32 : M t (list Z) :=
  r <- get;;
  if wire_is r WireType.DELIMITED then
    length <- Varint32;;
    r <- get;;
    let end' := cursor r + length in
    Packed_loop Varint32 Varint32_advances end' []
  else throw TypeNever.

Definition PackedUint64 : M t (list Z) :=
  r <- get;;
  if wire_is r WireType.DELIMITED then
    length <- Varint32;;
    r <- get;;
    let end' := cursor r + length in
    Packed_loop (Varint false) (Varint_advances false) end' []
  else throw TypeNever.

Definition PackedSint32 : M t (list Z) :=
  r <- get;;
  if wire_is r WireType.DELIMITED then
    length <- Varint32;;
    r <- get;;
    let end' := cursor r + length in
    modify (set_nextWireType (Some WireType.VARINT));;
    Packed_loop Sint32 Sint32_advances end' []
  else throw TypeNever.

Definition PackedSint64 : M t (list Z) :=
  r <- get;;
  if wire_is r WireType.DELIMITED then
    length <- Varint32;;
    r <- get;;
    let end' := cursor r + length in
    modify (set_nextWireType (Some WireType.VARINT));;
    Packed_loop Sint64 Sint64_advances end' []
  else throw TypeNever.

Definition PackedFixed32 : M t (list Z) :=
  r <- get;;
  if wire_is r WireType.DELIMITED then
    length <- Varint32;;
    r <- get;;
    let end' := cursor r + length in
    modify (set_nextWireType (Some WireType.FIXED32));;
    Packed_loop Fixed32 Fixed32_advances end' []
  else throw TypeNever.

Definition PackedFixed64 : M t (list Z) :=
  r <- get;;
  if wire_is r WireType.DELIMITED then
    length <- Varint32;;
    r <- get;;
    let end' := cursor r + length in
    modify (set_nextWireType (Some WireType.FIXED64));;
    Packed_loop Fixed64 Fixed64_advances end' []
  else throw TypeNever.

Definition PackedSfixed32 : M t (list Z) :=
  r <- get;;
  if wire_is r WireType.DELIMITED then
    length <- Varint32;;
    r <- get;;
    let end' := cursor r + length in
    modify (set_nextWireType (Some WireType.FIXED32));;
    Packed_loop Fixed32 Fixed32_advances end' []
  else throw TypeNever.

Definition PackedSfixed64 : M t (list Z) :=
  r <- get;;
  if wire_is r WireType.DELIMITED then
    length <- Varint32;;
    r <- get;;
    let end' := cursor r + length in
    modify (set_nextWireType (Some WireType.FIXED64));;
    Packed_loop Fixed64 Fixed64_advances end' []
  else throw TypeNever.

Definition PackedFloat : M t (list ieee) :=
  r <- get;;
  if wire_is r WireType.DELIMITED then
    length <- Varint32;;
    r <- get;;
    let end' := cursor r + length in
    modify (set_nextWireType (Some WireType.FIXED32));;
    Packed_loop Float Float_advances end' []
  else throw TypeNever.

Definition PackedDouble : M t (list ieee) :=
  r <- get;;
  if wire_is r WireType.DELIMITED then
    length <- Varint32;;
    r <- get;;
    let end' := cursor r + length in
    modify (set_nextWireType (Some WireType.FIXED64));;
    Packed_loop Double Double_advances end' []
  else throw TypeNever.

Definition PackedBool : M t (list bool) :=
  r <- get;;
  if wire_is r WireType.DELIMITED then
    length <- Varint32;;
    r <- get;;
    let end' := cursor r + length in
    modify (set_nextWireType (Some WireType.VARINT));;
    Packed_loop Bool Bool_advances end' []
  else throw TypeNever.

Definition PackedEnum : M t (list Z) :=
  r <- get;;
  if wire_is r WireType.DELIMITED then
    length <- Varint32;;
    r <- get;;
    let end' := cursor r + length in
    modify (set_nextWireType (Some WireType.VARINT));;
    Packed_loop Enum Enum_advances end' []
  else throw TypeNever.


End BinaryReader.

(* ===================================================================== *)
(** ** BinaryWriter ([src/writer.ts]) *)
(* ===================================================================== *)

Module BinaryWriter.

(** The writer's state is its [encoder], that is the encoder's buffer. *)
Definition t : Type := BinaryEncoder.t.

(** A message object, as far as the writer uses it: its
    [serializeBinaryToWriter], run on this writer. *)
Record Message_ : Type := {
  serializeBinaryToWriter : M t unit
}.

Definition ResultBuffer (w : t) : list Z := w.

Definition appendUint8Array (arr : list Z) : M t unit :=
  modify (fun buffer => buffer ++ arr).

(** [Tag]: on an integer, [field == Math.floor(field)] holds.  [field * 8]
    is a Number as it is; [field * 8 + wireType] is a sum of Numbers, and
    is rounded.  (Past the largest Number the product is [Infinity], on
    which [UnsignedVarint32] does what it does on a multiple of [2 ^ 32],
    as the rounded sum is there.) *)
Definition Tag (field wireType : Z) : M t unit :=
  if field >=? 1 then
    let x := JS.plus (field * 8) wireType in
    modify (BinaryEncoder.UnsignedVarint32 x)
  else throw (FieldNumberInvalid field).

Definition beginDelimited (field : Z) : M t Z :=
  Tag field WireType.DELIMITED;;
  buffer <- get;;
  ret (BinaryEncoder.Length buffer).

(** The [while (messageLength > 127)] loop of [endDelimited], which fills
    [tmp]. *)
Equations? endDelimited_loop (messageLength : Z) (tmp : list Z) : list Z
  by wf (Z.to_nat (Z.log2 messageLength)) lt :=
  endDelimited_loop messageLength tmp with Z_gt_dec messageLength 127 := {
    | left _ =>
        endDelimited_loop (JS.ushr messageLength 7)
                          (tmp ++ [JS.or (JS.and messageLength 127) 128]);
    | right _ => tmp }.
Proof.
  unfold JS.ushr, JS.to_uint32. change (7 mod 32) with 7.
  apply BinaryEncoder.shiftr7_log2_lt; [lia |].
  split; [apply Z.mod_pos_bound; lia | apply Z.mod_le; lia].
Qed.

Definition endDelimited (bookmark : Z) : M t unit :=
  buffer <- get;;
  let messageLength := BinaryEncoder.Length buffer - bookmark in
  if messageLength >=? 0 then
    if messageLength >? 127 then
      let tmp := endDelimited_loop messageLength [] in
      modify (JS.splice_insert bookmark tmp)
    else modify (JS.splice_insert bookmark [messageLength])
  else ret tt.

Definition Varint32 (field value : Z) : M t unit :=
  Tag field WireType.VARINT;;
  modify (BinaryEncoder.Varint32 value).

Definition Varint (field value : Z) : M t unit :=
  Tag field WireType.VARINT;;
  modify (BinaryEncoder.Varint value).

Definition Int32 (field value : Z) : M t unit :=
  if (value >=? - TWO_TO_31) && (value <? TWO_TO_31) then
    Tag field WireType.VARINT;;
    modify (BinaryEncoder.Varint32 value)
  else throw OutOfRange.

Definition Int64 (field value : Z) : M t unit :=
  if (value >=? - TWO_TO_63) && (value <? TWO_TO_63) then
    Tag field WireType.VARINT;;
    modify (BinaryEncoder.Varint value)
  else throw OutOfRange.

Definition Uint32 (field value : Z) : M t unit :=
  if (value >=? 0) && (value <? TWO_TO_32) then
    Tag field WireType.VARINT;;
    modify (BinaryEncoder.UnsignedVarint32 value)
  else throw OutOfRange.

Definition Uint64 (field value : Z) : M t unit :=
  if (value >=? 0) && (value <? TWO_TO_63) then
    Tag field WireType.VARINT;;
    modify (BinaryEncoder.Varint value)
  else throw OutOfRange.

Definition Sint32 (field value : Z) : M t unit :=
  if (value >=? - TWO_TO_31) && (value <? TWO_TO_31) then
    Tag field WireType.VARINT;;
    modify (BinaryEncoder.Zigzag32 value)
  else throw OutOfRange.

(** [Sint64]: the [if] has no [else]. *)
Definition Sint64 (field value : Z) : M t unit :=
  if (value >=? - TWO_TO_63) && (value <? TWO_TO_63) then
    Tag field WireType.VARINT;;
    modify (BinaryEncoder.Zigzag64 value)
  else ret tt.

Definition Fixed32 (field value : Z) : M t unit :=
  if value <? TWO_TO_32 then
    Tag field WireType.FIXED32;;
    modify (BinaryEncoder.Fixed32 value)
  else throw OutOfRange.

Definition Fixed64 (field value : Z) : M t unit :=
  if value <? TWO_TO_64 then
    Tag field WireType.FIXED64;;
    modify (BinaryEncoder.Fixed64 value)
  else throw OutOfRange.

Definition Sfixed32 (field value : Z) : M t unit :=
  if (value >=? - TWO_TO_31) && (value <? TWO_TO_31) then
    Tag field WireType.FIXED32;;
    modify (BinaryEncoder.Fixed32 value)
  else throw OutOfRange.

Definition Sfixed64 (field value : Z) : M t unit :=
  if (value >=? - TWO_TO_63) && (value <? TWO_TO_63) then
    Tag field WireType.FIXED64;;
    modify (BinaryEncoder.Fixed64 value)
  else throw OutOfRange.

Definition Bool (field : Z) (value : bool) : M t unit :=
  Tag field WireType.VARINT;;
  modify (BinaryEncoder.Bool value).

(** [Enum]: on an integer, [value == Math.floor(value)] holds. *)
Definition Enum (field value : Z) : M t unit :=
  Tag field WireType.VARINT;;
  modify (BinaryEncoder.Varint32 value).

Definition String (field : Z) (value : list Z) : M t unit :=
  let len := Z.of_nat (length value) in
  if (len <? 0) || (len >? TWO_TO_52) then throw StringLengthTooLong
  else
    bookmark <- beginDelimited field;;
    modify (fun buffer => snd (BinaryEncoder.String value buffer));;
    endDelimited bookmark.

Definition Bytes (field : Z) (value : list Z) : M t unit :=
  Tag field WireType.DELIMITED;;
  modify (BinaryEncoder.UnsignedVarint32 (Z.of_nat (length value)));;
  appendUint8Array value.

Definition Message (field : Z) (value : Message_) : M t unit :=
  bookmark <- beginDelimited field;;
  serializeBinaryToWriter value;;
  endDelimited bookmark.

(** A [for] loop over the elements of an array. *)
Fixpoint for_each {A} (f : A -> M t unit) (value : list A) : M t unit :=
  match value with
  | [] => ret tt
  | x :: rest => f x;; for_each f rest
  end.

Definition RepeatedMessage (field : Z) (value : list Message_) : M t unit :=
  for_each (fun m =>
              bookmark <- beginDelimited field;;
              serializeBinaryToWriter m;;
              endDelimited bookmark) value.

Definition PackedInt32 (field : Z) (value : list Z) : M t unit :=
  bookmark <- beginDelimited field;;
  for_each (fun v => modify (BinaryEncoder.Varint32 v)) value;;
  endDelimited bookmark.

Definition PackedUint32 (field : Z) (value : list Z) : M t unit :=
  bookmark <- beginDelimited field;;
  for_each (fun v => modify (BinaryEncoder.UnsignedVarint32 v)) value;;
  endDelimited bookmark.

Definition PackedBool (field : Z) (value : list bool) : M t unit :=
  Tag field WireType.DELIMITED;;
  modify (BinaryEncoder.UnsignedVarint32 (Z.of_nat (length value)));;
  for_each (fun v => modify (BinaryEncoder.Bool v)) value.

Definition PackedSint64 (field : Z) (value : list Z) : M t unit :=
  bookmark <- beginDelimited field;;
  for_each (fun v => modify (BinaryEncoder.Zigzag64 v)) value;;
  endDelimited bookmark.


End BinaryWriter.

(* ===================================================================== *)
(** ** The wire format's varint *)
(* ===================================================================== *)

Module Wire.

Definition octet (b : Z) : Prop := 0 <= b < 256.

(** The integer that a sequence of varint bytes stands for: seven payload
    bits per byte, least significant group first. *)
Fixpoint varint_value (bs : list Z) : Z :=
  match bs with
  | [] => 0
  | b :: rest => Z.land b 127 + 128 * varint_value rest
  end.

(** A complete varint: every byte but the last has the continuation bit,
    the last one does not, and all are octets. *)
Fixpoint well_terminated (bs : list Z) : bool :=
  match bs with
  | [] => false
  | [b] => (0 <=? b) && (b <? 128)
  | b :: rest => (128 <=? b) && (b <? 256) && well_terminated rest
  end.

(** The first byte of the varint of [m]: its low seven bits, with the
    continuation bit when more bytes follow. *)
Definition varint_head (m : Z) : Z :=
  if m >? 127 then Z.lor (Z.land m 127) 128 else m.

(** The legal wire types of a tag. *)
Definition legal_wire_type (w : Z) : Prop :=
  w = WireType.VARINT \/ w = WireType.FIXED64 \/
  w = WireType.DELIMITED \/ w = WireType.FIXED32.

(** The value of five bytes read as one big-endian unsigned integer. *)
Definition big_endian5 (b0 b1 b2 b3 b4 : Z) : Z :=
  b0 * 2 ^ 32 + b1 * 2 ^ 24 + b2 * 2 ^ 16 + b3 * 2 ^ 8 + b4.

(** The value of four bytes read as one big-endian unsigned integer. *)
Definition big_endian4 (b1 b2 b3 b4 : Z) : Z :=
  b1 * 2 ^ 24 + b2 * 2 ^ 16 + b3 * 2 ^ 8 + b4.

End Wire.

(** The streaming envelope as the specification words it: the length that
    [Header] parses is the value of all five bytes, a zero length ends the
    stream, and any other length is added, with the five bytes of the
    envelope, to the end of the current message. *)
Definition Header_parses_five_byte_length : Prop :=
  forall (b0 b1 b2 b3 b4 : Z) (rest : list Z),
    Wire.octet b0 -> Wire.octet b1 -> Wire.octet b2 ->
    Wire.octet b3 -> Wire.octet b4 ->
    let r := BinaryReader.new (b0 :: b1 :: b2 :: b3 :: b4 :: rest) in
    let l := Wire.big_endian5 b0 b1 b2 b3 b4 in
    BinaryReader.Header r =
    if l =? 0
    then Ok false (BinaryReader.set_cursor 5 r)
    else Ok true (BinaryReader.set_length (JS.Num (l + 5))
                                          (BinaryReader.set_cursor 5 r)).

(** The tag as the specification words it: for every field number from 1
    on, what [Tag] appends is [field * 8 + wireType] reduced modulo
    [2 ^ 32]. *)
Definition Tag_reduces_every_tag_modulo_2_32 : Prop :=
  forall (field wireType : Z) (buffer : list Z),
    1 <= field ->
    Wire.legal_wire_type wireType ->
    exists bs,
      BinaryWriter.Tag field wireType buffer = Ok tt (buffer ++ bs) /\
      Wire.well_terminated bs = true /\
      Wire.varint_value bs = (field * 8 + wireType) mod 2 ^ 32 /\
      (2 ^ 29 <= field -> Wire.varint_value bs <> field * 8 + wireType) /\
      (field < 2 ^ 29 -> Wire.varint_value bs = field * 8 + wireType).

(** A read that stays in bounds: when it returns, the cursor has moved
    forward, it is not past [end], and nothing else in the reader has
    changed. *)
Definition stays_in_bounds {A} (read : M BinaryReader.t A) : Prop :=
  forall (r r' : BinaryReader.t) (x : A),
    read r = Ok x r' ->
    BinaryReader.cursor r < BinaryReader.cursor r' <= BinaryReader.end_ r
    /\ r' = BinaryReader.set_cursor (BinaryReader.cursor r') r.

(** A UTF-16 code unit that stands for a character by itself: it is not
    one half of a surrogate pair. *)
Definition scalar_unit (c : Z) : Prop :=
  0 <= c < 65536 /\ ~ 55296 <= c < 57344.

(** A packed read that stays in bounds: when it returns, the cursor has
    moved forward, it is not past [end], and nothing else in the reader has
    changed but, possibly, the wire type. *)
Definition packed_in_bounds {A} (read : M BinaryReader.t A) : Prop :=
  forall (r r' : BinaryReader.t) (x : A),
    read r = Ok x r' ->
    BinaryReader.cursor r < BinaryReader.cursor r' <= BinaryReader.end_ r
    /\ exists w,
         r' = BinaryReader.set_cursor
                (BinaryReader.cursor r') (BinaryReader.set_nextWireType w r).

(** The characters of a well-formed UTF-16 string: a code unit that is not
    a surrogate, or a high surrogate followed by a low one. *)
Inductive utf16_char : list Z -> Prop :=
| utf16_scalar (c : Z) : scalar_unit c -> utf16_char [c]
| utf16_pair (hi lo : Z) :
    55296 <= hi < 56320 -> 56320 <= lo < 57344 -> utf16_char [hi; lo].


(** A continuation byte of a varint: an octet with its high bit set. *)
Definition continuation (c : Z) : Prop := 128 <= c < 256.

(** The input of a reader holds the bytes [e] at its cursor: they are the
    [length e] elements of [bytes] from index [cursor] on. *)
Definition holds (r : BinaryReader.t) (e : list Z) : Prop :=
  0 <= BinaryReader.cursor r /\
  firstn (length e)
         (skipn (Z.to_nat (BinaryReader.cursor r)) (BinaryReader.bytes r)) = e.

(* ===================================================================== *)
(** ** Arithmetic of the JavaScript operators *)
(* ===================================================================== *)

Section JSFacts.

Lemma gtb_false (a b : Z) : a <= b -> (a >? b) = false.
Proof. intros H. rewrite Z.gtb_ltb. apply Z.ltb_ge. lia. Qed.

Lemma gtb_true (a b : Z) : b < a -> (a >? b) = true.
Proof. intros H. rewrite Z.gtb_ltb. apply Z.ltb_lt. lia. Qed.

Lemma geb_false (a b : Z) : a < b -> (a >=? b) = false.
Proof. intros H. rewrite Z.geb_leb. apply Z.leb_gt. lia. Qed.

Lemma gtb_le_127 (a : Z) : (a >? 127) = false -> a <= 127.
Proof. intros H. rewrite Z.gtb_ltb in H. apply Z.ltb_ge in H. lia. Qed.

Lemma ltb_true (a b : Z) : a < b -> (a <? b) = true.
Proof. apply Z.ltb_lt. Qed.

Lemma ltb_false (a b : Z) : b <= a -> (a <? b) = false.
Proof. apply Z.ltb_ge. Qed.

Lemma to_int32_small (x : Z) :
  - 2 ^ 31 <= x < 2 ^ 31 -> JS.to_int32 x = x.
Proof.
  intros H. unfold JS.to_int32. rewrite Z.mod_small; lia.
Qed.

Lemma to_int32_range (x : Z) : - 2 ^ 31 <= JS.to_int32 x < 2 ^ 31.
Proof.
  unfold JS.to_int32.
  pose proof (Z.mod_pos_bound (x + 2 ^ 31) (2 ^ 32)). lia.
Qed.

Lemma to_int32_congr (x : Z) : exists q, JS.to_int32 x = x + q * 2 ^ 32.
Proof.
  exists (- ((x + 2 ^ 31) / 2 ^ 32)). unfold JS.to_int32.
  pose proof (Z.div_mod (x + 2 ^ 31) (2 ^ 32) ltac:(lia)). lia.
Qed.

Lemma to_int32_mod (x : Z) (k : Z) :
  0 <= k <= 32 -> JS.to_int32 x mod 2 ^ k = x mod 2 ^ k.
Proof.
  intros Hk. destruct (to_int32_congr x) as [q ->].
  replace (q * 2 ^ 32) with (q * 2 ^ (32 - k) * 2 ^ k).
  - apply Z.mod_add. apply Z.pow_nonzero; lia.
  - rewrite <- Z.mul_assoc, <- Z.pow_add_r by lia. do 2 f_equal. lia.
Qed.

Lemma to_int32_idem (x : Z) : JS.to_int32 (JS.to_int32 x) = JS.to_int32 x.
Proof. apply to_int32_small, to_int32_range. Qed.

(** Two numbers that agree modulo [2 ^ 32] have the same [ToInt32]. *)
Lemma to_int32_eqm (x y : Z) :
  x mod 2 ^ 32 = y mod 2 ^ 32 -> JS.to_int32 x = JS.to_int32 y.
Proof.
  intros H. unfold JS.to_int32.
  rewrite (Z.add_mod x), (Z.add_mod y), H by lia. reflexivity.
Qed.

(** [Z.lor] of two numbers with disjoint bits is their sum. *)
Lemma lor_disjoint_add (a b k : Z) :
  0 <= k -> 0 <= a < 2 ^ k -> Z.lor a (b * 2 ^ k) = a + b * 2 ^ k.
Proof.
  intros Hk Ha.
  assert (Hd : Z.land a (b * 2 ^ k) = 0).
  { apply Z.bits_inj'. intros n Hn. rewrite Z.land_spec, Z.bits_0.
    destruct (Z.lt_ge_cases n k) as [Hlt | Hge].
    - rewrite Z.mul_pow2_bits_low by lia. apply andb_false_r.
    - rewrite <- (Z.mod_small a (2 ^ k)) by lia.
      rewrite Z.mod_pow2_bits_high by lia. reflexivity. }
  rewrite <- Z.lxor_lor by exact Hd.
  symmetry. apply Z.add_nocarry_lxor. exact Hd.
Qed.

Lemma land_127 (x : Z) : Z.land x 127 = x mod 128.
Proof. change 127 with (Z.ones 7). rewrite Z.land_ones by lia. reflexivity. Qed.

Lemma well_terminated_cons (b : Z) (bs : list Z) :
  Wire.well_terminated bs = true ->
  128 <= b < 256 ->
  Wire.well_terminated (b :: bs) = true.
Proof.
  intros Hwt Hb. destruct bs as [| b' bs']; [discriminate Hwt |].
  change (Wire.well_terminated (b :: b' :: bs'))
    with ((128 <=? b) && (b <? 256) && Wire.well_terminated (b' :: bs')).
  rewrite Hwt.
  replace (128 <=? b) with true by (symmetry; apply Z.leb_le; lia).
  replace (b <? 256) with true by (symmetry; apply Z.ltb_lt; lia).
  reflexivity.
Qed.

Lemma continuation_payload (x : Z) : (x mod 128 + 128) mod 128 = x mod 128.
Proof.
  pose proof (Z.mod_pos_bound x 128 ltac:(lia)).
  symmetry. apply Z.mod_unique_pos with (q := 1); lia.
Qed.

(** [(v & 0x7f) | 0x80] on a number. *)
Lemma js_continuation_byte (v : Z) :
  JS.or (JS.and v 127) 128 = v mod 128 + 128.
Proof.
  unfold JS.or, JS.and.
  change (JS.to_int32 127) with 127. change (JS.to_int32 128) with 128.
  rewrite land_127. change 128 with (2 ^ 7) at 1. rewrite to_int32_mod by lia.
  pose proof (Z.mod_pos_bound v 128 ltac:(lia)) as Hb.
  change (2 ^ 7) with 128.
  rewrite to_int32_small by lia.
  change 128 with (1 * 2 ^ 7) at 2. rewrite lor_disjoint_add by lia. lia.
Qed.

(** [v >>> 7] on a number. *)
Lemma js_ushr7 (v : Z) : JS.ushr v 7 = (v mod 2 ^ 32) / 128.
Proof.
  unfold JS.ushr, JS.to_uint32. change (7 mod 32) with 7.
  rewrite Z.shiftr_div_pow2 by lia. reflexivity.
Qed.

(** An integer of at most 53 bits is a Number as it is. *)
Lemma binary64_exact (x : Z) : - 2 ^ 53 < x < 2 ^ 53 -> JS.binary64 x = x.
Proof.
  intros Hx. unfold JS.binary64.
  assert (Hlog : Z.log2 (Z.abs x) <= 52).
  { destruct (Z.eq_dec x 0) as [-> | Hnz]; [vm_compute; discriminate |].
    assert (Z.log2 (Z.abs x) < 53); [| lia].
    apply Z.log2_lt_pow2; lia. }
  replace (Z.log2 (Z.abs x) - 52 <=? 0) with true
    by (symmetry; apply Z.leb_le; lia).
  reflexivity.
Qed.

(** Rounding keeps the sign. *)
Lemma binary64_nonneg (x : Z) : 0 <= x -> 0 <= JS.binary64 x.
Proof.
  intros Hx. unfold JS.binary64.
  destruct (Z.log2 (Z.abs x) - 52 <=? 0) eqn:E; [exact Hx |].
  apply Z.leb_gt in E.
  set (ulp := 2 ^ (Z.log2 (Z.abs x) - 52)).
  assert (Hulp : 0 < ulp) by (apply Z.pow_pos_nonneg; lia).
  assert (Hq : 0 <= x / ulp) by (apply Z.div_pos; lia).
  destruct (2 * (x mod ulp) <? ulp); [nia |].
  destruct (ulp <? 2 * (x mod ulp)); [nia |].
  destruct (Z.even (x / ulp)); nia.
Qed.

Lemma plus_exact (a b : Z) :
  b = 0 \/ - 2 ^ 53 < a + b < 2 ^ 53 -> JS.plus a b = a + b.
Proof.
  intros H. unfold JS.plus.
  destruct (b =? 0) eqn:E.
  - apply Z.eqb_eq in E. lia.
  - apply Z.eqb_neq in E. apply binary64_exact. lia.
Qed.

Lemma plus_nonneg (a b : Z) : 0 <= a -> 0 <= b -> 0 <= JS.plus a b.
Proof.
  intros Ha Hb. unfold JS.plus.
  destruct (b =? 0); [exact Ha |].
  apply binary64_nonneg. lia.
Qed.

End JSFacts.

(* ===================================================================== *)
(** ** Properties of the encoder *)
(* ===================================================================== *)

Section EncoderFacts.

Import BinaryEncoder.

(** The loop of [UnsignedVarint32], one iteration at a time. *)
Lemma UnsignedVarint32_step (value : Z) (buffer : list Z) :
  UnsignedVarint32 value buffer =
  if value >? 127
  then UnsignedVarint32 (JS.ushr value 7)
                        (buffer ++ [JS.or (JS.and value 127) 128])
  else buffer ++ [value].
Proof.
  rewrite (UnsignedVarint32_equation_1 value buffer).
  destruct (Z_gt_dec value 127) as [H | H]; simpl;
    destruct (value >? 127) eqn:E; try reflexivity; lia.
Qed.

Lemma UnsignedVarint_step (v : Z) (buffer : list Z) :
  UnsignedVarint v buffer =
  if v >? 127
  then UnsignedVarint (Z.shiftr v 7) (buffer ++ [Z.lor (Z.land v 127) 128])
  else buffer ++ [v].
Proof.
  rewrite (UnsignedVarint_equation_1 v buffer).
  destruct (Z_gt_dec v 127) as [H | H]; simpl;
    destruct (v >? 127) eqn:E; try reflexivity; lia.
Qed.

(** On a 32-bit unsigned value the loop emits a complete varint of that
    value. *)
Lemma UnsignedVarint32_uint32 (value : Z) :
  0 <= value < 2 ^ 32 ->
  forall buffer, exists bs,
    UnsignedVarint32 value buffer = buffer ++ bs /\
    Wire.well_terminated bs = true /\
    Wire.varint_value bs = value.
Proof.
  intros [Hlo Hhi]. revert Hhi.
  pattern value. apply Zlt_0_ind; [| exact Hlo].
  clear value Hlo. intros v IH Hv0 Hhi buffer.
  rewrite UnsignedVarint32_step.
  destruct (v >? 127) eqn:E.
  - assert (Hq : 0 <= JS.ushr v 7 < v).
    { rewrite js_ushr7, Z.mod_small by lia.
      split; [apply Z.div_pos; lia | apply Z.div_lt_upper_bound; lia]. }
    destruct (IH (JS.ushr v 7) ltac:(lia) ltac:(lia)
                 (buffer ++ [JS.or (JS.and v 127) 128])) as (bs & -> & Hwt & Hval).
    exists (JS.or (JS.and v 127) 128 :: bs).
    rewrite <- app_assoc. split; [reflexivity |].
    rewrite js_continuation_byte.
    pose proof (Z.mod_pos_bound v 128 ltac:(lia)) as Hb.
    split.
    + apply well_terminated_cons; [exact Hwt | lia].
    + cbn [Wire.varint_value]. rewrite Hval, land_127, js_ushr7.
      rewrite Z.mod_small with (b := 2 ^ 32) by lia.
      rewrite continuation_payload.
      pose proof (Z.div_mod v 128 ltac:(lia)). lia.
  - exists [v]. split; [reflexivity |]. split.
    + cbn. apply andb_true_intro. split; [apply Z.leb_le | apply Z.ltb_lt]; lia.
    + cbn. rewrite land_127, Z.mod_small; lia.
Qed.

(** On any non-negative number the loop emits a complete varint of the
    number reduced modulo [2 ^ 32]. *)
Lemma UnsignedVarint32_wraps (value : Z) :
  0 <= value ->
  forall buffer, exists bs,
    UnsignedVarint32 value buffer = buffer ++ bs /\
    Wire.well_terminated bs = true /\
    Wire.varint_value bs = value mod 2 ^ 32.
Proof.
  intros Hv buffer.
  destruct (Z.lt_ge_cases value (2 ^ 32)) as [Hsmall | Hbig].
  { rewrite Z.mod_small by lia. apply UnsignedVarint32_uint32. lia. }
  rewrite UnsignedVarint32_step.
  rewrite gtb_true by lia.
  pose proof (Z.mod_pos_bound value (2 ^ 32) ltac:(lia)) as Hm.
  assert (Hq : 0 <= JS.ushr value 7 < 2 ^ 32).
  { rewrite js_ushr7.
    split; [apply Z.div_pos; lia | apply Z.div_lt_upper_bound; lia]. }
  destruct (UnsignedVarint32_uint32 (JS.ushr value 7) Hq
              (buffer ++ [JS.or (JS.and value 127) 128])) as (bs & -> & Hwt & Hval).
  exists (JS.or (JS.and value 127) 128 :: bs).
  rewrite <- app_assoc. split; [reflexivity |].
  rewrite js_continuation_byte.
  pose proof (Z.mod_pos_bound value 128 ltac:(lia)) as Hb.
  split.
  - apply well_terminated_cons; [exact Hwt | lia].
  - cbn [Wire.varint_value]. rewrite Hval, land_127, js_ushr7.
    rewrite continuation_payload.
    assert (He : (value mod 2 ^ 32) mod 128 = value mod 128).
    { pose proof (Z.div_mod value (2 ^ 32) ltac:(lia)).
      pose proof (Z.mod_pos_bound (value mod 2 ^ 32) 128 ltac:(lia)).
      pose proof (Z.div_mod (value mod 2 ^ 32) 128 ltac:(lia)).
      apply Z.mod_unique_pos
        with (q := value / 2 ^ 32 * 2 ^ 25 + value mod 2 ^ 32 / 128); lia. }
    rewrite <- He.
    pose proof (Z.div_mod (value mod 2 ^ 32) 128 ltac:(lia)). lia.
Qed.

(** What [UnsignedVarint] appends does not depend on the buffer. *)
Lemma UnsignedVarint_app (v : Z) :
  forall buffer, UnsignedVarint v buffer = buffer ++ UnsignedVarint v [].
Proof.
  destruct (Z.lt_ge_cases v 0) as [Hneg | Hpos].
  { intros buffer. rewrite !(UnsignedVarint_step v).
    rewrite gtb_false by lia. reflexivity. }
  pattern v. apply Zlt_0_ind; [| exact Hpos].
  clear v Hpos. intros v IH Hv buffer.
  rewrite !(UnsignedVarint_step v).
  destruct (v >? 127) eqn:E; [| reflexivity].
  apply Z.gtb_lt in E.
  assert (Hq : 0 <= Z.shiftr v 7 < v).
  { rewrite Z.shiftr_div_pow2 by lia.
    split; [apply Z.div_pos; lia | apply Z.div_lt_upper_bound; lia]. }
  rewrite (IH _ Hq (buffer ++ _)), (IH _ Hq ([] ++ _)).
  rewrite <- app_assoc. reflexivity.
Qed.

(** The varint of [v] is its head byte followed, when [v > 127], by the
    varint of [v >> 7]. *)
Lemma UnsignedVarint_cons (v : Z) :
  UnsignedVarint v [] =
  Wire.varint_head v ::
  (if v >? 127 then UnsignedVarint (Z.shiftr v 7) [] else []).
Proof.
  rewrite (UnsignedVarint_step v). unfold Wire.varint_head.
  destruct (v >? 127); [| reflexivity].
  rewrite UnsignedVarint_app. reflexivity.
Qed.

(** The byte of index [j] of the varint of [n], when the [j] bytes before
    it are continuation bytes. *)
Lemma UnsignedVarint_nth (j : nat) :
  forall n,
    (forall i, (i < j)%nat -> Z.shiftr n (7 * Z.of_nat i) > 127) ->
    nth_error (UnsignedVarint n []) j
    = Some (Wire.varint_head (Z.shiftr n (7 * Z.of_nat j))).
Proof.
  induction j as [| j IH]; intros n Hc.
  - rewrite UnsignedVarint_cons. reflexivity.
  - rewrite UnsignedVarint_cons.
    pose proof (Hc O ltac:(lia)) as H0. cbn in H0.
    rewrite gtb_true by lia. cbn [nth_error].
    rewrite IH.
    + rewrite Z.shiftr_shiftr by lia. do 3 f_equal. lia.
    + intros i Hi. rewrite Z.shiftr_shiftr by lia.
      replace (7 + 7 * Z.of_nat i) with (7 * Z.of_nat (S i)) by lia.
      apply Hc. lia.
Qed.

Lemma UnsignedVarint_length (j : nat) :
  forall n,
    (forall i, (i < j)%nat -> Z.shiftr n (7 * Z.of_nat i) > 127) ->
    Z.shiftr n (7 * Z.of_nat j) <= 127 ->
    length (UnsignedVarint n []) = S j.
Proof.
  induction j as [| j IH]; intros n Hc Hlast.
  - rewrite UnsignedVarint_cons. cbn in Hlast.
    rewrite gtb_false by lia. reflexivity.
  - rewrite UnsignedVarint_cons.
    pose proof (Hc O ltac:(lia)) as H0. cbn in H0.
    rewrite gtb_true by lia. cbn [length]. f_equal.
    apply IH.
    + intros i Hi. rewrite Z.shiftr_shiftr by lia.
      replace (7 + 7 * Z.of_nat i) with (7 * Z.of_nat (S i)) by lia.
      apply Hc. lia.
    + rewrite Z.shiftr_shiftr by lia.
      replace (7 + 7 * Z.of_nat j) with (7 * Z.of_nat (S j)) by lia.
      exact Hlast.
Qed.

(** The head byte of a varint: an octet, below 128 exactly on the last
    byte. *)
Lemma varint_head_continue (m : Z) :
  127 < m -> Wire.varint_head m = m mod 128 + 128.
Proof.
  intros Hm. unfold Wire.varint_head. rewrite gtb_true by lia.
  rewrite land_127.
  pose proof (Z.mod_pos_bound m 128 ltac:(lia)).
  change 128 with (1 * 2 ^ 7) at 2. rewrite lor_disjoint_add by lia. lia.
Qed.

Lemma varint_head_last (m : Z) : m <= 127 -> Wire.varint_head m = m.
Proof.
  intros Hm. unfold Wire.varint_head. rewrite gtb_false by lia. reflexivity.
Qed.

End EncoderFacts.

(* ===================================================================== *)
(** ** Properties of the writer and of the encoder's operations *)
(* ===================================================================== *)

Section WriterProperties.

Import BinaryWriter.

(** The loop of [endDelimited], one iteration at a time. *)
Lemma endDelimited_loop_step (messageLength : Z) (tmp : list Z) :
  endDelimited_loop messageLength tmp =
  if messageLength >? 127
  then endDelimited_loop (JS.ushr messageLength 7)
                         (tmp ++ [JS.or (JS.and messageLength 127) 128])
  else tmp.
Proof.
  rewrite (endDelimited_loop_equation_1 messageLength tmp).
  destruct (Z_gt_dec messageLength 127) as [H | H]; simpl;
    destruct (messageLength >? 127) eqn:E; try reflexivity; lia.
Qed.

(** Whatever the length, the loop of [endDelimited] collects continuation
    bytes only: the bytes it leaves in [tmp] never end a varint. *)
Lemma endDelimited_loop_continuation_only (messageLength : Z) :
  forall tmp,
    Forall (fun b => 128 <= b < 256) tmp ->
    Forall (fun b => 128 <= b < 256) (endDelimited_loop messageLength tmp).
Proof.
  destruct (Z.lt_ge_cases messageLength 0) as [Hneg | Hpos].
  { intros tmp Ht. rewrite endDelimited_loop_step, gtb_false by lia. exact Ht. }
  pattern messageLength. apply Zlt_0_ind; [| exact Hpos].
  clear messageLength Hpos. intros m IH Hm tmp Ht.
  rewrite endDelimited_loop_step.
  destruct (m >? 127) eqn:E; [| exact Ht].
  apply Z.gtb_lt in E.
  apply IH.
  - rewrite js_ushr7.
    pose proof (Z.mod_pos_bound m (2 ^ 32) ltac:(lia)).
    pose proof (Z.mod_le m (2 ^ 32) ltac:(lia) ltac:(lia)).
    split; [apply Z.div_pos; lia | apply Z.div_lt_upper_bound; lia].
  - apply Forall_app. split; [exact Ht |].
    constructor; [| constructor].
    rewrite js_continuation_byte.
    pose proof (Z.mod_pos_bound m 128 ltac:(lia)). lia.
Qed.

(** C1 (the code departs from the claim).  A delimited scope opened with
    [beginDelimited 2] around 128 payload bytes and closed with
    [endDelimited]: the bytes spliced at the bookmark are [[128]] alone, a
    single byte with the continuation bit set.  The complete varint of 128
    is [[128; 1]], which is what [UnsignedVarint32] emits; the final byte
    is never pushed by the loop of [endDelimited]. *)
Theorem endDelimited_omits_final_length_byte :
  (bookmark <- beginDelimited 2;;
   appendUint8Array (repeat 0 128);;
   endDelimited bookmark) []
  = Ok tt ([18] ++ [128] ++ repeat 0 128)
  /\ Wire.well_terminated [128] = false
  /\ BinaryEncoder.UnsignedVarint32 128 [] = [128; 1]
  /\ String 2 (repeat 97 128) [] = Ok tt ([18] ++ [128] ++ repeat 97 128).
Proof.
  repeat split; vm_compute; reflexivity.
Qed.

(** C2 (the code departs from the claim).  [Bytes] never touches the
    encoder's buffer: [push] is applied to the typed array it was given,
    with no item, and raises a [TypeError]. *)
Theorem Encoder_Bytes_appends_nothing (bytes buffer : list Z) :
  BinaryEncoder.Bytes bytes buffer = Throw TypeError buffer.
Proof.
  reflexivity.
Qed.

(** C4 (the code departs from the claim).  [Varint32] of [-1] appends six
    elements, the fifth being the number [-1], where the 64-bit [Varint]
    appends the ten octets of the sign extension. *)
Theorem Varint32_negative_appends_six :
  BinaryEncoder.Varint32 (-1) [] = [255; 255; 255; 255; -1; 1]
  /\ BinaryEncoder.Varint (-1) []
     = [255; 255; 255; 255; 255; 255; 255; 255; 255; 1]
  /\ BinaryEncoder.Varint32 (- 2 ^ 31) [] = [128; 128; 128; 128; -8; 1].
Proof.
  repeat split; vm_compute; reflexivity.
Qed.

(** C7 (the code departs from the claim).  [Sint64] on the out-of-range
    value [2 ^ 63] returns normally and writes nothing, where [Int64]
    throws. *)
Theorem Sint64_out_of_range_returns (field : Z) (buffer : list Z) :
  Sint64 field TWO_TO_63 buffer = Ok tt buffer
  /\ Int64 field TWO_TO_63 buffer = Throw OutOfRange buffer.
Proof.
  split; reflexivity.
Qed.

(** C10 (amended).  For a field number [field >= 1] and a legal wire type,
    [Tag] returns normally and appends a complete varint; its value is the
    sum [field * 8 + wireType], as the Number it is, reduced modulo
    [2 ^ 32]; that is [field * 8 + wireType] reduced modulo [2 ^ 32] as long
    as [field < 2 ^ 50]; the value differs from [field * 8 + wireType] when
    [field >= 2 ^ 29] and equals it when [field < 2 ^ 29]. *)
Theorem Tag_emits_tag_modulo_2_32 (field wireType : Z) (buffer : list Z) :
  1 <= field ->
  Wire.legal_wire_type wireType ->
  exists bs,
    Tag field wireType buffer = Ok tt (buffer ++ bs) /\
    Wire.well_terminated bs = true /\
    Wire.varint_value bs = JS.plus (field * 8) wireType mod 2 ^ 32 /\
    (field < 2 ^ 50 ->
     Wire.varint_value bs = (field * 8 + wireType) mod 2 ^ 32) /\
    (2 ^ 29 <= field -> Wire.varint_value bs <> field * 8 + wireType) /\
    (field < 2 ^ 29 -> Wire.varint_value bs = field * 8 + wireType).
Proof.
  intros Hf Hw.
  assert (Hw' : 0 <= wireType <= 5).
  { unfold Wire.legal_wire_type, WireType.VARINT, WireType.FIXED64,
      WireType.DELIMITED, WireType.FIXED32 in Hw. lia. }
  pose proof (plus_nonneg (field * 8) wireType ltac:(lia) ltac:(lia)) as Hx.
  destruct (UnsignedVarint32_wraps (JS.plus (field * 8) wireType) Hx buffer)
    as (bs & Hrun & Hwt & Hval).
  exists bs. split.
  - unfold Tag.
    replace (field >=? 1) with true by (symmetry; apply Z.geb_le; lia).
    unfold modify. rewrite Hrun. reflexivity.
  - split; [exact Hwt |]. split; [exact Hval |].
    pose proof (Z.mod_pos_bound (JS.plus (field * 8) wireType) (2 ^ 32)
                  ltac:(lia)) as Hm.
    rewrite Hval.
    split; [| split]; intros Hrange.
    + rewrite plus_exact by lia. reflexivity.
    + lia.
    + rewrite plus_exact by lia. apply Z.mod_small. lia.
Qed.

Lemma Tag_emits_tag_modulo_2_32_witness :
  exists bs,
    Tag (2 ^ 29) 2 [] = Ok tt ([] ++ bs) /\
    Wire.well_terminated bs = true /\
    Wire.varint_value bs = JS.plus (2 ^ 29 * 8) 2 mod 2 ^ 32 /\
    (2 ^ 29 < 2 ^ 50 ->
     Wire.varint_value bs = (2 ^ 29 * 8 + 2) mod 2 ^ 32) /\
    (2 ^ 29 <= 2 ^ 29 -> Wire.varint_value bs <> 2 ^ 29 * 8 + 2) /\
    (2 ^ 29 < 2 ^ 29 -> Wire.varint_value bs = 2 ^ 29 * 8 + 2).
Proof.
  apply (Tag_emits_tag_modulo_2_32 (2 ^ 29) 2 []).
  - lia.
  - right. right. left. reflexivity.
Defined.

(** C10, as stated, fails at field number [2 ^ 50] and wire type 1: the sum
    [2 ^ 53 + 1] is not a Number, the addition yields [2 ^ 53], and [Tag]
    appends the bytes 128, 0, a varint of value 0, where
    [2 ^ 53 + 1] reduced modulo [2 ^ 32] is 1. *)
Lemma Tag_rounds_the_sum :
  Tag (2 ^ 50) WireType.FIXED64 [] = Ok tt [128; 0]
  /\ Wire.varint_value [128; 0] = 0
  /\ (2 ^ 50 * 8 + WireType.FIXED64) mod 2 ^ 32 = 1
  /\ ~ Tag_reduces_every_tag_modulo_2_32.
Proof.
  assert (Hrun : Tag (2 ^ 50) WireType.FIXED64 [] = Ok tt [128; 0])
    by (vm_compute; reflexivity).
  split; [exact Hrun |].
  split; [vm_compute; reflexivity |].
  split; [vm_compute; reflexivity |].
  intros Hall.
  destruct (Hall (2 ^ 50) WireType.FIXED64 [] ltac:(lia)
              ltac:(right; left; reflexivity))
    as (bs & Hbs & _ & Hval & _).
  rewrite Hrun in Hbs. cbn [app] in Hbs.
  assert (Hbytes : bs = [128; 0]) by congruence.
  rewrite Hbytes in Hval. vm_compute in Hval. discriminate Hval.
Qed.

End WriterProperties.

(* ===================================================================== *)
(** ** Properties of the reader *)
(* ===================================================================== *)

Section ReaderProperties.

Import BinaryReader.

(** C3 (the code departs from the claim).  After the envelope
    [00 00 00 00 01], the tag byte [0x0C] (field 1, wire type [END_GROUP])
    is accepted: [NextField] returns [true] and stores wire type 4.  So are
    the wire types 6 and 7; only [START_GROUP] throws, because
    [START_GROUP || END_GROUP] is [START_GROUP]. *)
Theorem NextField_accepts_END_GROUP :
  (Header;; NextField) (new [0; 0; 0; 0; 1; 12])
  = Ok true (mk [0; 0; 0; 0; 1; 12] 6 6 (Some 1) (Some 4) (JS.Num 6))
  /\ (Header;; NextField) (new [0; 0; 0; 0; 1; 14])
     = Ok true (mk [0; 0; 0; 0; 1; 14] 6 6 (Some 1) (Some 6) (JS.Num 6))
  /\ (Header;; NextField) (new [0; 0; 0; 0; 1; 15])
     = Ok true (mk [0; 0; 0; 0; 1; 15] 6 6 (Some 1) (Some 7) (JS.Num 6))
  /\ (Header;; NextField) (new [0; 0; 0; 0; 1; 11])
     = Throw (InvalidWireType 3 6)
             (mk [0; 0; 0; 0; 1; 11] 6 6 None None (JS.Num 6))
  /\ JS.oror WireType.START_GROUP WireType.END_GROUP = WireType.START_GROUP.
Proof.
  repeat split; vm_compute; reflexivity.
Qed.

(** C5 (the code departs from the claim).  After the envelope and the tag
    [0x08] (field 1, [VARINT]) the cursor is at [end]; [Bool] then returns
    [false] without a bounds check and leaves the cursor at [end + 1]. *)
Theorem Bool_moves_cursor_past_end :
  exists r,
    (Header;; NextField;; Bool) (new [0; 0; 0; 0; 1; 8]) = Ok false r
    /\ cursor r = 7 /\ end_ r = 6 /\ cursor r > end_ r.
Proof.
  eexists. split; [vm_compute; reflexivity |].
  repeat split.
Qed.

(** *** The streaming envelope *)

Lemma shl8_int32 (a : Z) :
  JS.shl (JS.to_int32 a) 8 = JS.to_int32 (a * 256).
Proof.
  unfold JS.shl. change (8 mod 32) with 8.
  rewrite Z.shiftl_mul_pow2 by lia. apply to_int32_eqm.
  rewrite to_int32_idem. destruct (to_int32_congr a) as [q ->].
  replace ((a + q * 2 ^ 32) * 2 ^ 8) with (a * 256 + q * 2 ^ 8 * 2 ^ 32) by lia.
  apply Z.mod_add. lia.
Qed.

Lemma shl8_accumulate (x b : Z) :
  JS.shl (JS.to_int32 (JS.to_int32 x + b)) 8 = JS.to_int32 ((x + b) * 256).
Proof.
  rewrite shl8_int32. apply to_int32_eqm.
  destruct (to_int32_congr x) as [q ->].
  replace ((x + q * 2 ^ 32 + b) * 256)
    with ((x + b) * 256 + q * 256 * 2 ^ 32) by lia.
  apply Z.mod_add. lia.
Qed.

(** The number that the five iterations of the loop of [Header] compute
    from the bytes [b0 .. b4]: the top byte [b0] is shifted out. *)
Lemma Header_accumulator (b0 b1 b2 b3 b4 : Z) :
  Wire.octet b0 -> Wire.octet b1 -> Wire.octet b2 -> Wire.octet b3 ->
  JS.shl (JS.to_int32
    (JS.shl (JS.to_int32
      (JS.shl (JS.to_int32
        (JS.shl (JS.to_int32
          (JS.shl (JS.to_int32 0) 8 + b0)) 8 + b1)) 8 + b2)) 8 + b3)) 8 + b4
  = JS.to_int32 (Wire.big_endian4 b1 b2 b3 0) + b4.
Proof.
  unfold Wire.octet, Wire.big_endian4. intros H0 H1 H2 H3.
  change (JS.shl (JS.to_int32 0) 8) with 0. rewrite Z.add_0_l.
  rewrite (shl8_int32 b0).
  rewrite !shl8_accumulate. f_equal.
  apply to_int32_eqm.
  replace ((((b0 * 256 + b1) * 256 + b2) * 256 + b3) * 256)
    with (b1 * 2 ^ 24 + b2 * 2 ^ 16 + b3 * 2 ^ 8 + 0 + b0 * 2 ^ 32) by lia.
  apply Z.mod_add. lia.
Qed.

Lemma byte_at_set_cursor (r : t) (c i : Z) :
  byte_at (set_cursor c r) i = byte_at r i.
Proof. reflexivity. Qed.

(** One iteration of the loop of [Header] on a byte inside the input. *)
Lemma Header_loop_step (i : nat) (l b : Z) (r : t) :
  byte_at r (cursor r) = Some b ->
  cursor r + 1 <= end_ r ->
  Header_loop (S i) (JS.Num l) r
  = Header_loop i (JS.Num (JS.shl (JS.to_int32 l) 8 + b))
                (set_cursor (cursor r + 1) r).
Proof.
  intros Hb Hend.
  cbn [Header_loop]. unfold bind at 1. unfold get.
  rewrite Hb. cbn [JS.of_elem JS.int32_of JS.add].
  unfold bind at 1. unfold advance.
  cbn [cursor end_ set_cursor].
  rewrite gtb_false by lia. reflexivity.
Qed.

(** The loop of [Header] on five bytes inside the input. *)
Lemma Header_loop_five (r : t) (b0 b1 b2 b3 b4 : Z) :
  byte_at r (cursor r) = Some b0 ->
  byte_at r (cursor r + 1) = Some b1 ->
  byte_at r (cursor r + 2) = Some b2 ->
  byte_at r (cursor r + 3) = Some b3 ->
  byte_at r (cursor r + 4) = Some b4 ->
  Wire.octet b0 -> Wire.octet b1 -> Wire.octet b2 -> Wire.octet b3 ->
  cursor r + 5 <= end_ r ->
  Header_loop 5 (JS.Num 0) r
  = Ok (JS.Num (JS.to_int32 (Wire.big_endian4 b1 b2 b3 0) + b4))
       (set_cursor (cursor r + 5) r).
Proof.
  intros E0 E1 E2 E3 E4 O0 O1 O2 O3 Hend.
  rewrite (Header_loop_step 4 0 b0 r E0) by lia.
  rewrite (Header_loop_step 3 _ b1) by (cbn [cursor end_ set_cursor]; trivial; lia).
  rewrite (Header_loop_step 2 _ b2)
    by (cbn [cursor end_ set_cursor]; rewrite ?byte_at_set_cursor;
        replace (cursor r + 1 + 1) with (cursor r + 2) by lia; trivial; lia).
  rewrite (Header_loop_step 1 _ b3)
    by (cbn [cursor end_ set_cursor]; rewrite ?byte_at_set_cursor;
        replace (cursor r + 1 + 1 + 1) with (cursor r + 3) by lia; trivial; lia).
  rewrite (Header_loop_step 0 _ b4)
    by (cbn [cursor end_ set_cursor]; rewrite ?byte_at_set_cursor;
        replace (cursor r + 1 + 1 + 1 + 1) with (cursor r + 4) by lia;
        trivial; lia).
  cbn [Header_loop ret cursor end_ set_cursor bytes nextField nextWireType length].
  rewrite Header_accumulator by assumption.
  unfold ret, set_cursor. cbn [cursor end_ bytes nextField nextWireType length].
  do 2 f_equal. lia.
Qed.

(** At the end of the current message [NextField] returns [false] and
    reads nothing. *)
Lemma NextField_at_message_end (s : t) :
  length s = JS.Num (cursor s) -> NextField s = Ok false s.
Proof.
  intros Hs. unfold NextField. unfold bind at 1. unfold get.
  destruct (cursor s >=? end_ s); [reflexivity |].
  rewrite Hs. cbn [JS.eqb]. rewrite Z.eqb_refl. reflexivity.
Qed.

(** C6 (the code departs from the claim).  The loop of [Header] folds all
    five bytes into the length, but its fifth [l << 8] is a 32-bit shift
    and the top byte is lost.  On the envelope [01 00 00 00 03], whose five
    bytes have the value [2 ^ 32 + 3], [Header] parses the length 3 and
    adds 8 to [length]; on the envelope [01 00 00 00 00], of value
    [2 ^ 32], it parses 0 and returns [false]; on the envelope
    [00 80 00 00 01], of value [2 ^ 31 + 1], the same shift yields the
    negative length [1 - 2 ^ 31].  So [Header] does not parse the
    five-byte value. *)
Theorem Header_loses_the_top_byte :
  let r := new [1; 0; 0; 0; 3; 8; 150; 1] in
  let r0 := new [1; 0; 0; 0; 0] in
  let r1 := new [0; 128; 0; 0; 1; 8] in
  Wire.big_endian5 1 0 0 0 3 = 2 ^ 32 + 3
  /\ Header r = Ok true (set_length (JS.Num (3 + 5)) (set_cursor 5 r))
  /\ Wire.big_endian5 1 0 0 0 0 = 2 ^ 32
  /\ Header r0 = Ok false (set_cursor 5 r0)
  /\ Wire.big_endian5 0 128 0 0 1 = 2 ^ 31 + 1
  /\ Header r1
     = Ok true (set_length (JS.Num (1 - 2 ^ 31 + 5)) (set_cursor 5 r1))
  /\ ~ Header_parses_five_byte_length.
Proof.
  intros r r0 r1.
  do 6 (split; [vm_compute; reflexivity |]).
  intros H.
  specialize (H 1 0 0 0 3 [8; 150; 1]).
  unfold Wire.octet in H.
  specialize (H ltac:(lia) ltac:(lia) ltac:(lia) ltac:(lia) ltac:(lia)).
  vm_compute in H. discriminate H.
Qed.

(** *** Descent into a delimited payload *)

(** A run that ends normally went through the normal result of its first
    part. *)
Ltac through_binds H :=
  repeat match type of H with
         | match ?m with Ok _ _ => _ | Throw _ _ => _ end = Ok _ _ =>
             let E := fresh "E" in
             destruct m eqn:E; [| discriminate H]
         end.

(** C9.  Let [r] be a reader on a [DELIMITED] field whose length varint
    reads as [L], with [r1] the state just after that varint, [c] its
    cursor and [end0] the [end] of [r].  [Message] runs the nested
    deserializer on [r1] with [end] set to [c + L]; whenever that
    deserializer returns, whatever it consumed, [Message] returns with the
    cursor at [c + L] and [end] equal to [end0].  [Map] runs its reads of
    the entry on [r1] with [end] set to [c + L], and whenever they return,
    [Map] returns with the cursor at [c + L] and [end] equal to [end0]. *)
Theorem Message_Map_restore_end (r r1 : t) (L : Z) :
  wire_is r WireType.DELIMITED = true ->
  Varint32 r = Ok L r1 ->
  let c := cursor r1 in
  let end0 := end_ r in
  let inner := set_end (c + L) r1 in
  (forall message v r2,
      deserializeBinaryFromReader message inner = Ok v r2 ->
      exists r',
        Message message r = Ok tt r' /\ cursor r' = c + L /\ end_ r' = end0)
  /\ (forall message r',
         Message message r = Ok tt r' ->
         cursor r' = c + L /\ end_ r' = end0 /\
         exists v r2, deserializeBinaryFromReader message inner = Ok v r2)
  /\ (forall kFT vFT msg k v r2,
         (Varint32;; k <- Map_key kFT;; Varint32;;
          v <- Map_value vFT msg;; ret (k, v)) inner = Ok (k, v) r2 ->
         exists arr r',
           Map kFT vFT msg r = Ok arr r' /\
           cursor r' = c + L /\ end_ r' = end0)
  /\ (forall kFT vFT msg arr r',
         Map kFT vFT msg r = Ok arr r' ->
         cursor r' = c + L /\ end_ r' = end0 /\
         exists k v r2,
           (Varint32;; k <- Map_key kFT;; Varint32;;
            v <- Map_value vFT msg;; ret (k, v)) inner = Ok (k, v) r2).
Proof.
  intros Hw HV c end0 inner.
  assert (HM : forall message,
             Message message r =
             match deserializeBinaryFromReader message inner with
             | Ok _ r2 => Ok tt (set_end end0 (set_cursor (c + L) r2))
             | Throw e s => Throw e s
             end).
  { intros message. unfold Message, bind, get, modify, ret.
    rewrite Hw, HV. reflexivity. }
  assert (HP : forall kFT vFT msg,
             Map kFT vFT msg r =
             match (Varint32;; k <- Map_key kFT;; Varint32;;
                    v <- Map_value vFT msg;; ret (k, v)) inner with
             | Ok (k, v) r2 =>
                 Ok (k :: match v with Some v => [v] | None => [] end)
                    (set_cursor (c + L) (set_end end0 r2))
             | Throw e s => Throw e s
             end).
  { intros kFT vFT msg. unfold Map, bind, get, modify, ret.
    rewrite Hw, HV. subst inner c end0.
    destruct (Varint32 (set_end (cursor r1 + L) r1)) as [? s1 |];
      [| reflexivity].
    destruct (Map_key kFT s1) as [? s2 |]; [| reflexivity].
    destruct (Varint32 s2) as [? s3 |]; [| reflexivity].
    destruct (Map_value vFT msg s3) as [? s4 |]; reflexivity. }
  split; [| split; [| split]].
  - intros message v r2 Hd. rewrite HM, Hd. eexists. repeat split.
  - intros message r' H. rewrite HM in H. through_binds H.
    inversion H; subst r'. repeat split. eauto.
  - intros kFT vFT msg k v r2 Hb. rewrite HP, Hb. do 2 eexists. repeat split.
  - intros kFT vFT msg arr r' H. rewrite HP in H. through_binds H.
    destruct a as [k v]. inversion H; subst r'. repeat split. eauto.
Qed.

Lemma Message_Map_restore_end_witness :
  let r := mk [0; 0; 0; 0; 5; 10; 3; 8; 150; 1] 10 6 (Some 1) (Some 2)
              (JS.Num 10) in
  let r1 := set_cursor 7 r in
  let L := 3 in
  let c := cursor r1 in
  let end0 := end_ r in
  let inner := set_end (c + L) r1 in
  (forall message v r2,
      deserializeBinaryFromReader message inner = Ok v r2 ->
      exists r',
        Message message r = Ok tt r' /\ cursor r' = c + L /\ end_ r' = end0)
  /\ (forall message r',
         Message message r = Ok tt r' ->
         cursor r' = c + L /\ end_ r' = end0 /\
         exists v r2, deserializeBinaryFromReader message inner = Ok v r2)
  /\ (forall kFT vFT msg k v r2,
         (Varint32;; k <- Map_key kFT;; Varint32;;
          v <- Map_value vFT msg;; ret (k, v)) inner = Ok (k, v) r2 ->
         exists arr r',
           Map kFT vFT msg r = Ok arr r' /\
           cursor r' = c + L /\ end_ r' = end0)
  /\ (forall kFT vFT msg arr r',
         Map kFT vFT msg r = Ok arr r' ->
         cursor r' = c + L /\ end_ r' = end0 /\
         exists k v r2,
           (Varint32;; k <- Map_key kFT;; Varint32;;
            v <- Map_value vFT msg;; ret (k, v)) inner = Ok (k, v) r2).
Proof.
  intros r r1 L.
  apply (Message_Map_restore_end r r1 L); reflexivity.
Defined.

(** A nested deserializer that reads nothing of a three-byte payload: the
    cursor still ends past the payload, and [end] is back. *)
Example Message_skips_unread_payload :
  (Header;; NextField;; Message {| deserializeBinaryFromReader := ret VUndefined |})
    (new [0; 0; 0; 0; 5; 10; 3; 8; 150; 1])
  = Ok tt (mk [0; 0; 0; 0; 5; 10; 3; 8; 150; 1] 10 10 (Some 1) (Some 2)
              (JS.Num 10)).
Proof. vm_compute. reflexivity. Qed.

(** A map entry declared with seven bytes of which five are read: the
    cursor still ends past the seven bytes, and [end] is back. *)
Example Map_skips_unread_payload :
  (Header;; NextField;; Map STRING INT32 None)
    (new [0; 0; 0; 0; 9; 10; 7; 10; 1; 97; 16; 7; 0; 0])
  = Ok [VString [97]; VNumber 7]
       (mk [0; 0; 0; 0; 9; 10; 7; 10; 1; 97; 16; 7; 0; 0] 14 14 (Some 1)
           (Some 2) (JS.Num 14)).
Proof. vm_compute. reflexivity. Qed.

(** *** Decoding a 64-bit varint *)

Lemma advance_in_bounds (count : Z) (r : t) :
  cursor r + count <= end_ r ->
  advance count r = Ok tt (set_cursor (cursor r + count) r).
Proof.
  intros H. unfold advance. cbn [cursor end_ set_cursor].
  rewrite gtb_false by lia. reflexivity.
Qed.

Lemma mod_pow2_split (n a : Z) :
  0 <= a ->
  n mod 2 ^ (a + 7) = n mod 2 ^ a + (n / 2 ^ a) mod 128 * 2 ^ a.
Proof.
  intros Ha. rewrite Z.pow_add_r by lia.
  assert (0 < 2 ^ a) by (apply Z.pow_pos_nonneg; lia).
  rewrite Z.rem_mul_r by lia. change (2 ^ 7) with 128. lia.
Qed.

(** One unrolled step of [Varint] on the byte of index [k] of the varint
    of [n], the accumulator holding the low [7 k] bits of [n]. *)
Lemma Varint_step_spec (s : bool) (k n : Z) (rest : Z -> M t Z) (r : t) :
  0 < k -> 0 <= n ->
  byte_at r (cursor r + k) = Some (Wire.varint_head (Z.shiftr n (7 * k))) ->
  Varint_step s k (n mod 2 ^ (7 * k)) rest r =
  if Z.shiftr n (7 * k) >? 127
  then rest (n mod 2 ^ (7 * k + 7)) r
  else (advance (k + 1);; ret (sign n s)) r.
Proof.
  intros Hk Hn Hb.
  unfold Varint_step. unfold bind at 1. unfold get.
  unfold bind at 1. unfold big_byte_at. rewrite Hb.
  assert (Hp : 0 < 2 ^ (7 * k)) by (apply Z.pow_pos_nonneg; lia).
  pose proof (Z.mod_pos_bound n (2 ^ (7 * k)) Hp) as Hm.
  assert (Hs : 0 <= Z.shiftr n (7 * k)) by (apply Z.shiftr_nonneg; lia).
  rewrite !Z.shiftl_mul_pow2 by lia.
  destruct (Z.shiftr n (7 * k) >? 127) eqn:E.
  - apply Z.gtb_lt in E.
    rewrite varint_head_continue by lia.
    pose proof (Z.mod_pos_bound (Z.shiftr n (7 * k)) 128 ltac:(lia)).
    rewrite ltb_false by lia.
    rewrite lor_disjoint_add by lia.
    f_equal. rewrite mod_pow2_split by lia.
    rewrite Z.shiftr_div_pow2 by lia. lia.
  - assert (Hle : Z.shiftr n (7 * k) <= 127).
    { rewrite Z.gtb_ltb in E. apply Z.ltb_ge in E. lia. }
    rewrite varint_head_last by lia.
    rewrite ltb_true by lia.
    rewrite lor_disjoint_add by lia.
    rewrite Z.shiftr_div_pow2 by lia.
    replace (n mod 2 ^ (7 * k) + n / 2 ^ (7 * k) * 2 ^ (7 * k)) with n
      by (pose proof (Z.div_mod n (2 ^ (7 * k)) ltac:(lia)); lia).
    reflexivity.
Qed.

(** The last step of [Varint] on the tenth byte of the varint of a 64-bit
    [n]. *)
Lemma Varint_last_spec (s : bool) (n : Z) (r : t) :
  0 <= n < 2 ^ 64 ->
  byte_at r (cursor r + 9) = Some (Wire.varint_head (Z.shiftr n 63)) ->
  Varint_last s (n mod 2 ^ 63) r = (advance 10;; ret (sign n s)) r.
Proof.
  intros Hn Hb.
  unfold Varint_last. unfold bind at 1. unfold get.
  unfold bind at 1. unfold big_byte_at. rewrite Hb.
  assert (Hs : 0 <= Z.shiftr n 63 < 2).
  { rewrite Z.shiftr_div_pow2 by lia.
    split; [apply Z.div_pos; lia | apply Z.div_lt_upper_bound; lia]. }
  rewrite varint_head_last by lia.
  rewrite ltb_true by lia.
  rewrite Z.shiftl_mul_pow2 by lia.
  pose proof (Z.mod_pos_bound n (2 ^ 63) ltac:(lia)).
  rewrite lor_disjoint_add by lia.
  rewrite Z.shiftr_div_pow2 by lia.
  replace (n mod 2 ^ 63 + n / 2 ^ 63 * 2 ^ 63) with n
    by (pose proof (Z.div_mod n (2 ^ 63) ltac:(lia)); lia).
  reflexivity.
Qed.

(** *** Round trip of the unsigned 64-bit varint *)

Section RoundTrip.

Variable n : Z.
Variable buffer : list Z.
Hypothesis n_range : 0 <= n < 2 ^ 64.

(** The bytes of the encoder after [UnsignedVarint n], handed to a
    reader placed where the varint starts. *)
Let enc : list Z := BinaryEncoder.UnsignedVarint n [].
Let r : t :=
  set_cursor (BinaryEncoder.Length buffer)
             (new (BinaryEncoder.UnsignedVarint n buffer)).

Lemma roundtrip_end :
  end_ r = cursor r + Z.of_nat (List.length enc).
Proof.
  unfold r, new. cbn [end_ cursor set_cursor].
  rewrite UnsignedVarint_app, length_app.
  unfold BinaryEncoder.Length, enc. lia.
Qed.

Lemma roundtrip_byte (j : nat) :
  byte_at r (cursor r + Z.of_nat j) = nth_error enc j.
Proof.
  unfold byte_at, r, new. cbn [bytes cursor set_cursor].
  unfold BinaryEncoder.Length.
  rewrite ltb_false by lia.
  rewrite UnsignedVarint_app.
  rewrite nth_error_app2 by lia.
  f_equal. lia.
Qed.

(** The byte of index [j], when the bytes before it are continuation
    bytes. *)
Lemma roundtrip_head (j : nat) :
  (forall i, (i < j)%nat -> Z.shiftr n (7 * Z.of_nat i) > 127) ->
  byte_at r (cursor r + Z.of_nat j)
  = Some (Wire.varint_head (Z.shiftr n (7 * Z.of_nat j))).
Proof.
  intros Hc. rewrite roundtrip_byte. apply UnsignedVarint_nth. exact Hc.
Qed.

(** The return of [Varint] after [j + 1] bytes. *)
Lemma roundtrip_return (j : nat) :
  (forall i, (i < j)%nat -> Z.shiftr n (7 * Z.of_nat i) > 127) ->
  Z.shiftr n (7 * Z.of_nat j) <= 127 ->
  (advance (Z.of_nat j + 1);; ret (sign n false)) r
  = Ok n (set_cursor (end_ r) r).
Proof.
  intros Hc Hlast.
  pose proof (UnsignedVarint_length j n Hc Hlast) as Hlen.
  fold enc in Hlen.
  unfold bind. rewrite advance_in_bounds by (rewrite roundtrip_end; lia).
  unfold ret, sign, JS.asUintN64. rewrite Z.mod_small by lia.
  rewrite roundtrip_end, Hlen. do 2 f_equal. lia.
Qed.

End RoundTrip.

(** The bytes of an unsigned varint are octets. *)
Lemma UnsignedVarint_octets (n : Z) :
  0 <= n -> Forall Wire.octet (BinaryEncoder.UnsignedVarint n []).
Proof.
  intros Hn. pattern n. apply Zlt_0_ind; [| exact Hn].
  clear n Hn. intros n IH Hn.
  rewrite UnsignedVarint_cons.
  destruct (n >? 127) eqn:E.
  - apply Z.gtb_lt in E. constructor.
    + rewrite varint_head_continue by lia. unfold Wire.octet.
      pose proof (Z.mod_pos_bound n 128 ltac:(lia)). lia.
    + apply IH. rewrite Z.shiftr_div_pow2 by lia.
      split; [apply Z.div_pos; lia | apply Z.div_lt_upper_bound; lia].
  - rewrite Z.gtb_ltb in E. apply Z.ltb_ge in E.
    constructor; [| constructor].
    rewrite varint_head_last by lia. unfold Wire.octet. lia.
Qed.

(** The bytes before position [j] are continuation bytes: discharged from
    the comparisons met so far. *)
Ltac earlier_bytes :=
  let i := fresh "i" in
  let Hi := fresh "Hi" in
  intros i Hi;
  do 10 (destruct i as [| i]; [first [assumption | exfalso; lia] |]);
  exfalso; lia.

(** C8.  For every [n] in [[0, 2 ^ 64)], the bytes that the encoder's
    [UnsignedVarint] appends for [n] are octets, and the reader's [Varint]
    in unsigned mode, placed on them, returns [n] with the cursor just
    past them. *)
Theorem UnsignedVarint_Varint_roundtrip (n : Z) (buffer : list Z) :
  0 <= n < 2 ^ 64 ->
  let encoded := BinaryEncoder.UnsignedVarint n buffer in
  let r := set_cursor (BinaryEncoder.Length buffer) (new encoded) in
  Forall Wire.octet (BinaryEncoder.UnsignedVarint n [])
  /\ encoded = buffer ++ BinaryEncoder.UnsignedVarint n []
  /\ Varint false r
     = Ok n (set_cursor (BinaryEncoder.Length encoded) (new encoded)).
Proof.
  intros Hn encoded r.
  split; [apply UnsignedVarint_octets; lia |].
  split; [apply UnsignedVarint_app |].
  change (set_cursor (BinaryEncoder.Length encoded) (new encoded))
    with (set_cursor (end_ r) r).
  pose proof (roundtrip_head n buffer) as Hhead.
  pose proof (roundtrip_return n buffer Hn) as Hret.
  fold encoded in Hhead, Hret. fold r in Hhead, Hret.
  unfold Varint. unfold bind at 1. unfold get.
  unfold bind at 1. unfold big_byte_at.
  pose proof (Hhead 0%nat ltac:(intros; lia)) as H0.
  cbn [Z.of_nat] in H0. rewrite Z.add_0_r in H0.
  change (7 * 0) with 0 in H0. rewrite Z.shiftr_0_r in H0. rewrite H0.
  destruct (Z_le_gt_dec n 127) as [L0 | E0].
  { rewrite varint_head_last by lia. rewrite ltb_true by lia.
    apply (Hret 0%nat); [intros; lia | exact L0]. }
  rewrite varint_head_continue by lia.
  pose proof (Z.mod_pos_bound n 128 ltac:(lia)).
  rewrite ltb_false by lia.
  replace (n mod 128 + 128 - 128) with (n mod 2 ^ (7 * 1))
    by (change (2 ^ (7 * 1)) with 128; lia).
  assert (E0' : Z.shiftr n (7 * Z.of_nat 0) > 127) by exact E0.
  rewrite (Varint_step_spec false 1 n)
    by (try lia; apply (Hhead 1%nat); earlier_bytes).
  destruct (Z.shiftr n (7 * 1) >? 127) eqn:E1;
    [apply Z.gtb_lt, Z.lt_gt in E1
    | apply gtb_le_127 in E1; apply (Hret 1%nat); [earlier_bytes | exact E1]].
  rewrite (Varint_step_spec false 2 n)
    by (try lia; apply (Hhead 2%nat); earlier_bytes).
  destruct (Z.shiftr n (7 * 2) >? 127) eqn:E2;
    [apply Z.gtb_lt, Z.lt_gt in E2
    | apply gtb_le_127 in E2; apply (Hret 2%nat); [earlier_bytes | exact E2]].
  rewrite (Varint_step_spec false 3 n)
    by (try lia; apply (Hhead 3%nat); earlier_bytes).
  destruct (Z.shiftr n (7 * 3) >? 127) eqn:E3;
    [apply Z.gtb_lt, Z.lt_gt in E3
    | apply gtb_le_127 in E3; apply (Hret 3%nat); [earlier_bytes | exact E3]].
  rewrite (Varint_step_spec false 4 n)
    by (try lia; apply (Hhead 4%nat); earlier_bytes).
  destruct (Z.shiftr n (7 * 4) >? 127) eqn:E4;
    [apply Z.gtb_lt, Z.lt_gt in E4
    | apply gtb_le_127 in E4; apply (Hret 4%nat); [earlier_bytes | exact E4]].
  rewrite (Varint_step_spec false 5 n)
    by (try lia; apply (Hhead 5%nat); earlier_bytes).
  destruct (Z.shiftr n (7 * 5) >? 127) eqn:E5;
    [apply Z.gtb_lt, Z.lt_gt in E5
    | apply gtb_le_127 in E5; apply (Hret 5%nat); [earlier_bytes | exact E5]].
  rewrite (Varint_step_spec false 6 n)
    by (try lia; apply (Hhead 6%nat); earlier_bytes).
  destruct (Z.shiftr n (7 * 6) >? 127) eqn:E6;
    [apply Z.gtb_lt, Z.lt_gt in E6
    | apply gtb_le_127 in E6; apply (Hret 6%nat); [earlier_bytes | exact E6]].
  rewrite (Varint_step_spec false 7 n)
    by (try lia; apply (Hhead 7%nat); earlier_bytes).
  destruct (Z.shiftr n (7 * 7) >? 127) eqn:E7;
    [apply Z.gtb_lt, Z.lt_gt in E7
    | apply gtb_le_127 in E7; apply (Hret 7%nat); [earlier_bytes | exact E7]].
  rewrite (Varint_step_spec false 8 n)
    by (try lia; apply (Hhead 8%nat); earlier_bytes).
  destruct (Z.shiftr n (7 * 8) >? 127) eqn:E8;
    [apply Z.gtb_lt, Z.lt_gt in E8
    | apply gtb_le_127 in E8; apply (Hret 8%nat); [earlier_bytes | exact E8]].
  rewrite (Varint_last_spec false n)
    by (try lia; apply (Hhead 9%nat); earlier_bytes).
  apply (Hret 9%nat); [earlier_bytes |].
  change (7 * Z.of_nat 9) with 63.
  rewrite Z.shiftr_div_pow2 by lia.
  assert (n / 2 ^ 63 < 2) by (apply Z.div_lt_upper_bound; lia). lia.
Qed.

Lemma UnsignedVarint_Varint_roundtrip_witness :
  let encoded := BinaryEncoder.UnsignedVarint 300 [8] in
  let r := set_cursor (BinaryEncoder.Length [8]) (new encoded) in
  Forall Wire.octet (BinaryEncoder.UnsignedVarint 300 [])
  /\ encoded = [8] ++ BinaryEncoder.UnsignedVarint 300 []
  /\ Varint false r
     = Ok 300 (set_cursor (BinaryEncoder.Length encoded) (new encoded)).
Proof.
  apply (UnsignedVarint_Varint_roundtrip 300 [8]). lia.
Defined.

End ReaderProperties.

(* ===================================================================== *)
(** ** More arithmetic of the JavaScript operators *)
(* ===================================================================== *)

Section JSMoreFacts.

Lemma to_uint32_small (x : Z) : 0 <= x < 2 ^ 32 -> JS.to_uint32 x = x.
Proof. intros H. unfold JS.to_uint32. apply Z.mod_small. lia. Qed.

(** [ToUint32] of an int32 that stands for the unsigned [x]. *)
Lemma to_uint32_to_int32 (x : Z) : JS.to_uint32 (JS.to_int32 x) = x mod 2 ^ 32.
Proof. unfold JS.to_uint32. apply (to_int32_mod x 32). lia. Qed.

(** [b & mask] for a mask of [k] low bits. *)
Lemma js_and_ones (b k : Z) :
  0 <= k <= 31 -> JS.and b (Z.ones k) = b mod 2 ^ k.
Proof.
  intros Hk. unfold JS.and.
  assert (Ho : 0 <= Z.ones k < 2 ^ 31).
  { rewrite Z.ones_equiv.
    assert (0 < 2 ^ k) by (apply Z.pow_pos_nonneg; lia).
    assert (2 ^ k <= 2 ^ 31) by (apply Z.pow_le_mono_r; lia). lia. }
  rewrite (to_int32_small (Z.ones k)) by lia.
  rewrite Z.land_ones by lia. apply to_int32_mod. lia.
Qed.

Lemma elem_and_ones (b k : Z) :
  0 <= k <= 31 -> JS.elem_and (Some b) (Z.ones k) = b mod 2 ^ k.
Proof.
  intros Hk. unfold JS.elem_and. cbn [JS.of_elem JS.int32_of].
  rewrite js_and_ones by lia. apply to_int32_mod. lia.
Qed.

(** [a << k] without overflow. *)
Lemma js_shl_exact (a k : Z) :
  0 <= k < 32 -> - 2 ^ 31 <= a < 2 ^ 31 -> - 2 ^ 31 <= a * 2 ^ k < 2 ^ 31 ->
  JS.shl a k = a * 2 ^ k.
Proof.
  intros Hk Ha Hr. unfold JS.shl.
  rewrite (Z.mod_small k 32) by lia.
  rewrite (to_int32_small a) by lia.
  rewrite Z.shiftl_mul_pow2 by lia. apply to_int32_small. lia.
Qed.

(** [a << k] in general: the product, wrapped to an int32. *)
Lemma js_shl_wrap (a k : Z) :
  0 <= k < 32 -> JS.shl a k = JS.to_int32 (a * 2 ^ k).
Proof.
  intros Hk. unfold JS.shl.
  rewrite (Z.mod_small k 32) by lia.
  rewrite Z.shiftl_mul_pow2 by lia. apply to_int32_eqm.
  destruct (to_int32_congr a) as [q ->].
  replace ((a + q * 2 ^ 32) * 2 ^ k) with (a * 2 ^ k + q * 2 ^ k * 2 ^ 32) by lia.
  apply Z.mod_add. lia.
Qed.

(** [x | (p << k)] when [x] has [k] bits and the result fits an int32. *)
Lemma js_or_shl (x p k : Z) :
  0 <= k < 32 -> 0 <= x < 2 ^ k -> 0 <= p -> x + p * 2 ^ k < 2 ^ 31 ->
  p < 2 ^ 31 ->
  JS.or x (JS.shl p k) = x + p * 2 ^ k.
Proof.
  intros Hk Hx Hp Hr Hp'.
  assert (0 < 2 ^ k) by (apply Z.pow_pos_nonneg; lia).
  assert (0 <= p * 2 ^ k) by (apply Z.mul_nonneg_nonneg; lia).
  rewrite js_shl_exact by lia.
  unfold JS.or. rewrite !to_int32_small by lia.
  apply lor_disjoint_add; lia.
Qed.

(** [ToInt32] is the representative of its argument modulo [2 ^ 32] in the
    int32 range. *)
Lemma to_int32_unique (y z q : Z) :
  - 2 ^ 31 <= z < 2 ^ 31 -> z = y + q * 2 ^ 32 -> JS.to_int32 y = z.
Proof.
  intros Hz Heq. rewrite <- (to_int32_small z) by lia.
  apply to_int32_eqm. rewrite Heq. symmetry. apply Z.mod_add. lia.
Qed.

(** [x | (c << 28)]: the int32 that stands for [x + c * 2 ^ 28]. *)
Lemma js_or_shl28 (x c : Z) :
  0 <= x < 2 ^ 28 -> 0 <= c < 16 ->
  JS.or x (JS.shl c 28) = JS.to_int32 (x + c * 2 ^ 28).
Proof.
  intros Hx Hc. rewrite js_shl_wrap by lia.
  unfold JS.or. rewrite to_int32_idem, (to_int32_small x) by lia.
  pose proof (to_int32_range (c * 2 ^ 28)) as Hr.
  destruct (to_int32_congr (c * 2 ^ 28)) as [q Hq]. rewrite Hq in *.
  replace (c * 2 ^ 28 + q * 2 ^ 32) with ((c + q * 16) * 2 ^ 28) in * by lia.
  rewrite lor_disjoint_add by lia.
  symmetry. apply to_int32_unique with (q := q); lia.
Qed.

End JSMoreFacts.

(* ===================================================================== *)
(** ** Bytes at the cursor of a reader *)
(* ===================================================================== *)

Section ReaderInput.

Import BinaryReader.

Lemma holds_byte (r : t) (e : list Z) (j : nat) :
  holds r e -> (j < List.length e)%nat ->
  byte_at r (cursor r + Z.of_nat j) = nth_error e j.
Proof.
  intros [H0 H] Hj. unfold byte_at. rewrite ltb_false by lia.
  replace (Z.to_nat (cursor r + Z.of_nat j))
    with (Z.to_nat (cursor r) + j)%nat by lia.
  rewrite <- nth_error_skipn.
  transitivity (nth_error
                  (firstn (List.length e)
                          (skipn (Z.to_nat (cursor r)) (bytes r))) j).
  - rewrite nth_error_firstn.
    destruct (Nat.ltb_spec j (List.length e)); [reflexivity | lia].
  - rewrite H. reflexivity.
Qed.

Lemma holds_app_l (r : t) (e rest : list Z) :
  holds r (e ++ rest) -> holds r e.
Proof.
  intros [H0 H]. split; [exact H0 |].
  rewrite length_app in H.
  replace (List.length e)
    with (Nat.min (List.length e) (List.length e + List.length rest)) at 1 by lia.
  rewrite <- firstn_firstn, H.
  rewrite firstn_app, Nat.sub_diag, firstn_all. cbn. apply app_nil_r.
Qed.

Lemma holds_nth (r : t) (e rest : list Z) (j : nat) (b : Z) :
  holds r (e ++ rest) -> nth_error e j = Some b ->
  byte_at r (cursor r + Z.of_nat j) = Some b.
Proof.
  intros H Hn.
  assert (Hj : (j < List.length e)%nat) by (apply nth_error_Some; congruence).
  rewrite (holds_byte r e j (holds_app_l r e rest H) Hj). exact Hn.
Qed.

Lemma holds_head (r : t) (b : Z) (e : list Z) :
  holds r (b :: e) -> byte_at r (cursor r) = Some b.
Proof.
  intros H. pose proof (holds_byte r (b :: e) 0 H ltac:(cbn; lia)) as H0.
  cbn in H0. rewrite Z.add_0_r in H0. exact H0.
Qed.

(** Moving the cursor past [e] leaves the reader on what follows. *)
Lemma holds_skip (r : t) (e rest : list Z) :
  holds r (e ++ rest) ->
  holds (set_cursor (cursor r + Z.of_nat (List.length e)) r) rest.
Proof.
  intros [H0 H]. split; [cbn [cursor set_cursor]; lia |].
  cbn [cursor set_cursor bytes].
  replace (Z.to_nat (cursor r + Z.of_nat (List.length e)))
    with (List.length e + Z.to_nat (cursor r))%nat by lia.
  rewrite <- skipn_skipn, firstn_skipn_comm.
  rewrite length_app in H. rewrite H.
  rewrite skipn_app, Nat.sub_diag, skipn_all. reflexivity.
Qed.

(** The fields other than [bytes] and [cursor] play no part. *)
Lemma holds_same_input (r r' : t) (e : list Z) :
  bytes r' = bytes r -> cursor r' = cursor r -> holds r e -> holds r' e.
Proof.
  intros Hb Hc [H0 H]. unfold holds. rewrite Hb, Hc. split; assumption.
Qed.

(** A fresh reader placed after a prefix of its input holds the rest. *)
Lemma holds_new (pre e : list Z) :
  holds (set_cursor (Z.of_nat (List.length pre)) (new (pre ++ e))) e.
Proof.
  split; [cbn [cursor set_cursor]; lia |].
  cbn [cursor set_cursor bytes new]. rewrite Nat2Z.id.
  rewrite skipn_app, Nat.sub_diag, skipn_all. cbn [skipn app].
  apply firstn_all.
Qed.

End ReaderInput.

(* ===================================================================== *)
(** ** Reading back what the encoder wrote: 32-bit varints *)
(* ===================================================================== *)

Section Varint32RoundTrip.

Import BinaryReader.

(** On a 32-bit unsigned value the number loop and the [bigint] loop emit
    the same bytes. *)
Lemma UnsignedVarint32_as_bigint (v : Z) :
  0 <= v < 2 ^ 32 ->
  forall buffer,
    BinaryEncoder.UnsignedVarint32 v buffer = BinaryEncoder.UnsignedVarint v buffer.
Proof.
  intros [Hlo Hhi]. revert Hhi. pattern v. apply Zlt_0_ind; [| exact Hlo].
  clear v Hlo. intros v IH Hv Hhi buffer.
  rewrite UnsignedVarint32_step, UnsignedVarint_step.
  destruct (v >? 127) eqn:E; [| reflexivity].
  apply Z.gtb_lt in E.
  rewrite js_continuation_byte, js_ushr7, Z.mod_small by lia.
  rewrite land_127.
  pose proof (Z.mod_pos_bound v 128 ltac:(lia)).
  replace (Z.lor (v mod 128) 128) with (v mod 128 + 128)
    by (change 128 with (1 * 2 ^ 7) at 4; rewrite lor_disjoint_add; lia).
  rewrite Z.shiftr_div_pow2 by lia. change (2 ^ 7) with 128.
  apply IH.
  - split; [apply Z.div_pos; lia | apply Z.div_lt_upper_bound; lia].
  - apply Z.div_lt_upper_bound; lia.
Qed.

Lemma varint_head_payload (m : Z) :
  0 <= m -> Wire.varint_head m mod 128 = m mod 128.
Proof.
  intros Hm. destruct (Z_le_gt_dec m 127).
  - rewrite varint_head_last by lia. reflexivity.
  - rewrite varint_head_continue by lia. apply continuation_payload.
Qed.

Lemma varint_head_octet (m : Z) : 0 <= m -> Wire.octet (Wire.varint_head m).
Proof.
  intros Hm. unfold Wire.octet. destruct (Z_le_gt_dec m 127).
  - rewrite varint_head_last by lia. lia.
  - rewrite varint_head_continue by lia.
    pose proof (Z.mod_pos_bound m 128 ltac:(lia)). lia.
Qed.

Lemma elem_and_127 (b : Z) : JS.elem_and (Some b) 127 = b mod 128.
Proof. apply (elem_and_ones b 7). lia. Qed.

Lemma elem_and_15 (b : Z) : JS.elem_and (Some b) 15 = b mod 16.
Proof. apply (elem_and_ones b 4). lia. Qed.

Section Decode.

Variable r : t.
Variable n : Z.
Variable rest : list Z.
Hypothesis n_range : 0 <= n < 2 ^ 32.
Hypothesis input : holds r (BinaryEncoder.UnsignedVarint n [] ++ rest).
Hypothesis in_bounds :
  cursor r + Z.of_nat (List.length (BinaryEncoder.UnsignedVarint n [])) <= end_ r.

Lemma decode_head (j : nat) :
  (forall i, (i < j)%nat -> Z.shiftr n (7 * Z.of_nat i) > 127) ->
  byte_at r (cursor r + Z.of_nat j)
  = Some (Wire.varint_head (Z.shiftr n (7 * Z.of_nat j))).
Proof.
  intros Hc. apply (holds_nth r (BinaryEncoder.UnsignedVarint n []) rest);
    [exact input |].
  apply UnsignedVarint_nth. exact Hc.
Qed.

Lemma decode_advance (j : nat) (x : Z) :
  (forall i, (i < j)%nat -> Z.shiftr n (7 * Z.of_nat i) > 127) ->
  Z.shiftr n (7 * Z.of_nat j) <= 127 ->
  x = n ->
  (advance (Z.of_nat j + 1);; ret x) r
  = Ok n (set_cursor
            (cursor r + Z.of_nat (List.length (BinaryEncoder.UnsignedVarint n [])))
            r).
Proof.
  intros Hc Hlast ->.
  pose proof (UnsignedVarint_length j n Hc Hlast) as Hlen.
  pose proof in_bounds as Hb. rewrite Hlen in Hb |- *.
  unfold bind. rewrite advance_in_bounds by lia.
  unfold ret. do 2 f_equal. lia.
Qed.

End Decode.

End Varint32RoundTrip.

(* ===================================================================== *)
(** ** Proof tools for the round trips *)
(* ===================================================================== *)

(** The bytes before position [j] of a varint are continuation bytes:
    discharged from the comparisons met so far. *)
Ltac bytes_before :=
  let i := fresh "i" in
  let Hi := fresh "Hi" in
  intros i Hi;
  do 10 (destruct i as [| i]; [first [assumption | exfalso; lia] |]);
  exfalso; lia.

(** Side conditions on concrete inputs, by evaluation. *)
Ltac computed :=
  first
    [ reflexivity
    | lia
    | apply Z.leb_le; vm_compute; reflexivity
    | apply Z.ltb_lt; vm_compute; reflexivity
    | split; [apply Z.leb_le; vm_compute; reflexivity | vm_compute; reflexivity]
    | unfold continuation, Wire.octet; lia
    | repeat constructor; unfold continuation, Wire.octet; lia
    | vm_compute; reflexivity ].

Section Varint32Decode.
Import BinaryReader.

Lemma shiftr_7s (n : Z) :
  0 <= n ->
  Z.shiftr n 7 = n / 128 /\
  Z.shiftr n 14 = n / 128 / 128 /\
  Z.shiftr n 21 = n / 128 / 128 / 128 /\
  Z.shiftr n 28 = n / 128 / 128 / 128 / 128.
Proof.
  intros Hn. rewrite !Z.shiftr_div_pow2 by lia.
  rewrite !Z.div_div by lia. repeat split; reflexivity.
Qed.


Lemma Varint32_on_UnsignedVarint32 (r : t) (n : Z) (rest : list Z) :
  0 <= n < 2 ^ 32 ->
  holds r (BinaryEncoder.UnsignedVarint32 n [] ++ rest) ->
  cursor r + Z.of_nat (List.length (BinaryEncoder.UnsignedVarint32 n [])) <= end_ r ->
  Varint32 r
  = Ok n (set_cursor
            (cursor r + Z.of_nat (List.length (BinaryEncoder.UnsignedVarint32 n [])))
            r).
Proof.
  intros Hn. rewrite UnsignedVarint32_as_bigint by exact Hn. intros Hin Hb.
  pose proof (decode_head r n rest Hin) as Hhead.
  pose proof (decode_advance r n Hb) as Hret.
  destruct (shiftr_7s n ltac:(lia)) as (S1 & S2 & S3 & S4).
  assert (B1 : 0 <= n / 128) by (apply Z.div_pos; lia).
  assert (B2 : 0 <= n / 128 / 128) by (apply Z.div_pos; lia).
  assert (B3 : 0 <= n / 128 / 128 / 128) by (apply Z.div_pos; lia).
  assert (B4 : 0 <= n / 128 / 128 / 128 / 128 < 16)
    by (Z.div_mod_to_equations; lia).
  unfold Varint32. unfold bind at 1. unfold get.
  (* first byte *)
  pose proof (Hhead 0%nat ltac:(intros; lia)) as H0.
  cbn [Z.of_nat] in H0. rewrite Z.add_0_r in H0.
  change (7 * 0) with 0 in H0. rewrite Z.shiftr_0_r in H0. rewrite H0.
  rewrite elem_and_127. cbn [JS.elem_lt].
  rewrite varint_head_payload by lia.
  destruct (Z_le_gt_dec n 127) as [L0 | E0].
  { rewrite varint_head_last by lia. rewrite ltb_true by lia.
    apply (Hret 0%nat); [intros; lia | exact L0 |].
    apply Z.mod_small. lia. }
  rewrite varint_head_continue by lia.
  rewrite ltb_false by (pose proof (Z.mod_pos_bound n 128 ltac:(lia)); lia).
  assert (C0 : Z.shiftr n (7 * Z.of_nat 0) > 127) by exact E0.
  (* second byte *)
  pose proof (Hhead 1%nat ltac:(bytes_before)) as H1.
  change (Z.of_nat 1) with 1 in H1. change (7 * 1) with 7 in H1.
  rewrite S1 in H1.
  rewrite H1, elem_and_127. cbn [JS.elem_lt].
  rewrite varint_head_payload by lia.
  rewrite (js_or_shl (n mod 128) (n / 128 mod 128) 7)
    by (Z.div_mod_to_equations; lia).
  destruct (Z_le_gt_dec (n / 128) 127) as [L1 | E1].
  { rewrite varint_head_last by lia. rewrite ltb_true by lia.
    apply (Hret 1%nat);
      [bytes_before | change (7 * Z.of_nat 1) with 7; lia |].
    Z.div_mod_to_equations; lia. }
  rewrite varint_head_continue by lia.
  rewrite ltb_false
    by (pose proof (Z.mod_pos_bound (n / 128) 128 ltac:(lia)); lia).
  assert (C1 : Z.shiftr n (7 * Z.of_nat 1) > 127)
    by (change (7 * Z.of_nat 1) with 7; lia).
  (* third byte *)
  pose proof (Hhead 2%nat ltac:(bytes_before)) as H2.
  change (Z.of_nat 2) with 2 in H2. change (7 * 2) with 14 in H2.
  rewrite S2 in H2.
  rewrite H2, elem_and_127. cbn [JS.elem_lt].
  rewrite varint_head_payload by lia.
  rewrite (js_or_shl _ (n / 128 / 128 mod 128) 14)
    by (Z.div_mod_to_equations; lia).
  destruct (Z_le_gt_dec (n / 128 / 128) 127) as [L2 | E2].
  { rewrite varint_head_last by lia. rewrite ltb_true by lia.
    apply (Hret 2%nat);
      [bytes_before | change (7 * Z.of_nat 2) with 14; lia |].
    Z.div_mod_to_equations; lia. }
  rewrite varint_head_continue by lia.
  rewrite ltb_false
    by (pose proof (Z.mod_pos_bound (n / 128 / 128) 128 ltac:(lia)); lia).
  assert (C2 : Z.shiftr n (7 * Z.of_nat 2) > 127)
    by (change (7 * Z.of_nat 2) with 14; lia).
  (* fourth byte *)
  pose proof (Hhead 3%nat ltac:(bytes_before)) as H3.
  change (Z.of_nat 3) with 3 in H3. change (7 * 3) with 21 in H3.
  rewrite S3 in H3.
  rewrite H3, elem_and_127. cbn [JS.elem_lt].
  rewrite varint_head_payload by lia.
  rewrite (js_or_shl _ (n / 128 / 128 / 128 mod 128) 21)
    by (Z.div_mod_to_equations; lia).
  destruct (Z_le_gt_dec (n / 128 / 128 / 128) 127) as [L3 | E3].
  { rewrite varint_head_last by lia. rewrite ltb_true by lia.
    apply (Hret 3%nat);
      [bytes_before | change (7 * Z.of_nat 3) with 21; lia |].
    Z.div_mod_to_equations; lia. }
  rewrite varint_head_continue by lia.
  rewrite ltb_false
    by (pose proof (Z.mod_pos_bound (n / 128 / 128 / 128) 128 ltac:(lia)); lia).
  assert (C3 : Z.shiftr n (7 * Z.of_nat 3) > 127)
    by (change (7 * Z.of_nat 3) with 21; lia).
  (* fifth byte *)
  pose proof (Hhead 4%nat ltac:(bytes_before)) as H4.
  change (Z.of_nat 4) with 4 in H4. change (7 * 4) with 28 in H4.
  rewrite S4 in H4.
  rewrite H4, elem_and_15. cbn [JS.elem_lt].
  rewrite varint_head_last by lia.
  rewrite ltb_true by lia.
  rewrite js_or_shl28 by (Z.div_mod_to_equations; lia).
  apply (Hret 4%nat);
    [bytes_before | change (7 * Z.of_nat 4) with 28; lia |].
  unfold JS.ushr. change (0 mod 32) with 0. rewrite Z.shiftr_0_r.
  rewrite to_uint32_to_int32. 
  Z.div_mod_to_equations; lia.
Qed.

End Varint32Decode.

Section Int32RoundTrip.
Import BinaryReader.

Lemma Uint8Array_of_octets (a : list Z) :
  Forall Wire.octet a -> JS.Uint8Array_of a = a.
Proof.
  induction 1 as [| b a Hb _ IH]; [reflexivity |].
  cbn. rewrite Z.mod_small by (unfold Wire.octet in Hb; lia).
  f_equal. exact IH.
Qed.

(** [a >> 7] on an int32. *)
Lemma js_shr_div (a k : Z) :
  0 <= k < 32 -> - 2 ^ 31 <= a < 2 ^ 31 -> JS.shr a k = a / 2 ^ k.
Proof.
  intros Hk Ha. unfold JS.shr. rewrite (Z.mod_small k 32) by lia.
  rewrite to_int32_small by lia. apply Z.shiftr_div_pow2. lia.
Qed.

(** The six elements that [Varint32] appends for a negative int32. *)
Lemma Varint32_negative_elements (v : Z) :
  - 2 ^ 31 <= v < 0 ->
  BinaryEncoder.Varint32 v [] =
  [v mod 128 + 128; v / 2 ^ 7 mod 128 + 128; v / 2 ^ 14 mod 128 + 128;
   v / 2 ^ 21 mod 128 + 128; v / 2 ^ 28; 1].
Proof.
  intros Hv. unfold BinaryEncoder.Varint32.
  rewrite geb_false by lia. cbn [BinaryEncoder.Varint32_loop app].
  rewrite !js_continuation_byte.
  assert (D1 : JS.shr v 7 = v / 2 ^ 7) by (apply js_shr_div; lia).
  rewrite D1.
  assert (D2 : JS.shr (v / 2 ^ 7) 7 = v / 2 ^ 14).
  { rewrite js_shr_div by (Z.div_mod_to_equations; lia).
    rewrite Z.div_div by lia. reflexivity. }
  rewrite D2.
  assert (D3 : JS.shr (v / 2 ^ 14) 7 = v / 2 ^ 21).
  { rewrite js_shr_div by (Z.div_mod_to_equations; lia).
    rewrite Z.div_div by lia. reflexivity. }
  rewrite D3.
  assert (D4 : JS.shr (v / 2 ^ 21) 7 = v / 2 ^ 28).
  { rewrite js_shr_div by (Z.div_mod_to_equations; lia).
    rewrite Z.div_div by lia. reflexivity. }
  rewrite D4. reflexivity.
Qed.

(** *** Varints longer than five bytes *)

(** The chain of [this.bytes[this.cursor++] >= 128] stops at the first byte
    below 128, the cursor just past it. *)
Lemma all_continue_stops (k : nat) :
  forall (r : t) (cs : list Z) (t0 : Z) (rest : list Z),
    holds r (cs ++ t0 :: rest) ->
    Forall continuation cs -> t0 < 128 ->
    (List.length cs < k)%nat ->
    all_continue k r
    = Ok false (set_cursor (cursor r + Z.of_nat (List.length cs) + 1) r).
Proof.
  induction k as [| k IH]; intros r cs t0 rest Hin Hcs Ht Hlen; [lia |].
  cbn [all_continue]. unfold bind, next_byte.
  destruct cs as [| c cs].
  - rewrite (holds_head r t0 rest Hin). cbn [JS.elem_ge].
    rewrite (proj2 (Z.leb_gt 128 t0)) by lia.
    unfold ret. cbn [List.length Z.of_nat]. do 2 f_equal. lia.
  - rewrite (holds_head r c _ Hin). cbn [JS.elem_ge].
    inversion Hcs as [| ? ? Hc Hcs']; subst.
    rewrite (proj2 (Z.leb_le 128 c)) by (unfold continuation in Hc; lia).
    pose proof (holds_skip r [c] (cs ++ t0 :: rest) Hin) as Hin'.
    cbn [List.length Z.of_nat Pos.of_succ_nat] in Hin'.
    rewrite (IH _ cs t0 rest Hin' Hcs' Ht) by (cbn in Hlen; lia).
    unfold set_cursor. cbn [cursor bytes end_ nextField nextWireType length].
    do 2 f_equal. cbn [List.length]. lia.
Qed.

(** With [k] continuation bytes at the cursor all [k] comparisons hold. *)
Lemma all_continue_all (k : nat) :
  forall (r : t) (cs rest : list Z),
    holds r (cs ++ rest) ->
    Forall continuation cs -> List.length cs = k ->
    all_continue k r = Ok true (set_cursor (cursor r + Z.of_nat k) r).
Proof.
  induction k as [| k IH]; intros r cs rest Hin Hcs Hlen.
  - cbn. unfold ret, set_cursor. destruct r; cbn. do 2 f_equal. lia.
  - destruct cs as [| c cs]; [discriminate Hlen |].
    cbn [all_continue]. unfold bind, next_byte.
    rewrite (holds_head r c _ Hin). cbn [JS.elem_ge].
    inversion Hcs as [| ? ? Hc Hcs']; subst.
    rewrite (proj2 (Z.leb_le 128 c)) by (unfold continuation in Hc; lia).
    pose proof (holds_skip r [c] (cs ++ rest) Hin) as Hin'.
    cbn [List.length Z.of_nat Pos.of_succ_nat] in Hin'.
    rewrite (IH _ cs rest Hin' Hcs') by (cbn in Hlen; lia).
    unfold set_cursor. cbn [cursor bytes end_ nextField nextWireType length].
    do 2 f_equal. lia.
Qed.

End Int32RoundTrip.

Section LongVarint32.
Import BinaryReader.

(** After five continuation bytes [Varint32] has the low 32 bits of the
    value and goes on to skip the bytes that follow. *)
Lemma Varint32_after_five (r : t) (c0 c1 c2 c3 c4 : Z) (tail : list Z) :
  holds r ([c0; c1; c2; c3; c4] ++ tail) ->
  continuation c0 -> continuation c1 -> continuation c2 ->
  continuation c3 -> continuation c4 ->
  Varint32 r =
  (advance 5;;
   too_long <- all_continue 5;;
   if too_long then throw Varint32TooLong
   else
     r <- get;;
     if cursor r >? end_ r
     then throw (DecoderCursorOutOfBounds (cursor r) (end_ r))
     else ret (JS.to_int32 (Wire.varint_value [c0; c1; c2; c3; c4]))) r.
Proof.
  unfold continuation. intros Hin K0 K1 K2 K3 K4.
  pose proof (holds_nth r _ tail 0 c0 Hin eq_refl) as H0.
  pose proof (holds_nth r _ tail 1 c1 Hin eq_refl) as H1.
  pose proof (holds_nth r _ tail 2 c2 Hin eq_refl) as H2.
  pose proof (holds_nth r _ tail 3 c3 Hin eq_refl) as H3.
  pose proof (holds_nth r _ tail 4 c4 Hin eq_refl) as H4.
  cbn [Z.of_nat Pos.of_succ_nat Pos.succ] in H0, H1, H2, H3, H4.
  rewrite Z.add_0_r in H0.
  unfold Varint32. unfold bind at 1. unfold get.
  rewrite H0, H1, H2, H3, H4. cbn [JS.elem_lt].
  rewrite !elem_and_127, elem_and_15.
  rewrite !ltb_false by lia.
  pose proof (Z.mod_pos_bound c0 128 ltac:(lia)).
  pose proof (Z.mod_pos_bound c1 128 ltac:(lia)).
  pose proof (Z.mod_pos_bound c2 128 ltac:(lia)).
  pose proof (Z.mod_pos_bound c3 128 ltac:(lia)).
  pose proof (Z.mod_pos_bound c4 16 ltac:(lia)).
  change (2 ^ 7) with 128. change (2 ^ 4) with 16.
  rewrite (js_or_shl (c0 mod 128) (c1 mod 128) 7) by lia.
  rewrite (js_or_shl _ (c2 mod 128) 14) by lia.
  rewrite (js_or_shl _ (c3 mod 128) 21) by lia.
  rewrite js_or_shl28 by lia.
  replace (JS.to_int32 (Wire.varint_value [c0; c1; c2; c3; c4]))
    with (JS.to_int32
            (c0 mod 128 + c1 mod 128 * 2 ^ 7 + c2 mod 128 * 2 ^ 14 +
             c3 mod 128 * 2 ^ 21 + c4 mod 16 * 2 ^ 28)); [reflexivity |].
  apply to_int32_eqm. cbn [Wire.varint_value]. rewrite !land_127.
  pose proof (Z.div_mod (c4 mod 128) 16 ltac:(lia)) as Hd.
  assert (Hm : (c4 mod 128) mod 16 = c4 mod 16).
  { Z.div_mod_to_equations. lia. }
  rewrite Hm in Hd.
  replace (c0 mod 128 +
           128 * (c1 mod 128 + 128 * (c2 mod 128 + 128 * (c3 mod 128 + 128 * (c4 mod 128 + 128 * 0)))))
    with (c0 mod 128 + c1 mod 128 * 2 ^ 7 + c2 mod 128 * 2 ^ 14 +
          c3 mod 128 * 2 ^ 21 + c4 mod 16 * 2 ^ 28
          + (c4 mod 128 / 16) * 2 ^ 32) by lia.
  symmetry. apply Z.mod_add. lia.
Qed.


Lemma varint_value_app (a b : list Z) :
  Wire.varint_value (a ++ b)
  = Wire.varint_value a + 128 ^ Z.of_nat (List.length a) * Wire.varint_value b.
Proof.
  induction a as [| x a IH].
  { cbn [app Wire.varint_value List.length Z.of_nat]. rewrite Z.pow_0_r. lia. }
  cbn [app Wire.varint_value List.length]. rewrite IH.
  rewrite Nat2Z.inj_succ, Z.pow_succ_r by lia. lia.
Qed.

Lemma Varint32_on_long_varint
        (r : t) (c0 c1 c2 c3 c4 : Z) (cs : list Z) (t0 : Z) (rest : list Z) :
  holds r ([c0; c1; c2; c3; c4] ++ cs ++ t0 :: rest) ->
  continuation c0 -> continuation c1 -> continuation c2 ->
  continuation c3 -> continuation c4 ->
  Forall continuation cs -> (List.length cs <= 4)%nat ->
  0 <= t0 < 128 ->
  cursor r + 6 + Z.of_nat (List.length cs) <= end_ r ->
  Varint32 r
  = Ok (JS.to_int32 (Wire.varint_value ([c0; c1; c2; c3; c4] ++ cs ++ [t0])))
       (set_cursor (cursor r + 6 + Z.of_nat (List.length cs)) r).
Proof.
  intros Hin K0 K1 K2 K3 K4 Hcs Hlen Ht Hend.
  rewrite (Varint32_after_five r c0 c1 c2 c3 c4 _ Hin) by assumption.
  unfold bind at 1. rewrite advance_in_bounds by lia.
  pose proof (holds_skip r [c0; c1; c2; c3; c4] _ Hin) as Hin'.
  cbn [List.length Z.of_nat Pos.of_succ_nat Pos.succ] in Hin'.
  unfold bind at 1.
  rewrite (all_continue_stops 5 _ cs t0 rest Hin' Hcs) by lia.
  unfold bind, get, ret. cbn [cursor end_ set_cursor].
  rewrite gtb_false by lia.
  f_equal.
  - rewrite varint_value_app. apply to_int32_eqm.
    change (128 ^ Z.of_nat (List.length [c0; c1; c2; c3; c4]))
      with (8 * 2 ^ 32).
    replace (8 * 2 ^ 32 * Wire.varint_value (cs ++ [t0]))
      with (8 * Wire.varint_value (cs ++ [t0]) * 2 ^ 32) by lia.
    symmetry. apply Z.mod_add. lia.
  - unfold set_cursor. cbn [cursor bytes end_ nextField nextWireType length].
    f_equal. lia.
Qed.

(** A complete varint is a run of continuation bytes and a last byte
    below 128. *)
Lemma well_terminated_split (bs : list Z) :
  Wire.well_terminated bs = true ->
  exists cs t0,
    bs = cs ++ [t0] /\ Forall continuation cs /\ 0 <= t0 < 128.
Proof.
  induction bs as [| b bs IH]; [discriminate |].
  destruct bs as [| b' bs'].
  - cbn [Wire.well_terminated]. intros H.
    apply andb_true_iff in H. destruct H as [H1 H2].
    apply Z.leb_le in H1. apply Z.ltb_lt in H2.
    exists [], b. split; [reflexivity |]. split; [constructor | lia].
  - intros H.
    change (Wire.well_terminated (b :: b' :: bs'))
      with ((128 <=? b) && (b <? 256) && Wire.well_terminated (b' :: bs')) in H.
    apply andb_true_iff in H. destruct H as [H H3].
    apply andb_true_iff in H. destruct H as [H1 H2].
    apply Z.leb_le in H1. apply Z.ltb_lt in H2.
    destruct (IH H3) as [cs [t0 [E [Hcs Ht]]]].
    exists (b :: cs), t0. split; [cbn [app]; rewrite <- E; reflexivity |].
    split; [constructor; [split; assumption | exact Hcs] | exact Ht].
Qed.

(** A varint of six to ten bytes, that is any complete varint too long for
    32 bits: [Varint32] returns the low 32 bits of its value as an int32 and
    leaves the cursor past its last byte. *)
Theorem Varint32_truncates_long_varint (r : t) (bs rest : list Z) :
  Wire.well_terminated bs = true ->
  (6 <= List.length bs <= 10)%nat ->
  holds r (bs ++ rest) ->
  cursor r + Z.of_nat (List.length bs) <= end_ r ->
  Varint32 r
  = Ok (JS.to_int32 (Wire.varint_value bs))
       (set_cursor (cursor r + Z.of_nat (List.length bs)) r).
Proof.
  intros Hwt Hlen Hin Hb.
  destruct (well_terminated_split bs Hwt) as [cs [t0 [-> [Hcs Ht]]]].
  rewrite length_app in Hlen, Hb |- *. cbn [List.length] in Hlen, Hb |- *.
  destruct cs as [| c0 [| c1 [| c2 [| c3 [| c4 cs]]]]];
    try (cbn [List.length] in Hlen; lia).
  apply Forall_cons_iff in Hcs. destruct Hcs as [K0 Hcs].
  apply Forall_cons_iff in Hcs. destruct Hcs as [K1 Hcs].
  apply Forall_cons_iff in Hcs. destruct Hcs as [K2 Hcs].
  apply Forall_cons_iff in Hcs. destruct Hcs as [K3 Hcs].
  apply Forall_cons_iff in Hcs. destruct Hcs as [K4 Hcs].
  cbn [List.length] in Hlen, Hb |- *.
  rewrite <- app_assoc in Hin.
  rewrite (Varint32_on_long_varint r c0 c1 c2 c3 c4 cs t0 rest Hin)
    by (first [assumption | lia]).
  do 2 f_equal. lia.
Qed.

Lemma Varint32_truncates_long_varint_witness :
  let r := new [255; 255; 255; 255; 255; 255; 255; 255; 255; 1] in
  Varint32 r
  = Ok (JS.to_int32
          (Wire.varint_value [255; 255; 255; 255; 255; 255; 255; 255; 255; 1]))
       (set_cursor
          (cursor r
           + Z.of_nat
               (List.length [255; 255; 255; 255; 255; 255; 255; 255; 255; 1]))
          r).
Proof.
  intro r.
  apply (Varint32_truncates_long_varint
           r [255; 255; 255; 255; 255; 255; 255; 255; 255; 1] []).
  - reflexivity.
  - simpl. lia.
  - computed.
  - computed.
Defined.

(** Ten continuation bytes: [Varint32] throws, the cursor ten bytes on. *)
Theorem Varint32_rejects_ten_continuations
        (r : t) (c0 c1 c2 c3 c4 : Z) (cs rest : list Z) :
  holds r ([c0; c1; c2; c3; c4] ++ cs ++ rest) ->
  continuation c0 -> continuation c1 -> continuation c2 ->
  continuation c3 -> continuation c4 ->
  Forall continuation cs -> List.length cs = 5%nat ->
  cursor r + 5 <= end_ r ->
  Varint32 r = Throw Varint32TooLong (set_cursor (cursor r + 10) r).
Proof.
  intros Hin K0 K1 K2 K3 K4 Hcs Hlen Hend.
  rewrite (Varint32_after_five r c0 c1 c2 c3 c4 _ Hin) by assumption.
  unfold bind at 1. rewrite advance_in_bounds by lia.
  pose proof (holds_skip r [c0; c1; c2; c3; c4] _ Hin) as Hin'.
  cbn [List.length Z.of_nat Pos.of_succ_nat Pos.succ] in Hin'.
  unfold bind at 1.
  rewrite (all_continue_all 5 _ cs rest Hin' Hcs Hlen).
  unfold throw, set_cursor.
  cbn [cursor bytes end_ nextField nextWireType length].
  do 2 f_equal. lia.
Qed.

Lemma Varint32_rejects_ten_continuations_witness :
  let r := new [128; 128; 128; 128; 128; 128; 128; 128; 128; 128; 1] in
  Varint32 r = Throw Varint32TooLong (set_cursor (cursor r + 10) r).
Proof.
  intro r.
  apply (Varint32_rejects_ten_continuations
           r 128 128 128 128 128 [128; 128; 128; 128; 128] [1]); computed.
Defined.

(** The signed 32-bit round trip: the elements that the encoder's
    [Varint32] appends for an int32 [v], stored as bytes, are read back by
    the reader's [Varint32] as [v]. *)
Theorem Varint32_reads_Varint32 (r : t) (v : Z) (rest : list Z) :
  - 2 ^ 31 <= v < 2 ^ 31 ->
  let encoded := JS.Uint8Array_of (BinaryEncoder.Varint32 v []) in
  holds r (encoded ++ rest) ->
  cursor r + Z.of_nat (List.length encoded) <= end_ r ->
  Varint32 r
  = Ok v (set_cursor (cursor r + Z.of_nat (List.length encoded)) r).
Proof.
  intros Hv encoded. subst encoded.
  destruct (Z_lt_ge_dec v 0) as [Hneg | Hpos].
  - rewrite Varint32_negative_elements by lia.
    cbn [JS.Uint8Array_of map List.length Z.of_nat Pos.of_succ_nat Pos.succ].
    change (2 ^ 8) with 256.
    assert (B0 : (v mod 128 + 128) mod 256 = v mod 128 + 128)
      by (Z.div_mod_to_equations; lia).
    assert (B1 : (v / 2 ^ 7 mod 128 + 128) mod 256 = v / 2 ^ 7 mod 128 + 128)
      by (Z.div_mod_to_equations; lia).
    assert (B2 : (v / 2 ^ 14 mod 128 + 128) mod 256 = v / 2 ^ 14 mod 128 + 128)
      by (Z.div_mod_to_equations; lia).
    assert (B3 : (v / 2 ^ 21 mod 128 + 128) mod 256 = v / 2 ^ 21 mod 128 + 128)
      by (Z.div_mod_to_equations; lia).
    assert (B4 : (v / 2 ^ 28) mod 256 = v / 2 ^ 28 + 256)
      by (Z.div_mod_to_equations; lia).
    rewrite B0, B1, B2, B3, B4. change (1 mod 256) with 1.
    intros Hin Hend.
    rewrite (Varint32_on_long_varint r _ _ _ _ _ [] 1 rest Hin);
      unfold continuation; cbn [List.length Z.of_nat];
      try (Z.div_mod_to_equations; lia); try constructor.
    f_equal.
    + cbn [app Wire.varint_value]. rewrite !land_127.
      apply to_int32_unique with (q := -16); [lia |].
      Z.div_mod_to_equations. lia.
    + f_equal. lia.
  - unfold BinaryEncoder.Varint32. rewrite (proj2 (Z.geb_le v 0)) by lia.
    assert (Hoct : Forall Wire.octet (BinaryEncoder.UnsignedVarint32 v [])).
    { rewrite UnsignedVarint32_as_bigint by lia.
      apply UnsignedVarint_octets. lia. }
    rewrite (Uint8Array_of_octets _ Hoct).
    apply Varint32_on_UnsignedVarint32. lia.
Qed.

Lemma Varint32_reads_Varint32_witness :
  let r := new [255; 255; 255; 255; 255; 1] in
  let encoded := JS.Uint8Array_of (BinaryEncoder.Varint32 (-1) []) in
  Varint32 r
  = Ok (-1) (set_cursor (cursor r + Z.of_nat (List.length encoded)) r).
Proof.
  intros r encoded.
  apply (Varint32_reads_Varint32 r (-1) []); computed.
Defined.

End LongVarint32.

Section Zigzag32RoundTrip.
Import BinaryReader.

Lemma js_and_1 (z : Z) : JS.and z 1 = z mod 2.
Proof. apply (js_and_ones z 1). lia. Qed.

Lemma js_ushr_div (z k : Z) :
  0 <= k < 32 -> 0 <= z < 2 ^ 32 -> JS.ushr z k = z / 2 ^ k.
Proof.
  intros Hk Hz. unfold JS.ushr. rewrite (Z.mod_small k 32) by lia.
  rewrite to_uint32_small by lia. apply Z.shiftr_div_pow2. lia.
Qed.

(** The number that [Zigzag32] hands to [UnsignedVarint32]. *)
Lemma zigzag32_value (v : Z) :
  - 2 ^ 31 <= v < 2 ^ 31 ->
  JS.ushr (JS.xor (JS.shl v 1) (JS.shr v 31)) 0
  = if v <? 0 then - 2 * v - 1 else 2 * v.
Proof.
  intros Hv. unfold JS.ushr, JS.xor. change (0 mod 32) with 0.
  rewrite Z.shiftr_0_r.
  rewrite js_shl_wrap by lia. rewrite to_int32_idem.
  rewrite js_shr_div by lia.
  destruct (v <? 0) eqn:E.
  - apply Z.ltb_lt in E.
    replace (v / 2 ^ 31) with (-1) by (Z.div_mod_to_equations; lia).
    change (JS.to_int32 (-1)) with (-1).
    rewrite Z.lxor_m1_r. unfold Z.lnot.
    destruct (to_int32_congr (v * 2 ^ 1)) as [q Hq]. rewrite Hq.
    unfold JS.to_uint32.
    replace (Z.pred (- (v * 2 ^ 1 + q * 2 ^ 32)))
      with (- 2 * v - 1 + (- q) * 2 ^ 32) by lia.
    rewrite Z.mod_add by lia. apply Z.mod_small. lia.
  - apply Z.ltb_ge in E.
    replace (v / 2 ^ 31) with 0 by (Z.div_mod_to_equations; lia).
    change (JS.to_int32 0) with 0. rewrite Z.lxor_0_r.
    rewrite to_uint32_to_int32. rewrite Z.mod_small; lia.
Qed.

(** What [Sint32] computes from the number it read. *)
Lemma unzigzag32_value (v : Z) :
  - 2 ^ 31 <= v < 2 ^ 31 ->
  let z := if v <? 0 then - 2 * v - 1 else 2 * v in
  JS.xor (JS.ushr z 1) (- JS.and z 1) = v.
Proof.
  intros Hv z. subst z. unfold JS.xor.
  destruct (v <? 0) eqn:E.
  - apply Z.ltb_lt in E.
    rewrite js_ushr_div, js_and_1 by lia.
    replace ((- 2 * v - 1) mod 2) with 1 by (Z.div_mod_to_equations; lia).
    replace ((- 2 * v - 1) / 2 ^ 1) with (- v - 1)
      by (Z.div_mod_to_equations; lia).
    change (JS.to_int32 (- (1))) with (-1).
    rewrite to_int32_small by lia.
    rewrite Z.lxor_m1_r. unfold Z.lnot. lia.
  - apply Z.ltb_ge in E.
    rewrite js_ushr_div, js_and_1 by lia.
    replace ((2 * v) mod 2) with 0 by (Z.div_mod_to_equations; lia).
    replace (2 * v / 2 ^ 1) with v by (Z.div_mod_to_equations; lia).
    change (JS.to_int32 (- 0)) with 0.
    rewrite to_int32_small by lia. apply Z.lxor_0_r.
Qed.

(** The zigzag 32-bit round trip: on the bytes that [Zigzag32] appends for
    an int32 [v], [Sint32] on a [VARINT] field returns [v]. *)
Theorem Sint32_reads_Zigzag32 (r : t) (v : Z) (rest : list Z) :
  - 2 ^ 31 <= v < 2 ^ 31 ->
  wire_is r WireType.VARINT = true ->
  holds r (BinaryEncoder.Zigzag32 v [] ++ rest) ->
  cursor r + Z.of_nat (List.length (BinaryEncoder.Zigzag32 v [])) <= end_ r ->
  Sint32 r
  = Ok v (set_cursor
            (cursor r + Z.of_nat (List.length (BinaryEncoder.Zigzag32 v [])))
            r).
Proof.
  intros Hv Hw. unfold BinaryEncoder.Zigzag32.
  rewrite zigzag32_value by exact Hv. intros Hin Hend.
  unfold Sint32. unfold bind at 1. unfold get. rewrite Hw.
  unfold bind.
  rewrite (Varint32_on_UnsignedVarint32
             r (if v <? 0 then - 2 * v - 1 else 2 * v) rest); try assumption.
  - unfold ret. f_equal. apply (unzigzag32_value v Hv).
  - destruct (v <? 0) eqn:E; [apply Z.ltb_lt in E | apply Z.ltb_ge in E]; lia.
Qed.

Lemma Sint32_reads_Zigzag32_witness :
  let r := mk [24; 1] 2 1 (Some 3) (Some 0) (JS.Num 2) in
  Sint32 r
  = Ok (-1)
       (set_cursor
          (cursor r + Z.of_nat (List.length (BinaryEncoder.Zigzag32 (-1) [])))
          r).
Proof.
  intro r. apply (Sint32_reads_Zigzag32 r (-1) []); computed.
Defined.

End Zigzag32RoundTrip.

Section Varint64RoundTrip.
Import BinaryReader.

Lemma decode_return (r : t) (n : Z) (j : nat) (x : Z) :
  cursor r + Z.of_nat (List.length (BinaryEncoder.UnsignedVarint n [])) <= end_ r ->
  (forall i, (i < j)%nat -> Z.shiftr n (7 * Z.of_nat i) > 127) ->
  Z.shiftr n (7 * Z.of_nat j) <= 127 ->
  (advance (Z.of_nat j + 1);; ret x) r
  = Ok x (set_cursor
            (cursor r + Z.of_nat (List.length (BinaryEncoder.UnsignedVarint n [])))
            r).
Proof.
  intros Hb Hc Hlast.
  pose proof (UnsignedVarint_length j n Hc Hlast) as Hlen.
  rewrite Hlen in Hb |- *.
  unfold bind. rewrite advance_in_bounds by lia.
  unfold ret. do 2 f_equal. lia.
Qed.


(** On the bytes that [UnsignedVarint] appends for [n] in [[0, 2 ^ 64)],
    wherever they lie in the input, [Varint] returns [n] reinterpreted by
    [sign] and leaves the cursor just past them. *)
Lemma Varint_reads_UnsignedVarint (s : bool) (r : t) (n : Z) (rest : list Z) :
  0 <= n < 2 ^ 64 ->
  holds r (BinaryEncoder.UnsignedVarint n [] ++ rest) ->
  cursor r + Z.of_nat (List.length (BinaryEncoder.UnsignedVarint n [])) <= end_ r ->
  Varint s r
  = Ok (sign n s)
       (set_cursor
          (cursor r + Z.of_nat (List.length (BinaryEncoder.UnsignedVarint n [])))
          r).
Proof.
  intros Hn Hin Hb.
  pose proof (decode_head r n rest Hin) as Hhead.
  pose proof (fun j => decode_return r n j (sign n s) Hb) as Hret.
  unfold Varint. unfold bind at 1. unfold get.
  unfold bind at 1. unfold big_byte_at.
  pose proof (Hhead 0%nat ltac:(intros; lia)) as H0.
  cbn [Z.of_nat] in H0. rewrite Z.add_0_r in H0.
  change (7 * 0) with 0 in H0. rewrite Z.shiftr_0_r in H0. rewrite H0.
  destruct (Z_le_gt_dec n 127) as [L0 | E0].
  { rewrite varint_head_last by lia. rewrite ltb_true by lia.
    apply (Hret 0%nat); [intros; lia | exact L0]. }
  rewrite varint_head_continue by lia.
  pose proof (Z.mod_pos_bound n 128 ltac:(lia)).
  rewrite ltb_false by lia.
  replace (n mod 128 + 128 - 128) with (n mod 2 ^ (7 * 1))
    by (change (2 ^ (7 * 1)) with 128; lia).
  assert (E0' : Z.shiftr n (7 * Z.of_nat 0) > 127) by exact E0.
  rewrite (Varint_step_spec s 1 n)
    by (try lia; apply (Hhead 1%nat); bytes_before).
  destruct (Z.shiftr n (7 * 1) >? 127) eqn:E1;
    [apply Z.gtb_lt, Z.lt_gt in E1
    | apply gtb_le_127 in E1; apply (Hret 1%nat); [bytes_before | exact E1]].
  rewrite (Varint_step_spec s 2 n)
    by (try lia; apply (Hhead 2%nat); bytes_before).
  destruct (Z.shiftr n (7 * 2) >? 127) eqn:E2;
    [apply Z.gtb_lt, Z.lt_gt in E2
    | apply gtb_le_127 in E2; apply (Hret 2%nat); [bytes_before | exact E2]].
  rewrite (Varint_step_spec s 3 n)
    by (try lia; apply (Hhead 3%nat); bytes_before).
  destruct (Z.shiftr n (7 * 3) >? 127) eqn:E3;
    [apply Z.gtb_lt, Z.lt_gt in E3
    | apply gtb_le_127 in E3; apply (Hret 3%nat); [bytes_before | exact E3]].
  rewrite (Varint_step_spec s 4 n)
    by (try lia; apply (Hhead 4%nat); bytes_before).
  destruct (Z.shiftr n (7 * 4) >? 127) eqn:E4;
    [apply Z.gtb_lt, Z.lt_gt in E4
    | apply gtb_le_127 in E4; apply (Hret 4%nat); [bytes_before | exact E4]].
  rewrite (Varint_step_spec s 5 n)
    by (try lia; apply (Hhead 5%nat); bytes_before).
  destruct (Z.shiftr n (7 * 5) >? 127) eqn:E5;
    [apply Z.gtb_lt, Z.lt_gt in E5
    | apply gtb_le_127 in E5; apply (Hret 5%nat); [bytes_before | exact E5]].
  rewrite (Varint_step_spec s 6 n)
    by (try lia; apply (Hhead 6%nat); bytes_before).
  destruct (Z.shiftr n (7 * 6) >? 127) eqn:E6;
    [apply Z.gtb_lt, Z.lt_gt in E6
    | apply gtb_le_127 in E6; apply (Hret 6%nat); [bytes_before | exact E6]].
  rewrite (Varint_step_spec s 7 n)
    by (try lia; apply (Hhead 7%nat); bytes_before).
  destruct (Z.shiftr n (7 * 7) >? 127) eqn:E7;
    [apply Z.gtb_lt, Z.lt_gt in E7
    | apply gtb_le_127 in E7; apply (Hret 7%nat); [bytes_before | exact E7]].
  rewrite (Varint_step_spec s 8 n)
    by (try lia; apply (Hhead 8%nat); bytes_before).
  destruct (Z.shiftr n (7 * 8) >? 127) eqn:E8;
    [apply Z.gtb_lt, Z.lt_gt in E8
    | apply gtb_le_127 in E8; apply (Hret 8%nat); [bytes_before | exact E8]].
  rewrite (Varint_last_spec s n)
    by (try lia; apply (Hhead 9%nat); bytes_before).
  apply (Hret 9%nat); [bytes_before |].
  change (7 * Z.of_nat 9) with 63.
  rewrite Z.shiftr_div_pow2 by lia.
  assert (n / 2 ^ 63 < 2) by (apply Z.div_lt_upper_bound; lia). lia.
Qed.

End Varint64RoundTrip.

Section Int64RoundTrip.
Import BinaryReader.

Lemma bigint_continuation_byte (x : Z) :
  Z.lor (Z.land x 127) 128 = x mod 128 + 128.
Proof.
  rewrite land_127. pose proof (Z.mod_pos_bound x 128 ltac:(lia)).
  change 128 with (1 * 2 ^ 7) at 2. rewrite lor_disjoint_add by lia. lia.
Qed.

(** The ten bytes of the varint of a number with bit 63 set. *)
Lemma UnsignedVarint_ten (u : Z) :
  2 ^ 63 <= u < 2 ^ 64 ->
  BinaryEncoder.UnsignedVarint u [] =
  [u mod 128 + 128; u / 2 ^ 7 mod 128 + 128; u / 2 ^ 14 mod 128 + 128;
   u / 2 ^ 21 mod 128 + 128; u / 2 ^ 28 mod 128 + 128;
   u / 2 ^ 35 mod 128 + 128; u / 2 ^ 42 mod 128 + 128;
   u / 2 ^ 49 mod 128 + 128; u / 2 ^ 56 mod 128 + 128; 1].
Proof.
  intros Hu.
  assert (Hs : forall k, 0 <= k ->
             Z.shiftr (u / 2 ^ k) 7 = u / 2 ^ (k + 7)).
  { intros k Hk. rewrite Z.shiftr_div_pow2, Z.div_div, <- Z.pow_add_r by
      (try apply Z.pow_pos_nonneg; lia). reflexivity. }
  rewrite (UnsignedVarint_cons u).
  rewrite varint_head_continue, gtb_true by lia.
  replace (Z.shiftr u 7) with (u / 2 ^ 7) by (symmetry; apply Z.shiftr_div_pow2; lia).
  do 8 (rewrite (UnsignedVarint_cons (u / 2 ^ _));
        rewrite varint_head_continue, gtb_true
          by (Z.div_mod_to_equations; lia);
        rewrite Hs by lia;
        match goal with
        | |- context [2 ^ (?a + 7)] =>
            let c := eval compute in (a + 7) in change (a + 7) with c
        end).
  rewrite UnsignedVarint_cons.
  assert (Hlast : u / 2 ^ 63 = 1) by (Z.div_mod_to_equations; lia).
  rewrite varint_head_last, gtb_false by lia.
  rewrite Hlast. reflexivity.
Qed.

Lemma twos_complement_group (v k : Z) :
  0 <= k <= 56 -> (v + 2 ^ 64) / 2 ^ k mod 128 = v / 2 ^ k mod 128.
Proof.
  intros Hk.
  assert (Hp : 0 < 2 ^ k) by (apply Z.pow_pos_nonneg; lia).
  replace (2 ^ 64) with (2 ^ (57 - k) * 128 * 2 ^ k).
  - rewrite Z.div_add by lia. apply Z.mod_add. lia.
  - change 128 with (2 ^ 7). rewrite <- !Z.pow_add_r by lia. f_equal. lia.
Qed.

(** The ten bytes that [Varint] appends for a negative int64 are the varint
    of its two's complement. *)
Lemma Varint_negative_bytes (v : Z) :
  - 2 ^ 63 <= v < 0 ->
  BinaryEncoder.Varint v [] = BinaryEncoder.UnsignedVarint (v + 2 ^ 64) [].
Proof.
  intros Hv. rewrite UnsignedVarint_ten by lia.
  unfold BinaryEncoder.Varint. rewrite geb_false by lia.
  cbn [BinaryEncoder.Varint_loop app].
  rewrite !bigint_continuation_byte.
  rewrite !Z.shiftr_shiftr by lia.
  rewrite !Z.shiftr_div_pow2 by lia.
  cbn [Z.add Pos.add Pos.succ Pos.add_carry].
  rewrite <- (Z.div_1_r (v + 2 ^ 64)) at 1. rewrite <- (Z.div_1_r v) at 1.
  change 1 with (2 ^ 0) at 1 3.
  rewrite !twos_complement_group by lia. reflexivity.
Qed.


(** The bytes of [Varint] for an int64 are the varint of its value modulo
    [2 ^ 64]. *)
Lemma Varint_bytes (v : Z) :
  - 2 ^ 63 <= v < 2 ^ 63 ->
  BinaryEncoder.Varint v [] = BinaryEncoder.UnsignedVarint (v mod 2 ^ 64) [].
Proof.
  intros Hv. destruct (Z_lt_ge_dec v 0) as [Hneg | Hpos].
  - rewrite Varint_negative_bytes by lia. f_equal.
    apply Z.mod_unique_pos with (q := -1); lia.
  - unfold BinaryEncoder.Varint. rewrite (proj2 (Z.geb_le v 0)) by lia.
    rewrite Z.mod_small by lia. reflexivity.
Qed.

(** The signed 64-bit round trip: on the bytes that the encoder's [Varint]
    appends for an int64 [v], the reader's [Varint] in signed mode returns
    [v]; in unsigned mode it returns [v] modulo [2 ^ 64]. *)
Theorem Varint_reads_Varint (r : t) (v : Z) (rest : list Z) :
  - 2 ^ 63 <= v < 2 ^ 63 ->
  holds r (BinaryEncoder.Varint v [] ++ rest) ->
  cursor r + Z.of_nat (List.length (BinaryEncoder.Varint v [])) <= end_ r ->
  let r' := set_cursor
              (cursor r + Z.of_nat (List.length (BinaryEncoder.Varint v []))) r in
  Varint true r = Ok v r' /\ Varint false r = Ok (v mod 2 ^ 64) r'.
Proof.
  intros Hv. rewrite Varint_bytes by exact Hv. intros Hin Hend r'.
  pose proof (Z.mod_pos_bound v (2 ^ 64) ltac:(lia)) as Hm.
  split.
  - rewrite (Varint_reads_UnsignedVarint true r _ rest Hm Hin Hend).
    f_equal. unfold sign, JS.asIntN64.
    rewrite Zplus_mod_idemp_l. rewrite Z.mod_small; lia.
  - rewrite (Varint_reads_UnsignedVarint false r _ rest Hm Hin Hend).
    f_equal. unfold sign, JS.asUintN64. apply Z.mod_mod. lia.
Qed.

Lemma Varint_reads_Varint_witness :
  let r := new [255; 255; 255; 255; 255; 255; 255; 255; 255; 1] in
  let r' := set_cursor
              (cursor r + Z.of_nat (List.length (BinaryEncoder.Varint (-1) [])))
              r in
  Varint true r = Ok (-1) r' /\ Varint false r = Ok (-1 mod 2 ^ 64) r'.
Proof.
  intro r. apply (Varint_reads_Varint r (-1) []); computed.
Defined.

(** The number that [Zigzag64] hands to [Varint]. *)
Lemma zigzag64_value (x : Z) :
  - 2 ^ 63 <= x < 2 ^ 63 ->
  Z.lxor (Z.shiftl x 1) (Z.shiftr x 63)
  = if x <? 0 then - 2 * x - 1 else 2 * x.
Proof.
  intros Hx. rewrite Z.shiftl_mul_pow2, Z.shiftr_div_pow2 by lia.
  change (2 ^ 1) with 2. rewrite (Z.mul_comm x 2).
  destruct (x <? 0) eqn:E.
  - apply Z.ltb_lt in E.
    replace (x / 2 ^ 63) with (-1) by (Z.div_mod_to_equations; lia).
    rewrite Z.lxor_m1_r. unfold Z.lnot. lia.
  - apply Z.ltb_ge in E.
    replace (x / 2 ^ 63) with 0 by (Z.div_mod_to_equations; lia).
    apply Z.lxor_0_r.
Qed.

(** What [Sint64] computes from the number it read. *)
Lemma unzigzag64_value (z : Z) :
  0 <= z ->
  Z.lxor (Z.shiftr z 1) (- Z.land (Z.shiftr (Z.shiftl z 63) 63) 1)
  = if Z.even z then z / 2 else - (z / 2) - 1.
Proof.
  intros Hz. rewrite Z.shiftr_shiftl_l by lia.
  replace (63 - 63) with 0 by lia. rewrite Z.shiftl_0_r.
  change 1 with (Z.ones 1) at 2. rewrite Z.land_ones by lia.
  rewrite Z.shiftr_div_pow2 by lia. change (2 ^ 1) with 2.
  rewrite Zmod_even.
  destruct (Z.even z).
  - change (- 0) with 0. apply Z.lxor_0_r.
  - change (- (1)) with (-1). rewrite Z.lxor_m1_r. unfold Z.lnot. lia.
Qed.

Lemma Sint64_on_Zigzag64 (r : t) (x : Z) (rest : list Z) :
  - 2 ^ 63 <= x < 2 ^ 63 ->
  wire_is r WireType.VARINT = true ->
  holds r (BinaryEncoder.Zigzag64 x [] ++ rest) ->
  cursor r + Z.of_nat (List.length (BinaryEncoder.Zigzag64 x [])) <= end_ r ->
  Sint64 r
  = Ok x (set_cursor
            (cursor r + Z.of_nat (List.length (BinaryEncoder.Zigzag64 x [])))
            r).
Proof.
  intros Hx Hw. unfold BinaryEncoder.Zigzag64.
  rewrite zigzag64_value by exact Hx.
  set (z := if x <? 0 then - 2 * x - 1 else 2 * x).
  assert (Hz : 0 <= z < 2 ^ 64 /\
               (if Z.even z then z / 2 else - (z / 2) - 1) = x).
  { subst z. destruct (x <? 0) eqn:E.
    - apply Z.ltb_lt in E. split; [lia |].
      replace (- 2 * x - 1) with (1 + 2 * (- x - 1)) by lia.
      rewrite Z.even_add_mul_2. cbn [Z.even].
      replace (1 + 2 * (- x - 1)) with (1 + (- x - 1) * 2) by lia.
      rewrite Z.div_add by lia. cbn. lia.
    - apply Z.ltb_ge in E. split; [lia |].
      rewrite Z.even_mul. cbn [Z.even orb].
      rewrite (Z.mul_comm 2 x), Z.div_mul by lia. reflexivity. }
  destruct Hz as [Hz Hback].
  unfold BinaryEncoder.Varint. rewrite (proj2 (Z.geb_le z 0)) by lia.
  intros Hin Hend.
  unfold Sint64. unfold bind at 1. unfold get. rewrite Hw. unfold bind.
  rewrite (Varint_reads_UnsignedVarint false r z rest Hz Hin Hend).
  unfold ret. f_equal.
  unfold sign, JS.asUintN64. rewrite Z.mod_small by lia.
  rewrite unzigzag64_value by lia. exact Hback.
Qed.


End Int64RoundTrip.

Section TagRoundTrip.
Import BinaryReader.

(** What [UnsignedVarint32] appends does not depend on the buffer. *)
Lemma UnsignedVarint32_app (value : Z) :
  forall buffer,
    BinaryEncoder.UnsignedVarint32 value buffer
    = buffer ++ BinaryEncoder.UnsignedVarint32 value [].
Proof.
  destruct (Z.lt_ge_cases value 0) as [Hneg | Hpos].
  { intros buffer. rewrite !(UnsignedVarint32_step value).
    rewrite gtb_false by lia. reflexivity. }
  pattern value. apply Zlt_0_ind; [| exact Hpos].
  clear value Hpos. intros v IH Hv buffer.
  rewrite !(UnsignedVarint32_step v).
  destruct (v >? 127) eqn:E; [| reflexivity].
  apply Z.gtb_lt in E.
  assert (Hq : 0 <= JS.ushr v 7 < v).
  { rewrite js_ushr7.
    pose proof (Z.mod_pos_bound v (2 ^ 32) ltac:(lia)).
    pose proof (Z.mod_le v (2 ^ 32) ltac:(lia) ltac:(lia)).
    split; [apply Z.div_pos; lia | apply Z.div_lt_upper_bound; lia]. }
  rewrite (IH _ Hq (buffer ++ _)), (IH _ Hq ([] ++ _)).
  rewrite <- app_assoc. reflexivity.
Qed.

(** The bytes of a tag, on any buffer: with wire type 0 nothing is added
    to [field * 8], and a sum of at most 53 bits is a Number as it is. *)
Lemma Tag_appends (field wireType : Z) (buffer : list Z) :
  1 <= field ->
  wireType = 0 \/ - 2 ^ 53 < field * 8 + wireType < 2 ^ 53 ->
  BinaryWriter.Tag field wireType buffer
  = Ok tt (buffer ++ BinaryEncoder.UnsignedVarint32 (field * 8 + wireType) []).
Proof.
  intros Hf Hx. unfold BinaryWriter.Tag.
  rewrite (proj2 (Z.geb_le field 1)) by lia.
  rewrite plus_exact by exact Hx.
  unfold modify. rewrite UnsignedVarint32_app. reflexivity.
Qed.

Lemma js_and_7 (z : Z) : JS.and z 7 = z mod 8.
Proof. apply (js_and_ones z 3). lia. Qed.

Lemma NextField_on_Tag (r : t) (field wireType : Z) (rest : list Z) :
  1 <= field < 2 ^ 29 ->
  Wire.legal_wire_type wireType ->
  let tag := BinaryEncoder.UnsignedVarint32 (field * 8 + wireType) [] in
  holds r (tag ++ rest) ->
  cursor r + Z.of_nat (List.length tag) <= end_ r ->
  JS.eqb (JS.Num (cursor r)) (length r) = false ->
  NextField r
  = Ok true
       (set_nextWireType (Some wireType)
          (set_nextField
             (Some (if field <? 2 ^ 28 then field else field - 2 ^ 29))
             (set_cursor (cursor r + Z.of_nat (List.length tag)) r))).
Proof.
  intros Hf Hw tag Hin Hend Hmsg.
  assert (Hw' : 0 <= wireType <= 5).
  { unfold Wire.legal_wire_type, WireType.VARINT, WireType.FIXED64,
      WireType.DELIMITED, WireType.FIXED32 in Hw. lia. }
  assert (Hlen : (0 < List.length tag)%nat).
  { subst tag. rewrite UnsignedVarint32_as_bigint by lia.
    rewrite UnsignedVarint_cons. cbn. lia. }
  unfold NextField. unfold bind at 1. unfold get.
  rewrite geb_false by lia. rewrite Hmsg.
  unfold bind at 1.
  rewrite (Varint32_on_UnsignedVarint32 r (field * 8 + wireType) rest)
    by (try assumption; lia).
  fold tag.
  rewrite js_and_7.
  replace ((field * 8 + wireType) mod 8) with wireType
    by (Z.div_mod_to_equations; lia).
  assert (Hfield : JS.shr (field * 8 + wireType) 3
                   = if field <? 2 ^ 28 then field else field - 2 ^ 29).
  { unfold JS.shr. change (3 mod 32) with 3.
    rewrite Z.shiftr_div_pow2 by lia.
    destruct (field <? 2 ^ 28) eqn:E.
    - apply Z.ltb_lt in E. rewrite to_int32_small by lia.
      Z.div_mod_to_equations. lia.
    - apply Z.ltb_ge in E.
      rewrite (to_int32_unique (field * 8 + wireType)
                               (field * 8 + wireType - 2 ^ 32) (-1)) by lia.
      Z.div_mod_to_equations. lia. }
  rewrite Hfield.
  unfold Wire.legal_wire_type in Hw.
  destruct Hw as [-> | [-> | [-> | ->]]]; reflexivity.
Qed.

(** Reading a tag back.  On the bytes that [Tag] appends for a field number
    below [2 ^ 29] and a legal wire type, [NextField] (away from the end of
    the input and of the current message) returns [true], stores the wire
    type, and stores the field number when it is below [2 ^ 28]; a field
    number from [2 ^ 28] on is stored as [field - 2 ^ 29], a negative
    number. *)
Theorem NextField_reads_Tag (r : t) (field wireType : Z) (rest : list Z) :
  1 <= field < 2 ^ 29 ->
  Wire.legal_wire_type wireType ->
  let tag := BinaryEncoder.UnsignedVarint32 (field * 8 + wireType) [] in
  holds r (tag ++ rest) ->
  cursor r + Z.of_nat (List.length tag) <= end_ r ->
  JS.eqb (JS.Num (cursor r)) (length r) = false ->
  BinaryWriter.Tag field wireType [] = Ok tt tag
  /\ NextField r
     = Ok true
          (set_nextWireType (Some wireType)
             (set_nextField
                (Some (if field <? 2 ^ 28 then field else field - 2 ^ 29))
                (set_cursor (cursor r + Z.of_nat (List.length tag)) r))).
Proof.
  intros Hf Hw tag Hin Hend Hmsg. split.
  - apply (Tag_appends field wireType []); [lia |].
    right.
    unfold Wire.legal_wire_type, WireType.VARINT, WireType.FIXED64,
      WireType.DELIMITED, WireType.FIXED32 in Hw. lia.
  - exact (NextField_on_Tag r field wireType rest Hf Hw Hin Hend Hmsg).
Qed.


Lemma NextField_reads_Tag_witness :
  let r := set_length (JS.Num 3) (new [8; 150; 1]) in
  let tag := BinaryEncoder.UnsignedVarint32 (1 * 8 + 0) [] in
  BinaryWriter.Tag 1 0 [] = Ok tt tag
  /\ NextField r
     = Ok true
          (set_nextWireType (Some 0)
             (set_nextField
                (Some (if 1 <? 2 ^ 28 then 1 else 1 - 2 ^ 29))
                (set_cursor (cursor r + Z.of_nat (List.length tag)) r))).
Proof.
  intros r tag.
  apply (NextField_reads_Tag r 1 0 [150; 1]);
    first [left; reflexivity | computed].
Defined.

End TagRoundTrip.

Section FixedAndBytes.
Import BinaryReader.

(** [x | (c << 24)]: the int32 that stands for [x + c * 2 ^ 24]. *)
Lemma js_or_shl24 (x c : Z) :
  0 <= x < 2 ^ 24 -> 0 <= c < 256 ->
  JS.or x (JS.shl c 24) = JS.to_int32 (x + c * 2 ^ 24).
Proof.
  intros Hx Hc. rewrite js_shl_wrap by lia.
  unfold JS.or. rewrite to_int32_idem, (to_int32_small x) by lia.
  pose proof (to_int32_range (c * 2 ^ 24)) as Hr.
  destruct (to_int32_congr (c * 2 ^ 24)) as [q Hq]. rewrite Hq in *.
  replace (c * 2 ^ 24 + q * 2 ^ 32) with ((c + q * 256) * 2 ^ 24) in * by lia.
  rewrite lor_disjoint_add by lia.
  symmetry. apply to_int32_unique with (q := q); lia.
Qed.

(** The little-endian word at the cursor. *)
Lemma word_at_value (r : t) (b0 b1 b2 b3 : Z) (rest : list Z) :
  holds r ([b0; b1; b2; b3] ++ rest) ->
  Wire.octet b0 -> Wire.octet b1 -> Wire.octet b2 -> Wire.octet b3 ->
  word_at r = JS.to_int32 (b0 + b1 * 2 ^ 8 + b2 * 2 ^ 16 + b3 * 2 ^ 24).
Proof.
  unfold Wire.octet. intros Hin O0 O1 O2 O3.
  pose proof (holds_nth r _ rest 0 b0 Hin eq_refl) as H0.
  pose proof (holds_nth r _ rest 1 b1 Hin eq_refl) as H1.
  pose proof (holds_nth r _ rest 2 b2 Hin eq_refl) as H2.
  pose proof (holds_nth r _ rest 3 b3 Hin eq_refl) as H3.
  cbn [Z.of_nat Pos.of_succ_nat Pos.succ] in H0, H1, H2, H3.
  unfold word_at. rewrite H0, H1, H2, H3.
  cbn [JS.of_elem JS.int32_of].
  rewrite !to_int32_small by lia.
  rewrite (js_shl_exact b0 0) by lia. rewrite Z.pow_0_r, Z.mul_1_r.
  rewrite (js_or_shl b0 b1 8) by lia.
  rewrite (js_or_shl _ b2 16) by lia.
  apply js_or_shl24; lia.
Qed.




End FixedAndBytes.

Section BytesAndSkip.
Import BinaryReader.

(** What a reader holds lies inside its input. *)
Lemma holds_inside (r : t) (b : Z) (e : list Z) :
  holds r (b :: e) ->
  cursor r + Z.of_nat (List.length (b :: e)) <= Z.of_nat (List.length (bytes r)).
Proof.
  intros [H0 H].
  assert (Hl : List.length
                 (firstn (List.length (b :: e))
                         (skipn (Z.to_nat (cursor r)) (bytes r)))
               = List.length (b :: e)) by (rewrite H; reflexivity).
  rewrite length_firstn, length_skipn in Hl.
  cbn [List.length] in *. lia.
Qed.

(** [subarray] on the bytes at the cursor. *)
Lemma subarray_holds (r : t) (value rest : list Z) :
  holds r (value ++ rest) ->
  JS.subarray (bytes r) (cursor r) (cursor r + Z.of_nat (List.length value))
  = value.
Proof.
  intros Hin. pose proof (holds_app_l r value rest Hin) as [H0 Hv].
  unfold JS.subarray.
  destruct value as [| b value].
  - cbn [List.length Z.of_nat]. rewrite Z.add_0_r, Z.sub_diag.
    reflexivity.
  - pose proof (holds_inside r b value (holds_app_l r _ rest Hin)) as Hi.
    rewrite !ltb_false by lia.
    rewrite !Z.min_l by lia.
    replace (Z.max (cursor r + Z.of_nat (List.length (b :: value)) - cursor r) 0)
      with (Z.of_nat (List.length (b :: value))) by lia.
    rewrite Nat2Z.id. exact Hv.
Qed.

(** The length-delimited round trip: on the bytes that the writer's [Bytes]
    appends after the tag, a length varint and the payload, the reader's
    [Bytes] on a [DELIMITED] field returns the payload and leaves the cursor
    just past it. *)
Theorem Bytes_reads_Bytes (r : t) (value rest : list Z) :
  Z.of_nat (List.length value) < 2 ^ 32 ->
  let len := BinaryEncoder.UnsignedVarint32 (Z.of_nat (List.length value)) [] in
  wire_is r WireType.DELIMITED = true ->
  holds r (len ++ value ++ rest) ->
  cursor r + Z.of_nat (List.length (len ++ value)) <= end_ r ->
  Bytes r
  = Ok value (set_cursor (cursor r + Z.of_nat (List.length (len ++ value))) r).
Proof.
  intros Hlen len Hw Hin Hend. rewrite length_app in *.
  unfold Bytes. unfold bind at 1. unfold get. rewrite Hw.
  unfold bind at 1.
  rewrite (Varint32_on_UnsignedVarint32
             r (Z.of_nat (List.length value)) (value ++ rest))
    by (try assumption; fold len; lia).
  fold len.
  rewrite ltb_false by lia.
  rewrite gtb_false by (unfold TWO_TO_52; lia).
  cbn [orb]. unfold bind at 1. unfold get. unfold bind.
  pose proof (holds_skip r len (value ++ rest) Hin) as Hin'.
  rewrite advance_in_bounds by (cbn [cursor end_ set_cursor]; lia).
  rewrite (subarray_holds _ value rest Hin').
  unfold ret, set_cursor. cbn [cursor bytes end_ nextField nextWireType length].
  do 2 f_equal. lia.
Qed.

Lemma Bytes_reads_Bytes_witness :
  let r := mk [10; 3; 1; 2; 3; 16; 7] 7 1 (Some 1) (Some 2) (JS.Num 7) in
  let len := BinaryEncoder.UnsignedVarint32 (Z.of_nat (List.length [1; 2; 3])) [] in
  Bytes r
  = Ok [1; 2; 3]
       (set_cursor (cursor r + Z.of_nat (List.length (len ++ [1; 2; 3]))) r).
Proof.
  intros r len. apply (Bytes_reads_Bytes r [1; 2; 3] [16; 7]); computed.
Defined.

End BytesAndSkip.

Section SkipField.
Import BinaryReader.

(** [b & 0x80] on an octet. *)
Lemma elem_and_128 (b : Z) :
  Wire.octet b ->
  JS.elem_and (Some b) 128 = if b <? 128 then 0 else 128.
Proof.
  unfold Wire.octet. intros Hb.
  unfold JS.elem_and, JS.and. cbn [JS.of_elem JS.int32_of].
  rewrite to_int32_idem, to_int32_small by lia.
  change (JS.to_int32 128) with 128.
  destruct (b <? 128) eqn:E.
  - apply Z.ltb_lt in E. apply Z.bits_inj'. intros n Hn.
    rewrite Z.land_spec, Z.bits_0.
    destruct (Z.eq_dec n 7) as [-> | Hne].
    + rewrite (Z.bits_above_log2 b 7); [reflexivity | lia |].
      destruct (Z.eq_dec b 0) as [-> | Hnz]; [cbn; lia |].
      apply Z.log2_lt_pow2; lia.
    + change 128 with (2 ^ 7). rewrite Z.pow2_bits_false by lia.
      apply andb_false_r.
  - apply Z.ltb_ge in E.
    replace b with (b - 128 + 1 * 2 ^ 7) at 1 by lia.
    rewrite <- lor_disjoint_add by lia.
    change (1 * 2 ^ 7) with 128.
    rewrite Z.land_lor_distr_l, Z.land_diag.
    replace (Z.land (b - 128) 128) with 0; [reflexivity |].
    symmetry. apply Z.bits_inj'. intros n Hn.
    rewrite Z.land_spec, Z.bits_0.
    destruct (Z.eq_dec n 7) as [-> | Hne].
    + rewrite (Z.bits_above_log2 (b - 128) 7); [reflexivity | lia |].
      destruct (Z.eq_dec (b - 128) 0) as [-> | Hnz]; [cbn; lia |].
      apply Z.log2_lt_pow2; lia.
    + change 128 with (2 ^ 7). rewrite Z.pow2_bits_false by lia.
      apply andb_false_r.
Qed.

(** The loop of [skipField], one iteration at a time. *)
Lemma skip_varint_step (r : t) :
  skip_varint r =
  if JS.elem_and (byte_at r (cursor r)) 128 =? 0 then Ok tt r
  else if cursor r + 1 >? end_ r
       then Throw (AdvancingCursorOutOfBounds (cursor r + 1) (end_ r))
                  (set_cursor (cursor r + 1) r)
       else skip_varint (set_cursor (cursor r + 1) r).
Proof.
  rewrite (skip_varint_equation_1 r).
  destruct (Z.eq_dec (JS.elem_and (byte_at r (cursor r)) 128) 0) as [E | E];
    cbn.
  - destruct (JS.elem_and (byte_at r (cursor r)) 128 =? 0) eqn:E';
      [reflexivity | apply Z.eqb_neq in E'; contradiction].
  - destruct (JS.elem_and (byte_at r (cursor r)) 128 =? 0) eqn:E';
      [apply Z.eqb_eq in E'; contradiction |].
    destruct (Z_gt_dec (cursor r + 1) (end_ r)) as [G | G]; cbn.
    + rewrite gtb_true by lia. reflexivity.
    + rewrite gtb_false by lia. reflexivity.
Qed.

(** The loop stops on the last byte of a varint. *)
Lemma skip_varint_stops :
  forall (cs : list Z) (r : t) (t0 : Z) (rest : list Z),
    holds r (cs ++ t0 :: rest) ->
    Forall continuation cs -> 0 <= t0 < 128 ->
    cursor r + Z.of_nat (List.length cs) <= end_ r ->
    skip_varint r
    = Ok tt (set_cursor (cursor r + Z.of_nat (List.length cs)) r).
Proof.
  induction cs as [| c cs IH]; intros r t0 rest Hin Hcs Ht Hend.
  - rewrite skip_varint_step, (holds_head r t0 rest Hin).
    rewrite elem_and_128 by (unfold Wire.octet; lia).
    rewrite ltb_true by lia. cbn [Z.eqb List.length Z.of_nat].
    f_equal. unfold set_cursor. destruct r; cbn. f_equal. lia.
  - inversion Hcs as [| ? ? Hc Hcs']; subst. unfold continuation in Hc.
    rewrite skip_varint_step, (holds_head r c _ Hin).
    rewrite elem_and_128 by (unfold Wire.octet; lia).
    rewrite ltb_false by lia. cbn [Z.eqb].
    cbn [List.length] in Hend.
    rewrite gtb_false by lia.
    pose proof (holds_skip r [c] (cs ++ t0 :: rest) Hin) as Hin'.
    cbn [List.length Z.of_nat Pos.of_succ_nat] in Hin'.
    rewrite (IH _ t0 rest Hin' Hcs' Ht)
      by (cbn [cursor end_ set_cursor]; lia).
    unfold set_cursor. cbn [cursor bytes end_ nextField nextWireType length].
    do 2 f_equal. cbn [List.length]. lia.
Qed.

(** A varint is a run of continuation bytes followed by a byte below
    128. *)
Lemma UnsignedVarint_shape (n : Z) :
  0 <= n ->
  exists cs t0,
    BinaryEncoder.UnsignedVarint n [] = cs ++ [t0] /\
    Forall continuation cs /\ 0 <= t0 < 128.
Proof.
  intros Hn. pattern n. apply Zlt_0_ind; [| exact Hn].
  clear n Hn. intros n IH Hn.
  rewrite UnsignedVarint_cons.
  destruct (n >? 127) eqn:E.
  - apply Z.gtb_lt in E.
    destruct (IH (Z.shiftr n 7)) as (cs & t0 & -> & Hcs & Ht).
    { rewrite Z.shiftr_div_pow2 by lia.
      split; [apply Z.div_pos; lia | apply Z.div_lt_upper_bound; lia]. }
    exists (Wire.varint_head n :: cs), t0. split; [reflexivity |].
    split; [| exact Ht]. constructor; [| exact Hcs].
    rewrite varint_head_continue by lia. unfold continuation.
    pose proof (Z.mod_pos_bound n 128 ltac:(lia)). lia.
  - apply gtb_le_127 in E. exists [], n. split.
    + rewrite varint_head_last by lia. reflexivity.
    + split; [constructor | lia].
Qed.

(** Skipping a [VARINT] field: on the bytes of any varint that the encoder
    writes, [skipField] leaves the cursor at the byte that follows. *)
Theorem skipField_skips_varint (r : t) (n : Z) (rest : list Z) :
  0 <= n ->
  wire_is r WireType.VARINT = true ->
  holds r (BinaryEncoder.UnsignedVarint n [] ++ rest) ->
  cursor r + Z.of_nat (List.length (BinaryEncoder.UnsignedVarint n [])) <= end_ r ->
  skipField r
  = Ok tt (set_cursor
             (cursor r + Z.of_nat (List.length (BinaryEncoder.UnsignedVarint n [])))
             r).
Proof.
  intros Hn Hw.
  destruct (UnsignedVarint_shape n Hn) as (cs & t0 & -> & Hcs & Ht).
  rewrite <- app_assoc. cbn [app]. rewrite length_app. cbn [List.length].
  intros Hin Hend.
  unfold skipField. unfold bind at 1. unfold get. rewrite Hw.
  unfold bind.
  rewrite (skip_varint_stops cs r t0 rest Hin Hcs Ht) by lia.
  rewrite advance_in_bounds by (cbn [cursor end_ set_cursor]; lia).
  unfold set_cursor. cbn [cursor bytes end_ nextField nextWireType length].
  do 2 f_equal. lia.
Qed.

Lemma skipField_skips_varint_witness :
  let r := mk [8; 172; 2; 16; 7] 5 1 (Some 1) (Some 0) (JS.Num 5) in
  skipField r
  = Ok tt
       (set_cursor
          (cursor r + Z.of_nat (List.length (BinaryEncoder.UnsignedVarint 300 [])))
          r).
Proof.
  intro r. apply (skipField_skips_varint r 300 [16; 7]); computed.
Defined.

(** Skipping a [DELIMITED] field: on a length varint followed by that many
    bytes, [skipField] leaves the cursor past the payload. *)
Theorem skipField_skips_delimited (r : t) (value rest : list Z) :
  Z.of_nat (List.length value) < 2 ^ 32 ->
  let len := BinaryEncoder.UnsignedVarint32 (Z.of_nat (List.length value)) [] in
  wire_is r WireType.DELIMITED = true ->
  holds r (len ++ value ++ rest) ->
  cursor r + Z.of_nat (List.length (len ++ value)) <= end_ r ->
  skipField r
  = Ok tt (set_cursor (cursor r + Z.of_nat (List.length (len ++ value))) r).
Proof.
  intros Hlen len Hw Hin Hend. rewrite length_app in *.
  unfold skipField. unfold bind at 1. unfold get.
  assert (Hv : wire_is r WireType.VARINT = false).
  { unfold wire_is in *. destruct (nextWireType r); [| discriminate Hw].
    apply Z.eqb_eq in Hw. subst. reflexivity. }
  assert (Hf : wire_is r WireType.FIXED64 = false).
  { unfold wire_is in *. destruct (nextWireType r); [| discriminate Hw].
    apply Z.eqb_eq in Hw. subst. reflexivity. }
  rewrite Hv, Hf, Hw. unfold bind.
  rewrite (Varint32_on_UnsignedVarint32
             r (Z.of_nat (List.length value)) (value ++ rest))
    by (try assumption; fold len; lia).
  fold len.
  rewrite advance_in_bounds by (cbn [cursor end_ set_cursor]; lia).
  unfold set_cursor. cbn [cursor bytes end_ nextField nextWireType length].
  do 2 f_equal. lia.
Qed.

Lemma skipField_skips_delimited_witness :
  let r := mk [10; 3; 1; 2; 3; 16; 7] 7 1 (Some 1) (Some 2) (JS.Num 7) in
  let len := BinaryEncoder.UnsignedVarint32 (Z.of_nat (List.length [1; 2; 3])) [] in
  skipField r
  = Ok tt (set_cursor (cursor r + Z.of_nat (List.length (len ++ [1; 2; 3]))) r).
Proof.
  intros r len. apply (skipField_skips_delimited r [1; 2; 3] [16; 7]); computed.
Defined.

End SkipField.


(* ===================================================================== *)
(** ** Malformed and truncated input *)
(* ===================================================================== *)

Section TruncatedInput.

Import BinaryReader.

(** The element of the input at the cursor plus [j], inside what the
    reader holds. *)
Lemma holds_at (r : t) (e : list Z) (j : nat) (b : Z) :
  holds r e -> nth_error e j = Some b ->
  byte_at r (cursor r + Z.of_nat j) = Some b.
Proof.
  intros H Hn. apply (holds_nth r e [] j b); [| exact Hn].
  rewrite app_nil_r. exact H.
Qed.

(** Reading past the last element of the input gives [undefined]. *)
Lemma byte_at_past_input (r : t) (i : Z) :
  Z.of_nat (List.length (bytes r)) <= i -> byte_at r i = None.
Proof.
  intros Hi. unfold byte_at. rewrite ltb_false by lia.
  apply nth_error_None. lia.
Qed.

Lemma Header_loop_short (i : nat) :
  forall (l : JS.number) (r : t),
    cursor r <= end_ r < cursor r + Z.of_nat i ->
    Header_loop i l r
    = Throw (AdvancingCursorOutOfBounds (end_ r + 1) (end_ r))
            (set_cursor (end_ r + 1) r).
Proof.
  induction i as [| i IH]; intros l r Hr; [lia |].
  cbn [Header_loop]. unfold bind at 1. unfold get.
  unfold bind at 1. unfold advance. cbn [cursor end_ set_cursor].
  destruct (cursor r + 1 >? end_ r) eqn:E.
  - apply Z.gtb_lt in E.
    replace (cursor r + 1) with (end_ r + 1) by lia. reflexivity.
  - rewrite Z.gtb_ltb in E. apply Z.ltb_ge in E.
    rewrite IH by (cbn [cursor end_ set_cursor]; lia).
    reflexivity.
Qed.

(** An envelope cut short: when between one and four bytes are left before
    [end], whatever they are, [Header] throws the bounds error of [advance],
    with the cursor one past [end]. *)
Theorem Header_throws_on_short_envelope (r : t) :
  cursor r < end_ r < cursor r + 5 ->
  Header r
  = Throw (AdvancingCursorOutOfBounds (end_ r + 1) (end_ r))
          (set_cursor (end_ r + 1) r).
Proof.
  intros Hr. unfold Header. unfold bind at 1. unfold get.
  rewrite geb_false by lia.
  unfold bind at 1.
  rewrite (Header_loop_short 5) by (change (Z.of_nat 5) with 5; lia).
  reflexivity.
Qed.

Lemma Header_throws_on_short_envelope_witness :
  Header (new [0; 0; 0])
  = Throw (AdvancingCursorOutOfBounds 4 3) (set_cursor 4 (new [0; 0; 0])).
Proof.
  apply (Header_throws_on_short_envelope (new [0; 0; 0])).
  cbn [cursor end_ new List.length Z.of_nat]. lia.
Defined.

(** *** The 64-bit varint *)

Lemma Varint_step_continue (s : bool) (k v y : Z) (rest : Z -> M t Z) (r : t) :
  byte_at r (cursor r + k) = Some y -> 128 <= y ->
  Varint_step s k v rest r
  = rest (Z.lor v (Z.shiftl y (7 * k)) - Z.shiftl 128 (7 * k)) r.
Proof.
  intros Hb Hy. unfold Varint_step. unfold bind at 1. unfold get.
  unfold bind at 1. unfold big_byte_at. rewrite Hb.
  rewrite ltb_false by lia. reflexivity.
Qed.

Lemma Varint_step_missing (s : bool) (k v : Z) (rest : Z -> M t Z) (r : t) :
  byte_at r (cursor r + k) = None ->
  Varint_step s k v rest r = Throw TypeError r.
Proof.
  intros Hb. unfold Varint_step. unfold bind at 1. unfold get.
  unfold bind at 1. unfold big_byte_at. rewrite Hb. reflexivity.
Qed.

Lemma Varint_last_missing (s : bool) (v : Z) (r : t) :
  byte_at r (cursor r + 9) = None ->
  Varint_last s v r = Throw TypeError r.
Proof.
  intros Hb. unfold Varint_last. unfold bind at 1. unfold get.
  unfold bind at 1. unfold big_byte_at. rewrite Hb. reflexivity.
Qed.

Lemma Varint_last_overflow (s : bool) (v y : Z) (r : t) :
  byte_at r (cursor r + 9) = Some y -> 2 <= y ->
  Varint_last s v r = Throw Overflow r.
Proof.
  intros Hb Hy. unfold Varint_last. unfold bind at 1. unfold get.
  unfold bind at 1. unfold big_byte_at. rewrite Hb.
  rewrite ltb_false by lia. reflexivity.
Qed.

(** The first byte of [Varint], when it is a continuation byte. *)
Lemma Varint_first_continue (s : bool) (y : Z) (r : t) :
  byte_at r (cursor r) = Some y -> 128 <= y ->
  Varint s r
  = Varint_step s 1 (y - 128) (fun v =>
    Varint_step s 2 v (fun v =>
    Varint_step s 3 v (fun v =>
    Varint_step s 4 v (fun v =>
    Varint_step s 5 v (fun v =>
    Varint_step s 6 v (fun v =>
    Varint_step s 7 v (fun v =>
    Varint_step s 8 v (fun v =>
    Varint_last s v)))))))) r.
Proof.
  intros Hb Hy. unfold Varint. unfold bind at 1. unfold get.
  unfold bind at 1. unfold big_byte_at at 1. rewrite Hb.
  rewrite ltb_false by lia. reflexivity.
Qed.

Lemma Varint_first_missing (s : bool) (r : t) :
  byte_at r (cursor r) = None -> Varint s r = Throw TypeError r.
Proof.
  intros Hb. unfold Varint. unfold bind at 1. unfold get.
  unfold bind at 1. unfold big_byte_at at 1. rewrite Hb. reflexivity.
Qed.

(** The byte at position [j] of the continuation bytes held at the
    cursor. *)
Ltac held_byte Hin j :=
  match goal with
  | |- byte_at ?r (cursor ?r + ?k) = Some ?c =>
      change k with (Z.of_nat j);
      apply (holds_nth r _ _ j c Hin); reflexivity
  end.

(** A varint of more than 64 bits: after nine continuation bytes, a tenth
    byte of [2] or more makes [Varint] throw ['Overflow'], and the reader is
    left as it was. *)
Theorem Varint_rejects_overflow
        (s : bool) (r : t) (cs : list Z) (y : Z) (rest : list Z) :
  holds r (cs ++ y :: rest) ->
  Forall continuation cs -> List.length cs = 9%nat ->
  2 <= y ->
  Varint s r = Throw Overflow r.
Proof.
  intros Hin Hcs Hlen Hy.
  destruct cs as [| c0 [| c1 [| c2 [| c3 [| c4 [| c5 [| c6 [| c7 [| c8 cs]]]]]]]]];
    try discriminate Hlen.
  destruct cs; [| discriminate Hlen]. clear Hlen.
  repeat match goal with
         | H : Forall continuation (_ :: _) |- _ =>
             apply Forall_cons_iff in H; destruct H as [[? _] H]
         end.
  assert (Hin' : holds r ([c0; c1; c2; c3; c4; c5; c6; c7; c8; y] ++ rest))
    by exact Hin.
  rewrite (Varint_first_continue s c0);
    [| rewrite <- (Z.add_0_r (cursor r)); held_byte Hin' 0%nat | lia].
  rewrite (Varint_step_continue s 1 _ c1); [| held_byte Hin' 1%nat | lia].
  rewrite (Varint_step_continue s 2 _ c2); [| held_byte Hin' 2%nat | lia].
  rewrite (Varint_step_continue s 3 _ c3); [| held_byte Hin' 3%nat | lia].
  rewrite (Varint_step_continue s 4 _ c4); [| held_byte Hin' 4%nat | lia].
  rewrite (Varint_step_continue s 5 _ c5); [| held_byte Hin' 5%nat | lia].
  rewrite (Varint_step_continue s 6 _ c6); [| held_byte Hin' 6%nat | lia].
  rewrite (Varint_step_continue s 7 _ c7); [| held_byte Hin' 7%nat | lia].
  rewrite (Varint_step_continue s 8 _ c8); [| held_byte Hin' 8%nat | lia].
  apply (Varint_last_overflow s _ y); [held_byte Hin' 9%nat | exact Hy].
Qed.

Lemma Varint_rejects_overflow_witness :
  Varint false (new [255; 255; 255; 255; 255; 255; 255; 255; 255; 2])
  = Throw Overflow (new [255; 255; 255; 255; 255; 255; 255; 255; 255; 2]).
Proof.
  apply (Varint_rejects_overflow
           false (new [255; 255; 255; 255; 255; 255; 255; 255; 255; 2])
           [255; 255; 255; 255; 255; 255; 255; 255; 255] 2 []).
  - computed.
  - computed.
  - reflexivity.
  - lia.
Defined.

(** The input ends at the cursor plus [j]. *)
Ltac input_ends Hend :=
  apply byte_at_past_input; cbn [List.length] in Hend; lia.

(** A 64-bit varint cut short by the end of the input: when the input ends
    after at most nine continuation bytes (or at the cursor itself),
    [Varint] throws the [TypeError] of [BigInt(undefined)] and the reader is
    left as it was; [end] plays no part. *)
Theorem Varint_throws_TypeError_at_end_of_input
        (s : bool) (r : t) (cs : list Z) :
  holds r cs ->
  Forall continuation cs -> (List.length cs <= 9)%nat ->
  cursor r + Z.of_nat (List.length cs) = Z.of_nat (List.length (bytes r)) ->
  Varint s r = Throw TypeError r.
Proof.
  intros Hin Hcs Hlen Hend.
  assert (Hin' : holds r (cs ++ [])) by (rewrite app_nil_r; exact Hin).
  destruct cs as [| c0 cs];
    [apply Varint_first_missing; input_ends Hend |].
  apply Forall_cons_iff in Hcs. destruct Hcs as [[H0 _] Hcs].
  rewrite (Varint_first_continue s c0);
    [| rewrite <- (Z.add_0_r (cursor r)); held_byte Hin' 0%nat | lia].
  destruct cs as [| c1 cs];
    [apply Varint_step_missing; input_ends Hend |].
  apply Forall_cons_iff in Hcs. destruct Hcs as [[H1 _] Hcs].
  rewrite (Varint_step_continue s 1 _ c1); [| held_byte Hin' 1%nat | lia].
  destruct cs as [| c2 cs];
    [apply Varint_step_missing; input_ends Hend |].
  apply Forall_cons_iff in Hcs. destruct Hcs as [[H2 _] Hcs].
  rewrite (Varint_step_continue s 2 _ c2); [| held_byte Hin' 2%nat | lia].
  destruct cs as [| c3 cs];
    [apply Varint_step_missing; input_ends Hend |].
  apply Forall_cons_iff in Hcs. destruct Hcs as [[H3 _] Hcs].
  rewrite (Varint_step_continue s 3 _ c3); [| held_byte Hin' 3%nat | lia].
  destruct cs as [| c4 cs];
    [apply Varint_step_missing; input_ends Hend |].
  apply Forall_cons_iff in Hcs. destruct Hcs as [[H4 _] Hcs].
  rewrite (Varint_step_continue s 4 _ c4); [| held_byte Hin' 4%nat | lia].
  destruct cs as [| c5 cs];
    [apply Varint_step_missing; input_ends Hend |].
  apply Forall_cons_iff in Hcs. destruct Hcs as [[H5 _] Hcs].
  rewrite (Varint_step_continue s 5 _ c5); [| held_byte Hin' 5%nat | lia].
  destruct cs as [| c6 cs];
    [apply Varint_step_missing; input_ends Hend |].
  apply Forall_cons_iff in Hcs. destruct Hcs as [[H6 _] Hcs].
  rewrite (Varint_step_continue s 6 _ c6); [| held_byte Hin' 6%nat | lia].
  destruct cs as [| c7 cs];
    [apply Varint_step_missing; input_ends Hend |].
  apply Forall_cons_iff in Hcs. destruct Hcs as [[H7 _] Hcs].
  rewrite (Varint_step_continue s 7 _ c7); [| held_byte Hin' 7%nat | lia].
  destruct cs as [| c8 cs];
    [apply Varint_step_missing; input_ends Hend |].
  apply Forall_cons_iff in Hcs. destruct Hcs as [[H8 _] Hcs].
  rewrite (Varint_step_continue s 8 _ c8); [| held_byte Hin' 8%nat | lia].
  destruct cs as [| c9 cs]; [| cbn [List.length] in Hlen; lia].
  apply Varint_last_missing. input_ends Hend.
Qed.

Lemma Varint_throws_TypeError_at_end_of_input_witness :
  Varint true (set_cursor 1 (new [8; 150; 129]))
  = Throw TypeError (set_cursor 1 (new [8; 150; 129])).
Proof.
  apply (Varint_throws_TypeError_at_end_of_input
           true (set_cursor 1 (new [8; 150; 129])) [150; 129]).
  - computed.
  - computed.
  - cbn [List.length]. lia.
  - reflexivity.
Defined.

(** *** The 32-bit varint *)

Lemma elem_lt_continuation (c : Z) :
  continuation c -> JS.elem_lt (Some c) 128 = false.
Proof. intros [Hc _]. cbn [JS.elem_lt]. apply ltb_false. lia. Qed.

(** A 32-bit varint cut short by the end of the input: [undefined < 128] is
    false, so [Varint32] takes the missing bytes for continuation bytes; when
    the input ends after at most four continuation bytes, it throws the
    bounds error of [advance(5)], with the cursor five bytes further. *)
Theorem Varint32_throws_at_end_of_input (r : t) (cs : list Z) :
  holds r cs ->
  Forall continuation cs -> (List.length cs <= 4)%nat ->
  cursor r + Z.of_nat (List.length cs) = Z.of_nat (List.length (bytes r)) ->
  end_ r <= Z.of_nat (List.length (bytes r)) ->
  Varint32 r
  = Throw (AdvancingCursorOutOfBounds (cursor r + 5) (end_ r))
          (set_cursor (cursor r + 5) r).
Proof.
  intros Hin Hcs Hlen Hend Hr.
  assert (Hin' : holds r (cs ++ [])) by (rewrite app_nil_r; exact Hin).
  assert (Hb : forall j : nat,
             JS.elem_lt (byte_at r (cursor r + Z.of_nat j)) 128 = false).
  { intros j. destruct (nth_error cs j) as [c |] eqn:E.
    - rewrite (holds_at r cs j c Hin E). apply elem_lt_continuation.
      rewrite Forall_forall in Hcs. apply Hcs.
      apply (nth_error_In _ _ E).
    - apply nth_error_None in E.
      rewrite byte_at_past_input by lia. reflexivity. }
  pose proof (Hb 0%nat) as H0. pose proof (Hb 1%nat) as H1.
  pose proof (Hb 2%nat) as H2. pose proof (Hb 3%nat) as H3.
  pose proof (Hb 4%nat) as H4.
  change (Z.of_nat 0) with 0 in H0. rewrite Z.add_0_r in H0.
  change (Z.of_nat 1) with 1 in H1. change (Z.of_nat 2) with 2 in H2.
  change (Z.of_nat 3) with 3 in H3. change (Z.of_nat 4) with 4 in H4.
  unfold Varint32. unfold bind at 1. unfold get.
  rewrite H0, H1, H2, H3, H4.
  unfold bind at 1. unfold advance. cbn [cursor end_ set_cursor].
  rewrite gtb_true by lia. reflexivity.
Qed.

Lemma Varint32_throws_at_end_of_input_witness :
  Varint32 (set_cursor 1 (new [8; 150; 129]))
  = Throw (AdvancingCursorOutOfBounds 6 3) (set_cursor 6 (new [8; 150; 129])).
Proof.
  apply (Varint32_throws_at_end_of_input
           (set_cursor 1 (new [8; 150; 129])) [150; 129]).
  - computed.
  - computed.
  - cbn [List.length]. lia.
  - reflexivity.
  - cbn [end_ set_cursor new bytes List.length Z.of_nat]. lia.
Defined.

End TruncatedInput.


(* ===================================================================== *)
(** ** The cursor stays in bounds *)
(* ===================================================================== *)

Section Bounds.

Import BinaryReader.

Lemma moves_stays_in_bounds {A} (lo : Z) (read : M t A) :
  0 < lo -> moves lo read -> stays_in_bounds read.
Proof.
  intros Hlo H r r' x E. destruct (H r r' x E) as [k [Hk [-> Hb]]].
  cbn [cursor set_cursor]. split; [lia | reflexivity].
Qed.

Lemma Bytes_moves : moves 1 Bytes.
Proof.
  apply guarded_moves.
  apply (bind_moves 1 0); [exact Varint32_moves | intros l].
  destruct ((l <? 0) || (l >? TWO_TO_52)) eqn:E; [apply throw_moves |].
  apply orb_false_elim in E. destruct E as [E _]. apply Z.ltb_ge in E.
  apply get_moves. intros r.
  apply (moves_weaken l); [exact E | apply advance_ret_moves].
Qed.

(** The reads that move the cursor with [advance] only, that is all the
    scalar reads but [Bool] and [String]: whenever one of them returns, the
    cursor has moved forward, it is not past [end], and the input, [end] and
    the current field are as they were. *)
Theorem checked_reads_stay_in_bounds :
  stays_in_bounds Varint32
  /\ (forall s, stays_in_bounds (Varint s))
  /\ stays_in_bounds Int32 /\ stays_in_bounds Int64
  /\ stays_in_bounds Uint32 /\ stays_in_bounds Uint64
  /\ stays_in_bounds Sint32 /\ stays_in_bounds Sint64
  /\ stays_in_bounds Fixed32 /\ stays_in_bounds Sfixed32
  /\ stays_in_bounds Fixed64 /\ stays_in_bounds Sfixed64
  /\ stays_in_bounds Float /\ stays_in_bounds Double
  /\ stays_in_bounds Enum /\ stays_in_bounds Bytes.
Proof.
  repeat match goal with |- _ /\ _ => split end.
  - apply (moves_stays_in_bounds 1 Varint32); [lia | exact Varint32_moves].
  - intros s.
    apply (moves_stays_in_bounds 1 (Varint s)); [lia | apply Varint_moves].
  - apply (moves_stays_in_bounds 1); [lia |].
    apply guarded_moves. exact Varint32_moves.
  - apply (moves_stays_in_bounds 1); [lia |].
    apply guarded_moves. apply Varint_moves.
  - apply (moves_stays_in_bounds 1); [lia |].
    apply guarded_moves. exact Varint32_moves.
  - apply (moves_stays_in_bounds 1); [lia |].
    apply guarded_moves. apply Varint_moves.
  - apply (moves_stays_in_bounds 1); [lia | exact Sint32_moves].
  - apply (moves_stays_in_bounds 1); [lia | exact Sint64_moves].
  - apply (moves_stays_in_bounds 4); [lia | exact Fixed32_moves].
  - apply (moves_stays_in_bounds 4); [lia |].
    apply guarded_moves. exact Fixed32_moves.
  - apply (moves_stays_in_bounds 8); [lia | exact Fixed64_moves].
  - apply (moves_stays_in_bounds 8); [lia |].
    apply guarded_moves. exact Fixed64_moves.
  - apply (moves_stays_in_bounds 4); [lia | exact Float_moves].
  - apply (moves_stays_in_bounds 8); [lia | exact Double_moves].
  - apply (moves_stays_in_bounds 1); [lia | exact Enum_moves].
  - apply (moves_stays_in_bounds 1); [lia | exact Bytes_moves].
Qed.

End Bounds.


(* ===================================================================== *)
(** ** Packed fields *)
(* ===================================================================== *)

Section PackedLoop.

Import BinaryReader.

(** One turn of [while (this.cursor < end) result.push(read())]. *)
Lemma Packed_loop_step {A} (read : M t A) (H : advances read)
      (end' : Z) (result : list A) (r : t) :
  Packed_loop read H end' result r
  = if cursor r <? end' then
      match read r with
      | Ok x r' => Packed_loop read H end' (result ++ [x]) r'
      | Throw e r' => Throw e r'
      end
    else Ok result r.
Proof.
  rewrite Packed_loop_unfold_eq. unfold Packed_loop_unfold.
  destruct (Z_lt_dec (cursor r) end') as [Hlt | Hge].
  - rewrite ltb_true by exact Hlt.
    cbn [Packed_loop_unfold_clause_1]. unfold inspect.
    generalize (@eq_refl _ (read r)).
    generalize (read r) at 2 4 5.
    intros o e. destruct o; reflexivity.
  - rewrite ltb_false by lia. reflexivity.
Qed.

Section Elements.

Context {A : Type}.
Variable read : M t A.
Variable read_advances : advances read.
(** The bytes of one element, the elements that the encoder takes, the
    state of the reader that [read] expects, and the positions that the
    cursor may reach: up to [end] for a read that checks it. *)
Variable enc : A -> list Z.
Variable valid : A -> Prop.
Variable ready : t -> Prop.
Variable within : t -> Z -> Prop.

Hypothesis ready_set_cursor : forall c r, ready r -> ready (set_cursor c r).
Hypothesis within_set_cursor :
  forall c c' r, within r c -> within (set_cursor c' r) c.
Hypothesis within_before :
  forall c c' r, cursor r <= c' <= c -> within r c -> within r c'.
Hypothesis enc_not_empty : forall v, valid v -> enc v <> [].
Hypothesis read_enc :
  forall r v rest,
    valid v -> ready r -> holds r (enc v ++ rest) ->
    within r (cursor r + Z.of_nat (List.length (enc v))) ->
    read r = Ok v (set_cursor (cursor r + Z.of_nat (List.length (enc v))) r).

(** On the concatenated encodings of [values], with [end] just past them,
    the loop returns the elements in order and stops just past them. *)
Lemma Packed_loop_reads (values : list A) :
  forall (result : list A) (r : t) (rest : list Z),
    Forall valid values -> ready r ->
    holds r (flat_map enc values ++ rest) ->
    within r (cursor r + Z.of_nat (List.length (flat_map enc values))) ->
    Packed_loop read read_advances
                (cursor r + Z.of_nat (List.length (flat_map enc values)))
                result r
    = Ok (result ++ values)
         (set_cursor (cursor r + Z.of_nat (List.length (flat_map enc values))) r).
Proof.
  induction values as [| v values IH]; intros result r rest Hv Hr Hin Hb.
  - cbn [flat_map List.length Z.of_nat]. rewrite Packed_loop_step.
    rewrite ltb_false by lia. rewrite app_nil_r, set_cursor_same.
    reflexivity.
  - apply Forall_cons_iff in Hv. destruct Hv as [Hv Hvs].
    cbn [flat_map] in Hin, Hb |- *. rewrite length_app in Hb |- *.
    rewrite <- app_assoc in Hin.
    assert (Hne : (0 < List.length (enc v))%nat).
    { pose proof (enc_not_empty v Hv). destruct (enc v); [congruence |].
      cbn [List.length]. lia. }
    rewrite Packed_loop_step. rewrite ltb_true by lia.
    rewrite (read_enc r v (flat_map enc values ++ rest) Hv Hr Hin)
      by (apply (within_before
                   (cursor r
                    + Z.of_nat (List.length (enc v)
                                + List.length (flat_map enc values))) _ r);
          [lia | exact Hb]).
    pose proof (holds_skip r (enc v) (flat_map enc values ++ rest) Hin) as Hin'.
    set (r1 := set_cursor (cursor r + Z.of_nat (List.length (enc v))) r) in *.
    replace (cursor r
             + Z.of_nat (List.length (enc v) + List.length (flat_map enc values)))
      with (cursor r1 + Z.of_nat (List.length (flat_map enc values)))
      in Hb |- * by (subst r1; cbn [cursor set_cursor]; lia).
    rewrite (IH (result ++ [v]) r1 rest Hvs);
      [| subst r1; apply ready_set_cursor; exact Hr
       | exact Hin'
       | subst r1; apply within_set_cursor; exact Hb].
    subst r1. rewrite set_cursor_twice. rewrite <- app_assoc. reflexivity.
Qed.

End Elements.

End PackedLoop.

Section Delimited.

Lemma geb_true (a b : Z) : b <= a -> (a >=? b) = true.
Proof. intros H. rewrite Z.geb_leb. apply Z.leb_le. exact H. Qed.

(** [splice(start, 0, ...items)] at the end of a prefix of the array. *)
Lemma splice_insert_at (pre items post : list Z) :
  JS.splice_insert (Z.of_nat (length pre)) items (pre ++ post)
  = pre ++ items ++ post.
Proof.
  unfold JS.splice_insert. rewrite ltb_false by lia.
  rewrite length_app, Z.min_l by lia. rewrite Nat2Z.id.
  rewrite firstn_app, Nat.sub_diag, firstn_all. cbn [firstn].
  rewrite skipn_app, Nat.sub_diag, skipn_all. cbn [skipn app].
  rewrite app_nil_r. reflexivity.
Qed.

(** A varint of one byte. *)
Lemma UnsignedVarint32_one_byte (n : Z) (buffer : list Z) :
  n <= 127 -> BinaryEncoder.UnsignedVarint32 n buffer = buffer ++ [n].
Proof.
  intros Hn. rewrite UnsignedVarint32_step. rewrite gtb_false by lia.
  reflexivity.
Qed.

(** [beginDelimited], a body that appends [payload], [endDelimited]: when
    the payload has at most 127 bytes, the field is the tag, one length byte
    and the payload, spliced in at the bookmark, which is the length of the
    buffer and of the tag.  Below [2 ^ 50] the field number times 8, plus
    the wire type, is a Number as it is. *)
Lemma delimited_short (field : Z) (body : M BinaryWriter.t unit)
      (buffer payload : list Z) :
  1 <= field < 2 ^ 50 ->
  let tag := BinaryEncoder.UnsignedVarint32 (field * 8 + WireType.DELIMITED) [] in
  body (buffer ++ tag) = Ok tt ((buffer ++ tag) ++ payload) ->
  (length payload <= 127)%nat ->
  (bookmark <- BinaryWriter.beginDelimited field;;
   body;;
   BinaryWriter.endDelimited bookmark) buffer
  = Ok tt (buffer ++ tag ++ [Z.of_nat (length payload)] ++ payload).
Proof.
  intros Hf tag Hbody Hlen.
  unfold bind at 1. unfold BinaryWriter.beginDelimited. unfold bind at 1.
  rewrite Tag_appends
    by (unfold WireType.DELIMITED; lia).
  fold tag.
  unfold bind at 1. unfold get. unfold ret.
  unfold bind at 1. rewrite Hbody.
  unfold BinaryWriter.endDelimited. unfold bind. unfold get.
  unfold BinaryEncoder.Length.
  replace (Z.of_nat (length ((buffer ++ tag) ++ payload))
           - Z.of_nat (length (buffer ++ tag)))
    with (Z.of_nat (length payload)) by (rewrite (length_app (buffer ++ tag)); lia).
  rewrite geb_true by lia. rewrite gtb_false by lia.
  unfold modify. rewrite splice_insert_at.
  rewrite <- !app_assoc. reflexivity.
Qed.

(** A loop of pushes appends the elements' encodings in order. *)
Lemma for_each_appends {A} (f : A -> list Z -> list Z) (enc : A -> list Z)
      (valid : A -> Prop) :
  (forall v buffer, valid v -> f v buffer = buffer ++ enc v) ->
  forall (values : list A) (buffer : list Z),
    Forall valid values ->
    BinaryWriter.for_each (fun v => modify (f v)) values buffer
    = Ok tt (buffer ++ flat_map enc values).
Proof.
  intros Hf values. induction values as [| v values IH]; intros buffer Hv.
  - cbn [BinaryWriter.for_each flat_map]. rewrite app_nil_r. reflexivity.
  - apply Forall_cons_iff in Hv. destruct Hv as [Hv Hvs].
    cbn [BinaryWriter.for_each flat_map]. unfold bind at 1. unfold modify at 1.
    rewrite IH, Hf, <- app_assoc by assumption. reflexivity.
Qed.

End Delimited.


Section PackedRoundTrip.

Import BinaryReader.

(** The length byte of a short delimited field. *)
Lemma Varint32_on_length_byte (r : t) (len : Z) (rest : list Z) :
  0 <= len <= 127 ->
  holds r (len :: rest) -> cursor r + 1 <= end_ r ->
  Varint32 r = Ok len (set_cursor (cursor r + 1) r).
Proof.
  intros Hlen Hin Hb.
  pose proof (Varint32_on_UnsignedVarint32 r len rest ltac:(lia)) as H.
  rewrite (UnsignedVarint32_one_byte len []) in H by lia.
  apply H; [exact Hin | cbn [List.length Z.of_nat app]; lia].
Qed.

Lemma within_end_before (c c' : Z) (r : t) :
  cursor r <= c' <= c -> c <= end_ r -> c' <= end_ r.
Proof. lia. Qed.

Lemma UnsignedVarint32_not_empty (v : Z) :
  0 <= v < 2 ^ 32 -> BinaryEncoder.UnsignedVarint32 v [] <> [].
Proof.
  intros Hv. rewrite UnsignedVarint32_as_bigint by exact Hv.
  rewrite UnsignedVarint_cons. discriminate.
Qed.

(** A packed field of unsigned 32-bit numbers whose payload has at most 127
    bytes, with a field number below [2 ^ 50]: on any buffer, the writer's
    [PackedUint32] appends the tag, one length byte and the varints; on the
    length byte and the varints, the reader's [PackedUint32] on a
    [DELIMITED] field returns the numbers in order and leaves the cursor
    just past the field. *)
Theorem PackedUint32_reads_PackedUint32
        (field : Z) (values : list Z) (buffer : list Z)
        (r : t) (rest : list Z) :
  1 <= field < 2 ^ 50 ->
  Forall (fun v => 0 <= v < 2 ^ 32) values ->
  let payload := flat_map (fun v => BinaryEncoder.UnsignedVarint32 v []) values in
  let len := Z.of_nat (List.length payload) in
  len <= 127 ->
  wire_is r WireType.DELIMITED = true ->
  holds r (len :: payload ++ rest) ->
  cursor r + 1 + len <= end_ r ->
  BinaryWriter.PackedUint32 field values buffer
  = Ok tt (buffer
           ++ BinaryEncoder.UnsignedVarint32 (field * 8 + WireType.DELIMITED) []
           ++ len :: payload)
  /\ PackedUint32 r = Ok values (set_cursor (cursor r + 1 + len) r).
Proof.
  intros Hf Hv payload len Hlen Hw Hin Hb. split.
  - unfold BinaryWriter.PackedUint32.
    apply (delimited_short field _ buffer payload Hf); [| lia].
    apply (for_each_appends _ _ (fun _ => True)).
    + intros v b _. apply UnsignedVarint32_app.
    + apply Forall_forall. intros; exact I.
  - unfold PackedUint32. unfold bind at 1. unfold get. rewrite Hw.
    unfold bind at 1.
    rewrite (Varint32_on_length_byte r len (payload ++ rest))
      by (first [exact Hin | lia]).
    unfold bind. unfold get.
    pose proof (holds_skip r [len] (payload ++ rest) Hin) as Hin'.
    cbn [List.length Z.of_nat] in Hin'.
    change (Z.pos (Pos.of_succ_nat 0)) with 1 in Hin'.
    set (r1 := set_cursor (cursor r + 1) r) in *.
    subst len payload.
    rewrite (Packed_loop_reads
               Varint32 Varint32_advances
               (fun v => BinaryEncoder.UnsignedVarint32 v [])
               (fun v => 0 <= v < 2 ^ 32) (fun _ => True)
               (fun r c => c <= end_ r)
               (fun _ _ _ => I) (fun _ _ _ H => H) within_end_before
               UnsignedVarint32_not_empty
               (fun r v rest Hv _ => Varint32_on_UnsignedVarint32 r v rest Hv)
               values [] r1 rest Hv I Hin');
      [| subst r1; cbn [cursor set_cursor end_]; lia].
    subst r1. rewrite set_cursor_twice. reflexivity.
Qed.

Lemma PackedUint32_reads_PackedUint32_witness :
  let r := set_nextWireType (Some 2) (set_cursor 1 (new [34; 3; 1; 172; 2; 8; 0])) in
  BinaryWriter.PackedUint32 4 [1; 300] [8; 1]
  = Ok tt [8; 1; 34; 3; 1; 172; 2]
  /\ PackedUint32 r = Ok [1; 300] (set_cursor 5 r).
Proof.
  intro r.
  apply (PackedUint32_reads_PackedUint32 4 [1; 300] [8; 1] r [8; 0]);
    computed.
Defined.

Lemma Zigzag64_as_unsigned (x : Z) (buffer : list Z) :
  - 2 ^ 63 <= x < 2 ^ 63 ->
  BinaryEncoder.Zigzag64 x buffer
  = BinaryEncoder.UnsignedVarint (if x <? 0 then - 2 * x - 1 else 2 * x) buffer.
Proof.
  intros Hx. unfold BinaryEncoder.Zigzag64.
  rewrite zigzag64_value by exact Hx.
  unfold BinaryEncoder.Varint.
  rewrite geb_true by (destruct (x <? 0) eqn:E;
                       [apply Z.ltb_lt in E | apply Z.ltb_ge in E]; lia).
  reflexivity.
Qed.

Lemma Zigzag64_app (x : Z) (buffer : list Z) :
  - 2 ^ 63 <= x < 2 ^ 63 ->
  BinaryEncoder.Zigzag64 x buffer = buffer ++ BinaryEncoder.Zigzag64 x [].
Proof.
  intros Hx. rewrite !Zigzag64_as_unsigned by exact Hx.
  apply UnsignedVarint_app.
Qed.

Lemma Zigzag64_not_empty (x : Z) :
  - 2 ^ 63 <= x < 2 ^ 63 -> BinaryEncoder.Zigzag64 x [] <> [].
Proof.
  intros Hx. rewrite Zigzag64_as_unsigned by exact Hx.
  rewrite UnsignedVarint_cons. discriminate.
Qed.

(** The zigzag 64-bit round trip: for an int64 [x] the writer's [Sint64]
    appends the tag and the bytes of [Zigzag64], and on these bytes the
    reader's [Sint64] on a [VARINT] field returns [x] and leaves the cursor
    just past them. *)
Theorem Sint64_reads_Zigzag64
        (field : Z) (buffer : list Z) (r : t) (x : Z) (rest : list Z) :
  1 <= field ->
  - 2 ^ 63 <= x < 2 ^ 63 ->
  wire_is r WireType.VARINT = true ->
  holds r (BinaryEncoder.Zigzag64 x [] ++ rest) ->
  cursor r + Z.of_nat (List.length (BinaryEncoder.Zigzag64 x [])) <= end_ r ->
  BinaryWriter.Sint64 field x buffer
  = Ok tt (buffer
           ++ BinaryEncoder.UnsignedVarint32 (field * 8 + WireType.VARINT) []
           ++ BinaryEncoder.Zigzag64 x [])
  /\ Sint64 r
     = Ok x (set_cursor
               (cursor r + Z.of_nat (List.length (BinaryEncoder.Zigzag64 x [])))
               r).
Proof.
  intros Hf Hx Hw Hin Hb. split.
  - unfold BinaryWriter.Sint64, TWO_TO_63.
    rewrite geb_true by lia. rewrite ltb_true by lia. cbn [andb].
    unfold bind.
    rewrite Tag_appends by (first [exact Hf | left; reflexivity]).
    unfold modify.
    rewrite Zigzag64_app by exact Hx. rewrite <- app_assoc. reflexivity.
  - exact (Sint64_on_Zigzag64 r x rest Hx Hw Hin Hb).
Qed.

Lemma Sint64_reads_Zigzag64_witness :
  let r := mk [24; 1] 2 1 (Some 3) (Some 0) (JS.Num 2) in
  BinaryWriter.Sint64 3 (-1) [8; 1] = Ok tt ([8; 1] ++ [24] ++ [1])
  /\ Sint64 r
     = Ok (-1)
          (set_cursor
             (cursor r + Z.of_nat (List.length (BinaryEncoder.Zigzag64 (-1) [])))
             r).
Proof.
  intro r. apply (Sint64_reads_Zigzag64 3 [8; 1] r (-1) []); computed.
Defined.

(** A packed field of signed 64-bit integers in zigzag form whose payload
    has at most 127 bytes, with a field number below [2 ^ 50]: on any
    buffer, the writer's [PackedSint64] appends the tag, one length byte and
    the zigzag varints; on the length byte and the varints, the reader's
    [PackedSint64] on a [DELIMITED] field returns the integers in order, and
    leaves the cursor just past the field and the wire type set to
    [VARINT]. *)
Theorem PackedSint64_reads_PackedSint64
        (field : Z) (values : list Z) (buffer : list Z)
        (r : t) (rest : list Z) :
  1 <= field < 2 ^ 50 ->
  Forall (fun v => - 2 ^ 63 <= v < 2 ^ 63) values ->
  let payload := flat_map (fun v => BinaryEncoder.Zigzag64 v []) values in
  let len := Z.of_nat (List.length payload) in
  len <= 127 ->
  wire_is r WireType.DELIMITED = true ->
  holds r (len :: payload ++ rest) ->
  cursor r + 1 + len <= end_ r ->
  BinaryWriter.PackedSint64 field values buffer
  = Ok tt (buffer
           ++ BinaryEncoder.UnsignedVarint32 (field * 8 + WireType.DELIMITED) []
           ++ len :: payload)
  /\ PackedSint64 r
     = Ok values
          (set_cursor (cursor r + 1 + len)
                      (set_nextWireType (Some WireType.VARINT) r)).
Proof.
  intros Hf Hv payload len Hlen Hw Hin Hb. split.
  - unfold BinaryWriter.PackedSint64.
    apply (delimited_short field _ buffer payload Hf); [| lia].
    apply (for_each_appends _ _ (fun v => - 2 ^ 63 <= v < 2 ^ 63));
      [| exact Hv].
    intros v b Hx. apply Zigzag64_app. exact Hx.
  - unfold PackedSint64. unfold bind at 1. unfold get. rewrite Hw.
    unfold bind at 1.
    rewrite (Varint32_on_length_byte r len (payload ++ rest))
      by (first [exact Hin | lia]).
    unfold bind at 1. unfold get. unfold bind. unfold modify.
    pose proof (holds_skip r [len] (payload ++ rest) Hin) as Hin'.
    cbn [List.length Z.of_nat] in Hin'.
    change (Z.pos (Pos.of_succ_nat 0)) with 1 in Hin'.
    apply (holds_same_input
             _ (set_nextWireType (Some WireType.VARINT)
                                 (set_cursor (cursor r + 1) r)))
      in Hin'; [| reflexivity | reflexivity].
    set (r1 := set_nextWireType (Some WireType.VARINT)
                                (set_cursor (cursor r + 1) r)) in *.
    change (cursor (set_cursor (cursor r + 1) r)) with (cursor r1).
    subst len payload.
    rewrite (Packed_loop_reads
               Sint64 Sint64_advances
               (fun v => BinaryEncoder.Zigzag64 v [])
               (fun v => - 2 ^ 63 <= v < 2 ^ 63)
               (fun r => wire_is r WireType.VARINT = true)
               (fun r c => c <= end_ r)
               (fun _ _ H => H) (fun _ _ _ H => H) within_end_before
               Zigzag64_not_empty
               Sint64_on_Zigzag64
               values [] r1 rest Hv eq_refl Hin');
      [| subst r1; cbn [cursor set_cursor set_nextWireType end_]; lia].
    subst r1. reflexivity.
Qed.

Lemma PackedSint64_reads_PackedSint64_witness :
  let r := set_nextWireType (Some 2) (set_cursor 1 (new [34; 3; 1; 172; 2; 8; 0])) in
  BinaryWriter.PackedSint64 4 [-1; 150] [8; 1]
  = Ok tt [8; 1; 34; 3; 1; 172; 2]
  /\ PackedSint64 r
     = Ok [-1; 150] (set_cursor 5 (set_nextWireType (Some 0) r)).
Proof.
  intro r.
  apply (PackedSint64_reads_PackedSint64 4 [-1; 150] [8; 1] r [8; 0]);
    computed.
Defined.

Lemma flat_map_singleton {A B} (f : A -> B) (l : list A) :
  flat_map (fun x => [f x]) l = map f l.
Proof.
  induction l as [| x l IH]; [reflexivity |].
  cbn [flat_map map app]. rewrite IH. reflexivity.
Qed.

(** [Bool] on a byte that the encoder's [Bool] wrote. *)
Lemma Bool_on_Bool (r : t) (v : bool) (rest : list Z) :
  wire_is r WireType.VARINT = true ->
  holds r ([if v then 1 else 0] ++ rest) ->
  Bool r = Ok v (set_cursor (cursor r + 1) r).
Proof.
  intros Hw Hin. unfold Bool. unfold bind at 1. unfold get. rewrite Hw.
  unfold bind, next_byte, ret.
  rewrite (holds_head r _ _ Hin). destruct v; reflexivity.
Qed.

(** A packed field of booleans, of any length below [2 ^ 32], with a field
    number below [2 ^ 50]: on any buffer, the writer's [PackedBool] appends
    the tag, the number of booleans as a varint and one byte for each; on
    the length and the bytes, the reader's [PackedBool] on
    a [DELIMITED] field returns the booleans in order, and leaves the cursor
    just past the field and the wire type set to [VARINT].  Only the length
    varint is checked against [end]. *)
Theorem PackedBool_reads_PackedBool
        (field : Z) (values : list bool) (buffer : list Z)
        (r : t) (rest : list Z) :
  1 <= field < 2 ^ 50 ->
  let n := Z.of_nat (List.length values) in
  n < 2 ^ 32 ->
  let len := BinaryEncoder.UnsignedVarint32 n [] in
  let payload := map (fun v : bool => if v then 1 else 0) values in
  wire_is r WireType.DELIMITED = true ->
  holds r (len ++ payload ++ rest) ->
  cursor r + Z.of_nat (List.length len) <= end_ r ->
  BinaryWriter.PackedBool field values buffer
  = Ok tt (buffer
           ++ BinaryEncoder.UnsignedVarint32 (field * 8 + WireType.DELIMITED) []
           ++ len ++ payload)
  /\ PackedBool r
     = Ok values
          (set_cursor (cursor r + Z.of_nat (List.length len) + n)
                      (set_nextWireType (Some WireType.VARINT) r)).
Proof.
  intros Hf n Hn len payload Hw Hin Hb. split.
  - unfold BinaryWriter.PackedBool. unfold bind at 1.
    rewrite Tag_appends by (unfold WireType.DELIMITED; lia).
    unfold bind at 1. unfold modify at 1.
    rewrite UnsignedVarint32_app. fold n. fold len.
    rewrite (for_each_appends BinaryEncoder.Bool
               (fun v : bool => [if v then 1 else 0]) (fun _ => True));
      [| intros; reflexivity | apply Forall_forall; intros; exact I].
    rewrite flat_map_singleton. rewrite <- !app_assoc.
    reflexivity.
  - unfold PackedBool. unfold bind at 1. unfold get. rewrite Hw.
    unfold bind at 1.
    rewrite (Varint32_on_UnsignedVarint32 r n (payload ++ rest))
      by (first [exact Hin | exact Hb | lia]).
    fold len.
    unfold bind at 1. unfold get. unfold bind. unfold modify.
    pose proof (holds_skip r len (payload ++ rest) Hin) as Hin'.
    apply (holds_same_input
             _ (set_nextWireType
                  (Some WireType.VARINT)
                  (set_cursor (cursor r + Z.of_nat (List.length len)) r)))
      in Hin'; [| reflexivity | reflexivity].
    set (r1 := set_nextWireType
                 (Some WireType.VARINT)
                 (set_cursor (cursor r + Z.of_nat (List.length len)) r)) in *.
    change (cursor (set_cursor (cursor r + Z.of_nat (List.length len)) r))
      with (cursor r1).
    assert (Hn' : n = Z.of_nat (List.length
                                  (flat_map (fun v : bool => [if v then 1 else 0])
                                            values))).
    { rewrite flat_map_singleton, length_map. reflexivity. }
    subst payload. rewrite <- flat_map_singleton in Hin'.
    rewrite Hn' at 1.
    rewrite (Packed_loop_reads
               Bool Bool_advances
               (fun v : bool => [if v then 1 else 0])
               (fun _ => True)
               (fun r => wire_is r WireType.VARINT = true)
               (fun _ _ => True)
               (fun _ _ H => H) (fun _ _ _ H => H) (fun _ _ _ _ H => H)
               (fun _ _ => ltac:(discriminate))
               (fun r v rest _ Hw Hin _ => Bool_on_Bool r v rest Hw Hin)
               values [] r1 rest
               ltac:(apply Forall_forall; intros; exact I) eq_refl Hin' I).
    rewrite <- Hn'. subst r1. reflexivity.
Qed.

Lemma PackedBool_reads_PackedBool_witness :
  let r := set_nextWireType (Some 2) (set_cursor 1 (new [42; 3; 1; 0; 1])) in
  BinaryWriter.PackedBool 5 [true; false; true] [8; 1]
  = Ok tt [8; 1; 42; 3; 1; 0; 1]
  /\ PackedBool r
     = Ok [true; false; true] (set_cursor 5 (set_nextWireType (Some 0) r)).
Proof.
  intro r.
  apply (PackedBool_reads_PackedBool 5 [true; false; true] [8; 1] r []);
    computed.
Defined.

End PackedRoundTrip.


(* ===================================================================== *)
(** ** Whole fields, from the writer to the reader *)
(* ===================================================================== *)

Section WholeFields.

Import BinaryReader.

(** A nested message of at most 127 bytes, with a field number below
    [2 ^ 50]: on any buffer, [Message] appends the tag, one length byte and
    the bytes that the message's own serializer appends, which is what
    [Bytes] writes for the same payload. *)
Theorem Message_frames_short_payload
        (field : Z) (message : BinaryWriter.Message_) (buffer payload : list Z) :
  1 <= field < 2 ^ 50 ->
  (forall w, BinaryWriter.serializeBinaryToWriter message w = Ok tt (w ++ payload)) ->
  (List.length payload <= 127)%nat ->
  BinaryWriter.Message field message buffer
  = Ok tt (buffer
           ++ BinaryEncoder.UnsignedVarint32 (field * 8 + WireType.DELIMITED) []
           ++ [Z.of_nat (List.length payload)] ++ payload)
  /\ BinaryWriter.Message field message buffer
     = BinaryWriter.Bytes field payload buffer.
Proof.
  intros Hf Hm Hlen.
  assert (H : BinaryWriter.Message field message buffer
              = Ok tt (buffer
                       ++ BinaryEncoder.UnsignedVarint32
                            (field * 8 + WireType.DELIMITED) []
                       ++ [Z.of_nat (List.length payload)] ++ payload)).
  { unfold BinaryWriter.Message.
    apply (delimited_short field _ buffer payload Hf); [apply Hm | exact Hlen]. }
  split; [exact H |]. rewrite H.
  unfold BinaryWriter.Bytes. unfold bind at 1.
  rewrite Tag_appends by (unfold WireType.DELIMITED; lia).
  unfold BinaryWriter.appendUint8Array, bind, modify.
  rewrite (UnsignedVarint32_one_byte (Z.of_nat (List.length payload))) by lia.
  rewrite <- !app_assoc. reflexivity.
Qed.

Lemma Message_frames_short_payload_witness :
  let message :=
    {| BinaryWriter.serializeBinaryToWriter := modify (fun w => w ++ [8; 150; 1]) |} in
  BinaryWriter.Message 2 message [8; 1] = Ok tt [8; 1; 18; 3; 8; 150; 1]
  /\ BinaryWriter.Message 2 message [8; 1]
     = BinaryWriter.Bytes 2 [8; 150; 1] [8; 1].
Proof.
  intro message.
  apply (Message_frames_short_payload 2 message [8; 1] [8; 150; 1]).
  - lia.
  - intros w. reflexivity.
  - simpl. lia.
Defined.

Lemma UnsignedVarint32_length (n : Z) :
  0 <= n < 2 ^ 32 ->
  (1 <= List.length (BinaryEncoder.UnsignedVarint32 n []) <= 5)%nat.
Proof.
  intros Hn. rewrite UnsignedVarint32_as_bigint by exact Hn.
  assert (H35 : Z.shiftr n (7 * Z.of_nat 4) <= 127).
  { rewrite Z.shiftr_div_pow2 by lia.
    apply Z.lt_succ_r. apply Z.div_lt_upper_bound; lia. }
  destruct (Z_le_gt_dec (Z.shiftr n (7 * Z.of_nat 0)) 127) as [L0 | G0].
  { rewrite (UnsignedVarint_length 0 n); [lia | bytes_before | exact L0]. }
  destruct (Z_le_gt_dec (Z.shiftr n (7 * Z.of_nat 1)) 127) as [L1 | G1].
  { rewrite (UnsignedVarint_length 1 n); [lia | bytes_before | exact L1]. }
  destruct (Z_le_gt_dec (Z.shiftr n (7 * Z.of_nat 2)) 127) as [L2 | G2].
  { rewrite (UnsignedVarint_length 2 n); [lia | bytes_before | exact L2]. }
  destruct (Z_le_gt_dec (Z.shiftr n (7 * Z.of_nat 3)) 127) as [L3 | G3].
  { rewrite (UnsignedVarint_length 3 n); [lia | bytes_before | exact L3]. }
  rewrite (UnsignedVarint_length 4 n); [lia | bytes_before | exact H35].
Qed.

(** The 32-bit unsigned round trip: for [n] in [[0, 2 ^ 32)],
    [UnsignedVarint32] appends between one and five octets, and on these
    bytes the reader's [Varint32] returns [n] and leaves the cursor just
    past them. *)
Theorem Varint32_reads_UnsignedVarint32 (r : t) (n : Z) (rest : list Z) :
  0 <= n < 2 ^ 32 ->
  let encoded := BinaryEncoder.UnsignedVarint32 n [] in
  holds r (encoded ++ rest) ->
  cursor r + Z.of_nat (List.length encoded) <= end_ r ->
  Forall Wire.octet encoded
  /\ (1 <= List.length encoded <= 5)%nat
  /\ Varint32 r
     = Ok n (set_cursor (cursor r + Z.of_nat (List.length encoded)) r).
Proof.
  intros Hn encoded Hin Hb. split; [| split].
  - subst encoded. rewrite UnsignedVarint32_as_bigint by exact Hn.
    apply UnsignedVarint_octets. lia.
  - apply UnsignedVarint32_length. exact Hn.
  - exact (Varint32_on_UnsignedVarint32 r n rest Hn Hin Hb).
Qed.

Lemma Varint32_reads_UnsignedVarint32_witness :
  let r := set_cursor 1 (new [8; 150; 1; 16; 7]) in
  let encoded := BinaryEncoder.UnsignedVarint32 150 [] in
  Forall Wire.octet encoded
  /\ (1 <= List.length encoded <= 5)%nat
  /\ Varint32 r
     = Ok 150 (set_cursor (cursor r + Z.of_nat (List.length encoded)) r).
Proof.
  intro r. apply (Varint32_reads_UnsignedVarint32 r 150 [16; 7]); computed.
Defined.

(** A [uint32] field, from the writer to the reader, inside the envelope of
    a response: on any buffer, the writer's [Uint32] appends the tag and the
    varint; on these bytes behind a five-byte envelope that carries their
    length, [Header] returns [true], [NextField] returns [true] and records
    the field number and the wire type, [Uint32] returns the value, and the
    next [NextField] returns [false] with the cursor at the end of the
    input. *)
Theorem Uint32_field_round_trip (b0 field v : Z) (buffer : list Z) :
  Wire.octet b0 -> 1 <= field < 2 ^ 28 -> 0 <= v < 2 ^ 32 ->
  let payload :=
    BinaryEncoder.UnsignedVarint32 (field * 8 + WireType.VARINT) []
    ++ BinaryEncoder.UnsignedVarint32 v [] in
  let input := [b0; 0; 0; 0; Z.of_nat (List.length payload)] ++ payload in
  BinaryWriter.Uint32 field v buffer = Ok tt (buffer ++ payload)
  /\ exists r1 r2 r3,
       Header (new input) = Ok true r1
       /\ NextField r1 = Ok true r2
       /\ FieldNumber r2 = Some field
       /\ Uint32 r2 = Ok v r3
       /\ NextField r3 = Ok false r3
       /\ cursor r3 = Z.of_nat (List.length input).
Proof.
  intros Hb0 Hf Hv payload input.
  set (tag := BinaryEncoder.UnsignedVarint32 (field * 8 + WireType.VARINT) [])
    in *.
  set (enc := BinaryEncoder.UnsignedVarint32 v []) in *.
  assert (Htag : (1 <= List.length tag <= 5)%nat).
  { apply UnsignedVarint32_length. unfold WireType.VARINT. lia. }
  assert (Henc : (1 <= List.length enc <= 5)%nat)
    by (apply UnsignedVarint32_length; exact Hv).
  assert (Hlen : List.length payload = (List.length tag + List.length enc)%nat)
    by (subst payload; apply length_app).
  set (l := Z.of_nat (List.length payload)) in *.
  assert (Hl : l = Z.of_nat (List.length tag) + Z.of_nat (List.length enc))
    by (subst l; lia).
  split.
  { unfold BinaryWriter.Uint32. unfold TWO_TO_32.
    rewrite geb_true by lia. rewrite ltb_true by lia. cbn [andb].
    unfold bind.
    rewrite Tag_appends by (first [lia | left; reflexivity]).
    unfold modify.
    rewrite UnsignedVarint32_app. unfold payload.
    rewrite <- app_assoc. reflexivity. }
  set (r0 := new input).
  assert (Hend : end_ r0 = 5 + l).
  { subst r0 input. cbn [new end_]. rewrite length_app.
    cbn [List.length]. lia. }
  (* the envelope *)
  assert (HH : Header r0
               = Ok true (set_length (JS.Num (0 + (l + 5))) (set_cursor 5 r0))).
  { unfold Header. unfold bind at 1. unfold get.
    rewrite geb_false by (rewrite Hend; cbn [cursor r0 new]; lia).
    unfold bind at 1.
    rewrite (Header_loop_five r0 b0 0 0 0 l);
      [| first [reflexivity | exact Hb0 | unfold Wire.octet; lia
               | rewrite Hend; cbn [cursor r0 new]; lia] ..].
    change (JS.to_int32 (Wire.big_endian4 0 0 0 0)) with 0.
    cbn [JS.eqb]. rewrite (proj2 (Z.eqb_neq (0 + l) 0)) by lia.
    unfold bind, modify, ret. cbn [JS.add length set_cursor r0 new cursor].
    do 3 f_equal. }
  set (r1 := set_length (JS.Num (0 + (l + 5))) (set_cursor 5 r0)) in *.
  assert (Hin1 : holds r1 (tag ++ enc)).
  { apply (holds_same_input
             (set_cursor (Z.of_nat (List.length [b0; 0; 0; 0; l]))
                         (new ([b0; 0; 0; 0; l] ++ payload))));
      [reflexivity | reflexivity |].
    apply holds_new. }
  (* the tag *)
  assert (HN := NextField_on_Tag r1 field WireType.VARINT enc).
  cbn zeta in HN. fold tag in HN.
  specialize (HN ltac:(lia) (or_introl eq_refl) Hin1).
  assert (Hb1 : cursor r1 + Z.of_nat (List.length tag) <= end_ r1)
    by (cbn [cursor end_ r1 set_length set_cursor]; rewrite Hend; lia).
  assert (Hm1 : JS.eqb (JS.Num (cursor r1)) (length r1) = false)
    by (cbn [cursor length r1 set_length set_cursor JS.eqb];
        apply Z.eqb_neq; lia).
  specialize (HN Hb1 Hm1). rewrite ltb_true in HN by lia.
  set (r2 := set_nextWireType
               (Some WireType.VARINT)
               (set_nextField
                  (Some field)
                  (set_cursor (cursor r1 + Z.of_nat (List.length tag)) r1))) in *.
  (* the value *)
  assert (Hin2 : holds r2 (enc ++ [])).
  { rewrite app_nil_r.
    apply (holds_same_input
             (set_cursor (cursor r1 + Z.of_nat (List.length tag)) r1));
      [reflexivity | reflexivity |].
    apply holds_skip. exact Hin1. }
  assert (HU : Uint32 r2
               = Ok v (set_cursor (cursor r2 + Z.of_nat (List.length enc)) r2)).
  { unfold Uint32. unfold bind. unfold get.
    change (wire_is r2 WireType.VARINT) with true. cbn iota.
    apply (Varint32_on_UnsignedVarint32 r2 v [] Hv Hin2).
    cbn [cursor end_ r2 r1 set_length set_cursor set_nextField set_nextWireType].
    fold enc. rewrite Hend. lia. }
  set (r3 := set_cursor (cursor r2 + Z.of_nat (List.length enc)) r2) in *.
  assert (Hc3 : cursor r3 = 5 + l).
  { cbn [cursor r3 r2 r1 set_length set_cursor set_nextField set_nextWireType].
    lia. }
  exists r1, r2, r3.
  split; [exact HH |]. split; [exact HN |]. split; [reflexivity |].
  split; [exact HU |]. split.
  - unfold NextField. unfold bind. unfold get.
    rewrite (proj2 (Z.geb_le (cursor r3) (end_ r3))); [reflexivity |].
    change (end_ r3) with (end_ r0). rewrite Hend, Hc3. lia.
  - rewrite Hc3. subst input. rewrite length_app. cbn [List.length]. lia.
Qed.

Lemma Uint32_field_round_trip_witness :
  let input := [0; 0; 0; 0; 3] ++ [8; 150; 1] in
  BinaryWriter.Uint32 1 150 [16; 7] = Ok tt ([16; 7] ++ [8; 150; 1])
  /\ exists r1 r2 r3,
       Header (new input) = Ok true r1
       /\ NextField r1 = Ok true r2
       /\ FieldNumber r2 = Some 1
       /\ Uint32 r2 = Ok 150 r3
       /\ NextField r3 = Ok false r3
       /\ cursor r3 = Z.of_nat (List.length input).
Proof.
  apply (Uint32_field_round_trip 0 1 150 [16; 7]); computed.
Defined.

End WholeFields.


(* ===================================================================== *)
(** ** Negative 32-bit numbers in their 64-bit wire form *)
(* ===================================================================== *)

Section NegativeInt32.

Import BinaryReader.

(** The varint that [UnsignedVarint] appends stands for its argument. *)
Lemma UnsignedVarint_value (n : Z) :
  0 <= n -> Wire.varint_value (BinaryEncoder.UnsignedVarint n []) = n.
Proof.
  intros Hn. pattern n. apply Zlt_0_ind; [| exact Hn].
  clear n Hn. intros n IH Hn.
  rewrite UnsignedVarint_cons. cbn [Wire.varint_value].
  rewrite land_127, varint_head_payload by exact Hn.
  destruct (n >? 127) eqn:E.
  - apply Z.gtb_lt in E. rewrite Z.shiftr_div_pow2 by lia.
    change (2 ^ 7) with 128.
    rewrite IH
      by (split; [apply Z.div_pos; lia | apply Z.div_lt_upper_bound; lia]).
    pose proof (Z.div_mod n 128 ltac:(lia)). lia.
  - apply gtb_le_127 in E. cbn [Wire.varint_value].
    rewrite Z.mod_small by lia. lia.
Qed.

(** A negative 32-bit number in the wire form of protocol buffers, the ten
    bytes of its 64-bit two's complement, which is what the encoder's
    [Varint] appends: [Varint32] returns the number and leaves the cursor
    just past the ten bytes. *)
Theorem Varint32_reads_negative_Varint (r : t) (v : Z) (rest : list Z) :
  - 2 ^ 31 <= v < 0 ->
  let encoded := BinaryEncoder.Varint v [] in
  holds r (encoded ++ rest) ->
  cursor r + 10 <= end_ r ->
  List.length encoded = 10%nat
  /\ Varint32 r = Ok v (set_cursor (cursor r + 10) r).
Proof.
  intros Hv encoded. subst encoded.
  rewrite Varint_negative_bytes by lia.
  set (u := v + 2 ^ 64).
  assert (Hu : 2 ^ 63 <= u < 2 ^ 64) by (subst u; lia).
  pose proof (UnsignedVarint_value u ltac:(lia)) as Hval.
  rewrite (UnsignedVarint_ten u Hu) in Hval |- *.
  intros Hin Hb. split; [reflexivity |].
  assert (K : forall k, continuation (u / 2 ^ k mod 128 + 128)).
  { intros k. pose proof (Z.mod_pos_bound (u / 2 ^ k) 128 ltac:(lia)).
    unfold continuation. lia. }
  assert (K0 : continuation (u mod 128 + 128)).
  { pose proof (Z.mod_pos_bound u 128 ltac:(lia)). unfold continuation. lia. }
  rewrite (Varint32_on_long_varint
             r _ _ _ _ _
             [u / 2 ^ 35 mod 128 + 128; u / 2 ^ 42 mod 128 + 128;
              u / 2 ^ 49 mod 128 + 128; u / 2 ^ 56 mod 128 + 128]
             1 rest Hin K0 (K 7) (K 14) (K 21) (K 28));
    [| repeat constructor; apply K | cbn [List.length]; lia | lia
     | cbn [List.length Z.of_nat Pos.of_succ_nat Pos.succ]; lia].
  cbn [app] in Hval |- *. rewrite Hval.
  cbn [List.length Z.of_nat Pos.of_succ_nat Pos.succ].
  f_equal; [| f_equal; lia].
  apply (to_int32_unique u v (- 2 ^ 32)); [lia | subst u; lia].
Qed.

Lemma Varint32_reads_negative_Varint_witness :
  let r := new [255; 255; 255; 255; 255; 255; 255; 255; 255; 1] in
  List.length (BinaryEncoder.Varint (-1) []) = 10%nat
  /\ Varint32 r = Ok (-1) (set_cursor (cursor r + 10) r).
Proof.
  intro r. apply (Varint32_reads_negative_Varint r (-1) []); computed.
Defined.

End NegativeInt32.


(* ===================================================================== *)
(** ** Strings *)
(* ===================================================================== *)

Section Strings.

Import BinaryReader.

(** [x | y] when the bits of [y] lie above those of [x]. *)
Lemma js_or_disjoint (x p k : Z) :
  0 <= k -> 0 <= x < 2 ^ k -> 0 <= p -> x + p * 2 ^ k < 2 ^ 31 ->
  JS.or x (p * 2 ^ k) = x + p * 2 ^ k
  /\ JS.or (p * 2 ^ k) x = x + p * 2 ^ k.
Proof.
  intros Hk Hx Hp Hr.
  assert (0 < 2 ^ k) by (apply Z.pow_pos_nonneg; lia).
  assert (0 <= p * 2 ^ k) by (apply Z.mul_nonneg_nonneg; lia).
  unfold JS.or. rewrite !to_int32_small by lia.
  rewrite (Z.lor_comm (p * 2 ^ k) x).
  split; apply lor_disjoint_add; lia.
Qed.

(** A code unit of the Basic Multilingual Plane that is not a surrogate. *)
Lemma utf8_one_byte (c : Z) :
  0 <= c < 128 -> BinaryEncoder.String_loop [c] [] = [c].
Proof.
  intros Hc. cbn [BinaryEncoder.String_loop]. rewrite ltb_true by lia.
  reflexivity.
Qed.

Lemma utf8_two_bytes (c : Z) :
  128 <= c < 2048 ->
  BinaryEncoder.String_loop [c] [] = [192 + c / 64; 128 + c mod 64].
Proof.
  intros Hc. cbn [BinaryEncoder.String_loop].
  rewrite ltb_false by lia. rewrite ltb_true by lia. cbn [app].
  rewrite js_shr_div by lia.
  change 63 with (Z.ones 6). rewrite js_and_ones by lia.
  change (2 ^ 6) with 64.
  pose proof (Z.mod_pos_bound c 64 ltac:(lia)).
  assert (0 <= c / 64 < 32)
    by (split; [apply Z.div_pos | apply Z.div_lt_upper_bound]; lia).
  replace (JS.or 192 (c / 64)) with (c / 64 + 3 * 2 ^ 6)
    by (symmetry; apply (js_or_disjoint (c / 64) 3 6); lia).
  replace (JS.or 128 (c mod 64)) with (c mod 64 + 1 * 2 ^ 7)
    by (symmetry; apply (js_or_disjoint (c mod 64) 1 7); lia).
  f_equal; [lia | f_equal; lia].
Qed.

Lemma utf8_three_bytes (c : Z) :
  2048 <= c < 65536 -> ~ 55296 <= c < 57344 ->
  BinaryEncoder.String_loop [c] []
  = [224 + c / 4096; 128 + c / 64 mod 64; 128 + c mod 64].
Proof.
  intros Hc Hs. cbn [BinaryEncoder.String_loop].
  rewrite !ltb_false by lia.
  replace ((c <? 55296) || (c >=? 57344)) with true.
  2:{ symmetry. apply orb_true_iff.
      destruct (Z_lt_dec c 55296); [left; apply Z.ltb_lt; lia |].
      right. apply geb_true. lia. }
  cbn [app].
  rewrite !js_shr_div by lia.
  change 63 with (Z.ones 6). rewrite !js_and_ones by lia.
  change (2 ^ 6) with 64. change (2 ^ 12) with 4096.
  pose proof (Z.mod_pos_bound c 64 ltac:(lia)).
  pose proof (Z.mod_pos_bound (c / 64) 64 ltac:(lia)).
  assert (0 <= c / 4096 < 16)
    by (split; [apply Z.div_pos | apply Z.div_lt_upper_bound]; lia).
  replace (JS.or 224 (c / 4096)) with (c / 4096 + 7 * 2 ^ 5)
    by (symmetry; apply (js_or_disjoint (c / 4096) 7 5); lia).
  replace (JS.or 128 (c / 64 mod 64)) with (c / 64 mod 64 + 1 * 2 ^ 7)
    by (symmetry; apply (js_or_disjoint (c / 64 mod 64) 1 7); lia).
  replace (JS.or 128 (c mod 64)) with (c mod 64 + 1 * 2 ^ 7)
    by (symmetry; apply (js_or_disjoint (c mod 64) 1 7); lia).
  f_equal; [lia | f_equal; [lia | f_equal; lia]].
Qed.

(** The bytes of one such code unit. *)
Lemma utf8_unit (c : Z) :
  scalar_unit c ->
  BinaryEncoder.String_loop [c] []
  = if c <? 128 then [c]
    else if c <? 2048 then [192 + c / 64; 128 + c mod 64]
    else [224 + c / 4096; 128 + c / 64 mod 64; 128 + c mod 64].
Proof.
  intros [Hc Hs].
  destruct (c <? 128) eqn:E1; [apply Z.ltb_lt in E1 | apply Z.ltb_ge in E1].
  { apply utf8_one_byte. lia. }
  destruct (c <? 2048) eqn:E2; [apply Z.ltb_lt in E2 | apply Z.ltb_ge in E2].
  { apply utf8_two_bytes. lia. }
  apply utf8_three_bytes; [lia | exact Hs].
Qed.

(** The four bytes of a surrogate pair. *)
Lemma utf8_pair (hi lo : Z) :
  55296 <= hi < 56320 -> 56320 <= lo < 57344 ->
  let cp := 65536 + (hi - 55296) * 1024 + (lo - 56320) in
  BinaryEncoder.String_loop [hi; lo] []
  = [240 + cp / 2 ^ 18; 128 + cp / 2 ^ 12 mod 64; 128 + cp / 64 mod 64;
     128 + cp mod 64].
Proof.
  intros Hhi Hlo cp. cbn [BinaryEncoder.String_loop].
  rewrite !(ltb_false hi) by lia. rewrite (geb_false hi) by lia.
  cbn [orb app].
  change 1023 with (Z.ones 10). rewrite js_and_ones, elem_and_ones by lia.
  replace (hi mod 2 ^ 10) with (hi - 55296) by (Z.div_mod_to_equations; lia).
  replace (lo mod 2 ^ 10) with (lo - 56320) by (Z.div_mod_to_equations; lia).
  rewrite js_shl_exact by lia.
  rewrite (proj2 (js_or_disjoint (lo - 56320) (hi - 55296) 10
                                 ltac:(lia) ltac:(lia) ltac:(lia) ltac:(lia))).
  replace (65536 + (lo - 56320 + (hi - 55296) * 2 ^ 10)) with cp
    by (subst cp; lia).
  assert (Hcp : 65536 <= cp < 1114112) by (subst cp; lia).
  clearbody cp.
  rewrite !js_shr_div by lia.
  change 63 with (Z.ones 6). rewrite !js_and_ones by lia.
  change (2 ^ 6) with 64.
  pose proof (Z.mod_pos_bound cp 64 ltac:(lia)).
  pose proof (Z.mod_pos_bound (cp / 64) 64 ltac:(lia)).
  pose proof (Z.mod_pos_bound (cp / 2 ^ 12) 64 ltac:(lia)).
  assert (0 <= cp / 2 ^ 18 < 8)
    by (split; [apply Z.div_pos | apply Z.div_lt_upper_bound]; lia).
  replace (JS.or 240 (cp / 2 ^ 18)) with (cp / 2 ^ 18 + 30 * 2 ^ 3)
    by (symmetry; apply (js_or_disjoint (cp / 2 ^ 18) 30 3); lia).
  replace (JS.or 128 (cp / 2 ^ 12 mod 64)) with (cp / 2 ^ 12 mod 64 + 1 * 2 ^ 7)
    by (symmetry; apply (js_or_disjoint (cp / 2 ^ 12 mod 64) 1 7); lia).
  replace (JS.or 128 (cp / 64 mod 64)) with (cp / 64 mod 64 + 1 * 2 ^ 7)
    by (symmetry; apply (js_or_disjoint (cp / 64 mod 64) 1 7); lia).
  replace (JS.or 128 (cp mod 64)) with (cp mod 64 + 1 * 2 ^ 7)
    by (symmetry; apply (js_or_disjoint (cp mod 64) 1 7); lia).
  f_equal; [lia | f_equal; [lia | f_equal; [lia | f_equal; lia]]].
Qed.

Lemma String_loop_char (ch : list Z) (str buffer : list Z) :
  utf16_char ch ->
  BinaryEncoder.String_loop (ch ++ str) buffer
  = BinaryEncoder.String_loop str (buffer ++ BinaryEncoder.String_loop ch []).
Proof.
  intros [c [Hc Hs] | hi lo Hhi Hlo].
  - cbn [app BinaryEncoder.String_loop].
    destruct (c <? 128); [reflexivity |].
    destruct (c <? 2048); [reflexivity |].
    replace ((c <? 55296) || (c >=? 57344)) with true; [reflexivity |].
    symmetry. apply orb_true_iff.
    destruct (Z_lt_dec c 55296); [left; apply Z.ltb_lt; lia |].
    right. apply geb_true. lia.
  - cbn [app BinaryEncoder.String_loop].
    rewrite !(ltb_false hi) by lia. rewrite (geb_false hi) by lia.
    reflexivity.
Qed.

(** The encoder appends the bytes of the characters in order. *)
Lemma String_loop_appends (chars : list (list Z)) :
  forall buffer,
    Forall utf16_char chars ->
    BinaryEncoder.String_loop (concat chars) buffer
    = buffer ++ flat_map (fun ch => BinaryEncoder.String_loop ch []) chars.
Proof.
  induction chars as [| ch chars IH]; intros buffer Hstr.
  - cbn [concat BinaryEncoder.String_loop flat_map]. rewrite app_nil_r.
    reflexivity.
  - apply Forall_cons_iff in Hstr. destruct Hstr as [Hc Hstr].
    cbn [concat]. rewrite String_loop_char by exact Hc.
    rewrite IH by exact Hstr.
    cbn [flat_map]. rewrite <- app_assoc. reflexivity.
Qed.

Lemma utf8_char_length (ch : list Z) :
  utf16_char ch ->
  (1 <= List.length (BinaryEncoder.String_loop ch []) <= 4)%nat
  /\ (List.length ch <= List.length (BinaryEncoder.String_loop ch []))%nat.
Proof.
  intros [c Hc | hi lo Hhi Hlo].
  - rewrite utf8_unit by exact Hc.
    destruct (c <? 128); [cbn [List.length]; lia |].
    destruct (c <? 2048); cbn [List.length]; lia.
  - rewrite utf8_pair by assumption. cbn [List.length]. lia.
Qed.

(** The bytes at a position of the input, whatever the cursor. *)
Lemma holds_at_position (r : t) (cur : Z) (e rest : list Z) (j : nat) (b : Z) :
  holds (set_cursor cur r) (e ++ rest) -> nth_error e j = Some b ->
  byte_at r (cur + Z.of_nat j) = Some b.
Proof.
  intros Hin Hn. exact (holds_nth (set_cursor cur r) e rest j b Hin Hn).
Qed.

(** One turn of the decoding loop of [String] on the bytes of a code unit
    that is not a surrogate. *)
Lemma String_body_decodes_unit (r : t) (c cur : Z) (codeUnits rest : list Z) :
  scalar_unit c ->
  holds (set_cursor cur r) (BinaryEncoder.String_loop [c] [] ++ rest) ->
  String_body r (byte_at r cur) (cur + 1) codeUnits
  = (cur + Z.of_nat (List.length (BinaryEncoder.String_loop [c] [])),
     codeUnits ++ [c]).
Proof.
  intros Hc. rewrite (utf8_unit c Hc). destruct Hc as [Hc Hs].
  destruct (c <? 128) eqn:E1; [apply Z.ltb_lt in E1 | apply Z.ltb_ge in E1].
  { intros Hin.
    pose proof (holds_at_position r cur _ rest 0 c Hin eq_refl) as H0.
    cbn [Z.of_nat] in H0. rewrite Z.add_0_r in H0. rewrite H0.
    unfold String_body. rewrite ltb_true by lia. reflexivity. }
  pose proof (Z.mod_pos_bound c 64 ltac:(lia)) as Hm.
  destruct (c <? 2048) eqn:E2; [apply Z.ltb_lt in E2 | apply Z.ltb_ge in E2].
  { intros Hin.
    assert (Hq : 0 <= c / 64 < 32)
      by (split; [apply Z.div_pos | apply Z.div_lt_upper_bound]; lia).
    pose proof (holds_at_position r cur _ rest 0 _ Hin eq_refl) as H0.
    pose proof (holds_at_position r cur _ rest 1 _ Hin eq_refl) as H1.
    cbn [Z.of_nat Pos.of_succ_nat] in H0, H1. rewrite Z.add_0_r in H0.
    rewrite H0. unfold String_body.
    rewrite !ltb_false by lia. rewrite ltb_true by lia.
    rewrite H1. cbn [List.length Z.of_nat Pos.of_succ_nat Pos.succ].
    change 31 with (Z.ones 5). rewrite js_and_ones by lia.
    change 63 with (Z.ones 6). rewrite elem_and_ones by lia.
    replace ((192 + c / 64) mod 2 ^ 5) with (c / 64)
      by (Z.div_mod_to_equations; lia).
    replace ((128 + c mod 64) mod 2 ^ 6) with (c mod 64)
      by (Z.div_mod_to_equations; lia).
    rewrite js_shl_exact by lia.
    rewrite (proj2 (js_or_disjoint (c mod 64) (c / 64) 6 ltac:(lia) ltac:(lia)
                                   ltac:(lia) ltac:(lia))).
    f_equal; [lia |]. do 2 f_equal. Z.div_mod_to_equations; lia. }
  intros Hin.
  assert (Hq : 0 <= c / 4096 < 16)
    by (split; [apply Z.div_pos | apply Z.div_lt_upper_bound]; lia).
  pose proof (Z.mod_pos_bound (c / 64) 64 ltac:(lia)) as Hm'.
  pose proof (holds_at_position r cur _ rest 0 _ Hin eq_refl) as H0.
  pose proof (holds_at_position r cur _ rest 1 _ Hin eq_refl) as H1.
  pose proof (holds_at_position r cur _ rest 2 _ Hin eq_refl) as H2.
  cbn [Z.of_nat Pos.of_succ_nat Pos.succ] in H0, H1, H2.
  rewrite Z.add_0_r in H0.
  rewrite H0. unfold String_body.
  rewrite !ltb_false by lia. rewrite ltb_true by lia.
  replace (cur + 1 + 1) with (cur + 2) by lia.
  rewrite H1, H2. cbn [List.length Z.of_nat Pos.of_succ_nat Pos.succ].
  change 15 with (Z.ones 4). rewrite js_and_ones by lia.
  change 63 with (Z.ones 6). rewrite !elem_and_ones by lia.
  replace ((224 + c / 4096) mod 2 ^ 4) with (c / 4096)
    by (Z.div_mod_to_equations; lia).
  replace ((128 + c / 64 mod 64) mod 2 ^ 6) with (c / 64 mod 64)
    by (Z.div_mod_to_equations; lia).
  replace ((128 + c mod 64) mod 2 ^ 6) with (c mod 64)
    by (Z.div_mod_to_equations; lia).
  rewrite !js_shl_exact by lia.
  rewrite (proj2 (js_or_disjoint (c / 64 mod 64 * 2 ^ 6) (c / 4096) 12
                                 ltac:(lia) ltac:(lia) ltac:(lia) ltac:(lia))).
  replace (c / 64 mod 64 * 2 ^ 6 + c / 4096 * 2 ^ 12)
    with ((c / 64 mod 64 + c / 4096 * 64) * 2 ^ 6) by lia.
  rewrite (proj2 (js_or_disjoint (c mod 64) (c / 64 mod 64 + c / 4096 * 64) 6
                                 ltac:(lia) ltac:(lia) ltac:(lia) ltac:(lia))).
  f_equal; [lia |]. do 2 f_equal. Z.div_mod_to_equations; lia.
Qed.

(** One turn of the decoding loop on the four bytes of a surrogate
    pair. *)
Lemma String_body_decodes_pair (r : t) (hi lo cur : Z) (codeUnits rest : list Z) :
  55296 <= hi < 56320 -> 56320 <= lo < 57344 ->
  holds (set_cursor cur r) (BinaryEncoder.String_loop [hi; lo] [] ++ rest) ->
  String_body r (byte_at r cur) (cur + 1) codeUnits
  = (cur + Z.of_nat (List.length (BinaryEncoder.String_loop [hi; lo] [])),
     codeUnits ++ [hi; lo]).
Proof.
  intros Hhi Hlo. rewrite (utf8_pair hi lo Hhi Hlo).
  set (cp := 65536 + (hi - 55296) * 1024 + (lo - 56320)).
  assert (Hcp : 65536 <= cp < 1114112) by (subst cp; lia).
  assert (Hh : hi = (cp - 65536) / 1024 + 55296)
    by (subst cp; Z.div_mod_to_equations; lia).
  assert (Hl : lo = (cp - 65536) mod 1024 + 56320)
    by (subst cp; Z.div_mod_to_equations; lia).
  clearbody cp. intros Hin.
  pose proof (Z.mod_pos_bound cp 64 ltac:(lia)).
  pose proof (Z.mod_pos_bound (cp / 64) 64 ltac:(lia)).
  pose proof (Z.mod_pos_bound (cp / 2 ^ 12) 64 ltac:(lia)).
  assert (0 <= cp / 2 ^ 18 < 8)
    by (split; [apply Z.div_pos | apply Z.div_lt_upper_bound]; lia).
  pose proof (holds_at_position r cur _ rest 0 _ Hin eq_refl) as B0.
  pose proof (holds_at_position r cur _ rest 1 _ Hin eq_refl) as B1.
  pose proof (holds_at_position r cur _ rest 2 _ Hin eq_refl) as B2.
  pose proof (holds_at_position r cur _ rest 3 _ Hin eq_refl) as B3.
  cbn [Z.of_nat Pos.of_succ_nat Pos.succ] in B0, B1, B2, B3.
  rewrite Z.add_0_r in B0.
  rewrite B0. unfold String_body.
  rewrite !ltb_false by lia. rewrite ltb_true by lia.
  replace (cur + 1 + 1) with (cur + 2) by lia.
  replace (cur + 1 + 2) with (cur + 3) by lia.
  rewrite B1, B2, B3. cbn [List.length Z.of_nat Pos.of_succ_nat Pos.succ].
  change 7 with (Z.ones 3). rewrite js_and_ones by lia.
  change 63 with (Z.ones 6). rewrite !elem_and_ones by lia.
  replace ((240 + cp / 2 ^ 18) mod 2 ^ 3) with (cp / 2 ^ 18)
    by (Z.div_mod_to_equations; lia).
  replace ((128 + cp / 2 ^ 12 mod 64) mod 2 ^ 6) with (cp / 2 ^ 12 mod 64)
    by (Z.div_mod_to_equations; lia).
  replace ((128 + cp / 64 mod 64) mod 2 ^ 6) with (cp / 64 mod 64)
    by (Z.div_mod_to_equations; lia).
  replace ((128 + cp mod 64) mod 2 ^ 6) with (cp mod 64)
    by (Z.div_mod_to_equations; lia).
  rewrite !js_shl_exact by lia.
  rewrite (proj2 (js_or_disjoint (cp / 2 ^ 12 mod 64 * 2 ^ 12) (cp / 2 ^ 18) 18
                                 ltac:(lia) ltac:(lia) ltac:(lia) ltac:(lia))).
  replace (cp / 2 ^ 12 mod 64 * 2 ^ 12 + cp / 2 ^ 18 * 2 ^ 18)
    with ((cp / 2 ^ 12 mod 64 + cp / 2 ^ 18 * 64) * 2 ^ 12) by lia.
  rewrite (proj2 (js_or_disjoint (cp / 64 mod 64 * 2 ^ 6)
                                 (cp / 2 ^ 12 mod 64 + cp / 2 ^ 18 * 64) 12
                                 ltac:(lia) ltac:(lia) ltac:(lia) ltac:(lia))).
  replace (cp / 64 mod 64 * 2 ^ 6
           + (cp / 2 ^ 12 mod 64 + cp / 2 ^ 18 * 64) * 2 ^ 12)
    with ((cp / 64 mod 64 + cp / 2 ^ 12 mod 64 * 64 + cp / 2 ^ 18 * 4096) * 2 ^ 6)
    by lia.
  rewrite (proj2 (js_or_disjoint
                    (cp mod 64)
                    (cp / 64 mod 64 + cp / 2 ^ 12 mod 64 * 64 + cp / 2 ^ 18 * 4096)
                    6 ltac:(lia) ltac:(lia) ltac:(lia) ltac:(lia))).
  replace (cp mod 64
           + (cp / 64 mod 64 + cp / 2 ^ 12 mod 64 * 64 + cp / 2 ^ 18 * 4096)
             * 2 ^ 6)
    with cp by (Z.div_mod_to_equations; lia).
  rewrite js_shr_div by lia.
  change 1023 with (Z.ones 10). rewrite !js_and_ones by lia.
  change (2 ^ 10) with 1024.
  replace ((cp - 65536) / 1024 mod 1024) with ((cp - 65536) / 1024)
    by (Z.div_mod_to_equations; lia).
  rewrite <- Hh, <- Hl.
  f_equal. lia.
Qed.

Lemma String_body_decodes (r : t) (ch : list Z) (cur : Z)
      (codeUnits rest : list Z) :
  utf16_char ch ->
  holds (set_cursor cur r) (BinaryEncoder.String_loop ch [] ++ rest) ->
  String_body r (byte_at r cur) (cur + 1) codeUnits
  = (cur + Z.of_nat (List.length (BinaryEncoder.String_loop ch [])),
     codeUnits ++ ch).
Proof.
  intros [c Hc | hi lo Hhi Hlo].
  - apply String_body_decodes_unit. exact Hc.
  - apply String_body_decodes_pair; assumption.
Qed.

(** The decoding loop of [String], one turn at a time. *)
Lemma String_loop_step (r : t) (end' cur : Z) (codeUnits : list Z) :
  String_loop r end' cur codeUnits
  = if cur <? end'
    then String_loop r end'
           (fst (String_body r (byte_at r cur) (cur + 1) codeUnits))
           (snd (String_body r (byte_at r cur) (cur + 1) codeUnits))
    else (cur, codeUnits).
Proof.
  rewrite (String_loop_equation_1 r end' cur codeUnits).
  destruct (Z_lt_dec cur end') as [L | G]; cbn.
  - rewrite ltb_true by lia. reflexivity.
  - rewrite ltb_false by lia. reflexivity.
Qed.

(** On the bytes of a well-formed string, with [end] just past them, the
    loop returns the code units of the string. *)
Lemma String_loop_reads (chars : list (list Z)) :
  forall (r : t) (cur : Z) (codeUnits rest : list Z),
    Forall utf16_char chars ->
    holds (set_cursor cur r)
          (flat_map (fun ch => BinaryEncoder.String_loop ch []) chars ++ rest) ->
    let n := Z.of_nat (List.length
                         (flat_map (fun ch => BinaryEncoder.String_loop ch [])
                                   chars)) in
    String_loop r (cur + n) cur codeUnits = (cur + n, codeUnits ++ concat chars).
Proof.
  induction chars as [| ch chars IH]; intros r cur codeUnits rest Hstr Hin n.
  - subst n. cbn [flat_map List.length Z.of_nat concat].
    rewrite String_loop_step. rewrite ltb_false by lia.
    rewrite Z.add_0_r, app_nil_r. reflexivity.
  - apply Forall_cons_iff in Hstr. destruct Hstr as [Hc Hstr].
    subst n. cbn [flat_map concat] in Hin |- *. rewrite <- app_assoc in Hin.
    rewrite length_app.
    pose proof (proj1 (utf8_char_length ch Hc)) as Hlen.
    rewrite String_loop_step. rewrite ltb_true by lia.
    rewrite (String_body_decodes r ch cur codeUnits _ Hc Hin).
    cbn [fst snd].
    pose proof (holds_skip (set_cursor cur r) _ _ Hin) as Hin'.
    change (set_cursor
              (cursor (set_cursor cur r)
               + Z.of_nat (List.length (BinaryEncoder.String_loop ch [])))
              (set_cursor cur r))
      with (set_cursor
              (cur + Z.of_nat (List.length (BinaryEncoder.String_loop ch []))) r)
      in Hin'.
    pose proof (IH r _ (codeUnits ++ ch) rest Hstr Hin') as H.
    cbn zeta in H.
    rewrite Nat2Z.inj_add, Z.add_assoc. rewrite H.
    rewrite <- app_assoc. reflexivity.
Qed.

Lemma fromCharCode_chars (chars : list (list Z)) :
  Forall utf16_char chars -> JS.fromCharCode (concat chars) = concat chars.
Proof.
  unfold JS.fromCharCode.
  induction 1 as [| ch chars Hc _ IH]; [reflexivity |].
  cbn [concat]. rewrite map_app, IH. f_equal.
  destruct Hc as [c [Hc _] | hi lo Hhi Hlo]; cbn [map];
    rewrite ?Z.mod_small by lia; reflexivity.
Qed.

Lemma utf8_length (chars : list (list Z)) :
  Forall utf16_char chars ->
  (List.length (concat chars)
   <= List.length (flat_map (fun ch => BinaryEncoder.String_loop ch []) chars))%nat.
Proof.
  induction 1 as [| ch chars Hc _ IH]; [cbn; lia |].
  cbn [flat_map concat]. rewrite !length_app.
  pose proof (proj2 (utf8_char_length ch Hc)). lia.
Qed.

(** The round trip of a well-formed UTF-16 string, given by its characters,
    whose UTF-8 form has [n < 2 ^ 32] bytes: on any buffer, the encoder's
    [String] appends these bytes and returns [n]; on a length varint and
    these bytes, the reader's [String] on a [DELIMITED] field returns the
    string and leaves the cursor just past them, only the length varint
    being checked against [end]; and when [n <= 127] and the field number
    is below [2 ^ 50], the writer's [String] appends, on any buffer, the
    tag, the length byte and these bytes. *)
Theorem String_reads_String
        (field : Z) (buffer : list Z) (r : t) (chars : list (list Z))
        (rest : list Z) :
  Forall utf16_char chars ->
  let str := concat chars in
  let encoded := snd (BinaryEncoder.String str []) in
  let n := Z.of_nat (List.length encoded) in
  n < 2 ^ 32 ->
  let len := BinaryEncoder.UnsignedVarint32 n [] in
  wire_is r WireType.DELIMITED = true ->
  holds r (len ++ encoded ++ rest) ->
  cursor r + Z.of_nat (List.length len) <= end_ r ->
  BinaryEncoder.String str buffer = (n, buffer ++ encoded)
  /\ String r
     = Ok str (set_cursor (cursor r + Z.of_nat (List.length len) + n) r)
  /\ (1 <= field < 2 ^ 50 -> n <= 127 ->
      BinaryWriter.String field str buffer
      = Ok tt (buffer
               ++ BinaryEncoder.UnsignedVarint32
                    (field * 8 + WireType.DELIMITED) []
               ++ len ++ encoded)).
Proof.
  intros Hstr str encoded n Hn len Hw Hin Hb.
  assert (Henc : encoded
                 = flat_map (fun ch => BinaryEncoder.String_loop ch []) chars).
  { subst encoded str. unfold BinaryEncoder.String. cbn [snd].
    rewrite String_loop_appends by exact Hstr. reflexivity. }
  split; [| split].
  - unfold BinaryEncoder.String, BinaryEncoder.Length. unfold str at 1 2.
    rewrite String_loop_appends by exact Hstr. rewrite <- Henc.
    rewrite length_app. f_equal. subst n. lia.
  - unfold String. unfold bind at 1. unfold get. rewrite Hw.
    unfold bind at 1.
    rewrite (Varint32_on_UnsignedVarint32 r n (encoded ++ rest))
      by (first [exact Hin | exact Hb | lia]).
    fold len. unfold bind at 1. unfold get.
    replace ((n <? 0) || (n >? TWO_TO_52)) with false
      by (symmetry; apply orb_false_iff; split;
          [apply ltb_false; lia | apply gtb_false; unfold TWO_TO_52; lia]).
    pose proof (holds_skip r len (encoded ++ rest) Hin) as Hin'.
    set (r1 := set_cursor (cursor r + Z.of_nat (List.length len)) r) in *.
    rewrite Henc in Hin'.
    pose proof (String_loop_reads
                  chars r1 (cursor r1) [] rest Hstr
                  (holds_same_input r1 (set_cursor (cursor r1) r1) _
                                    eq_refl eq_refl Hin')) as Hloop.
    cbn zeta in Hloop. rewrite <- Henc in Hloop. fold n in Hloop.
    rewrite Hloop. unfold bind, modify, ret. cbn [app]. fold str.
    unfold str at 1. rewrite fromCharCode_chars by exact Hstr.
    subst r1. reflexivity.
  - intros Hf Hn'. unfold BinaryWriter.String.
    assert (Hl : Z.of_nat (List.length str) <= 127).
    { pose proof (utf8_length chars Hstr) as H. rewrite <- Henc in H.
      subst n str. lia. }
    replace ((Z.of_nat (List.length str) <? 0)
             || (Z.of_nat (List.length str) >? TWO_TO_52)) with false
      by (symmetry; apply orb_false_iff; split;
          [apply ltb_false; lia | apply gtb_false; unfold TWO_TO_52; lia]).
    subst len. rewrite (UnsignedVarint32_one_byte n []) by exact Hn'.
    apply (delimited_short
             field
             (modify (fun b => snd (BinaryEncoder.String str b)))
             buffer encoded Hf); [| subst n; lia].
    unfold modify. f_equal. unfold BinaryEncoder.String. cbn [snd].
    unfold str. rewrite String_loop_appends by exact Hstr.
    rewrite Henc. reflexivity.
Qed.

Lemma String_reads_String_witness :
  let r := set_nextWireType
             (Some 2)
             (set_cursor 1 (new [10; 10; 72; 195; 169; 226; 130; 172;
                                 240; 159; 152; 128; 16])) in
  BinaryEncoder.String [72; 233; 8364; 55357; 56832] [8; 1]
  = (10, [8; 1; 72; 195; 169; 226; 130; 172; 240; 159; 152; 128])
  /\ String r = Ok [72; 233; 8364; 55357; 56832] (set_cursor 12 r)
  /\ (1 <= 1 < 2 ^ 50 -> 10 <= 127 ->
      BinaryWriter.String 1 [72; 233; 8364; 55357; 56832] [8; 1]
      = Ok tt [8; 1; 10; 10; 72; 195; 169; 226; 130; 172; 240; 159; 152;
               128]).
Proof.
  intro r.
  apply (String_reads_String
           1 [8; 1] r [[72]; [233]; [8364]; [55357; 56832]] [16]).
  - repeat constructor; unfold scalar_unit; lia.
  - vm_compute. reflexivity.
  - reflexivity.
  - computed.
  - computed.
Defined.

End Strings.


(* ===================================================================== *)
(** ** Fixed 64-bit fields *)
(* ===================================================================== *)

Section Fixed64RoundTrip.

Import BinaryReader.

(** A shifted integer of at most 53 bits is a Number as it is. *)
Lemma binary64_shiftr (value k : Z) :
  - 2 ^ 53 < value < 2 ^ 53 -> 0 <= k ->
  JS.binary64 (Z.shiftr value k) = value / 2 ^ k.
Proof.
  intros Hv Hk. rewrite Z.shiftr_div_pow2 by exact Hk.
  apply binary64_exact.
  assert (Hp : 0 < 2 ^ k) by (apply Z.pow_pos_nonneg; lia).
  split.
  - apply Z.lt_le_trans with (- 2 ^ 53 + 1); [lia |].
    apply Z.div_le_lower_bound; [exact Hp | nia].
  - apply Z.div_lt_upper_bound; [exact Hp | nia].
Qed.

(** The eight elements that [Fixed64] pushes for an integer of at most 53
    bits, once stored in a [Uint8Array]. *)
Lemma Fixed64_bytes (value : Z) :
  - 2 ^ 53 < value < 2 ^ 53 ->
  JS.Uint8Array_of (BinaryEncoder.Fixed64 value [])
  = [value mod 256; value / 2 ^ 8 mod 256; value / 2 ^ 16 mod 256;
     value / 2 ^ 24 mod 256; value / 2 ^ 32 mod 256; value / 2 ^ 40 mod 256;
     value / 2 ^ 48 mod 256; value / 2 ^ 56 mod 256].
Proof.
  intros Hv.
  unfold BinaryEncoder.Fixed64, JS.Uint8Array_of. cbn [app map].
  rewrite !binary64_shiftr by (first [exact Hv | lia]).
  change (2 ^ 0) with 1. rewrite Z.div_1_r. reflexivity.
Qed.

(** The fixed 64-bit round trip, on the integers that a JavaScript number
    holds exactly (the elements that [Fixed64] pushes and the sum that the
    reader computes are numbers): on the eight bytes that the encoder's
    [Fixed64] appends for [value], the reader's [Fixed64] on a [FIXED64]
    field returns [value]. *)
Theorem Fixed64_reads_Fixed64 (r : t) (value : Z) (rest : list Z) :
  - 2 ^ 53 < value < 2 ^ 53 ->
  wire_is r WireType.FIXED64 = true ->
  holds r (JS.Uint8Array_of (BinaryEncoder.Fixed64 value []) ++ rest) ->
  cursor r + 8 <= end_ r ->
  Fixed64 r = Ok value (set_cursor (cursor r + 8) r).
Proof.
  intros Hv Hw. rewrite Fixed64_bytes by exact Hv. intros Hin Hend.
  set (b0 := value mod 256) in *. set (b1 := value / 2 ^ 8 mod 256) in *.
  set (b2 := value / 2 ^ 16 mod 256) in *.
  set (b3 := value / 2 ^ 24 mod 256) in *.
  set (b4 := value / 2 ^ 32 mod 256) in *.
  set (b5 := value / 2 ^ 40 mod 256) in *.
  set (b6 := value / 2 ^ 48 mod 256) in *.
  set (b7 := value / 2 ^ 56 mod 256) in *.
  assert (O0 : Wire.octet b0) by (subst b0; apply Z.mod_pos_bound; lia).
  assert (O1 : Wire.octet b1) by (subst b1; apply Z.mod_pos_bound; lia).
  assert (O2 : Wire.octet b2) by (subst b2; apply Z.mod_pos_bound; lia).
  assert (O3 : Wire.octet b3) by (subst b3; apply Z.mod_pos_bound; lia).
  assert (O4 : Wire.octet b4) by (subst b4; apply Z.mod_pos_bound; lia).
  assert (O5 : Wire.octet b5) by (subst b5; apply Z.mod_pos_bound; lia).
  assert (O6 : Wire.octet b6) by (subst b6; apply Z.mod_pos_bound; lia).
  assert (O7 : Wire.octet b7) by (subst b7; apply Z.mod_pos_bound; lia).
  assert (Hlow : word_at r
                 = JS.to_int32 (b0 + b1 * 2 ^ 8 + b2 * 2 ^ 16 + b3 * 2 ^ 24)).
  { apply (word_at_value r b0 b1 b2 b3 ([b4; b5; b6; b7] ++ rest));
      assumption. }
  pose proof (holds_skip r [b0; b1; b2; b3] ([b4; b5; b6; b7] ++ rest) Hin)
    as Hin'.
  cbn [List.length Z.of_nat Pos.of_succ_nat Pos.succ] in Hin'.
  assert (Hhigh : word_at (set_cursor (cursor r + 4) r)
                  = JS.to_int32 (b4 + b5 * 2 ^ 8 + b6 * 2 ^ 16 + b7 * 2 ^ 24)).
  { apply (word_at_value _ b4 b5 b6 b7 rest); assumption. }
  unfold Fixed64. unfold bind at 1. unfold get. rewrite Hw.
  unfold bind at 1. rewrite advance_in_bounds by lia.
  unfold bind at 1. unfold get.
  unfold bind. rewrite advance_in_bounds by (cbn [cursor end_ set_cursor]; lia).
  unfold ret. rewrite set_cursor_twice. cbn [cursor set_cursor].
  rewrite Hlow, Hhigh.
  replace (cursor r + 4 + 4) with (cursor r + 8) by lia.
  f_equal. unfold JS.ushr. rewrite to_uint32_to_int32.
  change (0 mod 32) with 0. rewrite Z.shiftr_0_r. unfold TWO_TO_32.
  replace (b0 + b1 * 2 ^ 8 + b2 * 2 ^ 16 + b3 * 2 ^ 24)
    with (value mod 2 ^ 32)
    by (subst b0 b1 b2 b3; Z.div_mod_to_equations; lia).
  rewrite Z.mod_mod by lia.
  replace (b4 + b5 * 2 ^ 8 + b6 * 2 ^ 16 + b7 * 2 ^ 24)
    with (value / 2 ^ 32 mod 2 ^ 32)
    by (subst b4 b5 b6 b7; Z.div_mod_to_equations; lia).
  rewrite (to_int32_unique _ (value / 2 ^ 32)
             (value / 2 ^ 32 / 2 ^ 32));
    [| Z.div_mod_to_equations; lia | Z.div_mod_to_equations; lia].
  rewrite plus_exact by (right; Z.div_mod_to_equations; lia).
  Z.div_mod_to_equations; lia.
Qed.

Lemma Fixed64_reads_Fixed64_witness :
  let r := set_nextWireType
             (Some 1) (set_cursor 1 (new [9; 254; 255; 255; 255; 255; 255; 255; 255])) in
  Fixed64 r = Ok (-2) (set_cursor 9 r).
Proof.
  intro r. apply (Fixed64_reads_Fixed64 r (-2) []); computed.
Defined.

End Fixed64RoundTrip.


(* ===================================================================== *)
(** ** Skipping, the first field, and map entries *)
(* ===================================================================== *)

Section SkipAndMap.

Import BinaryReader.

(** The loop of [skipField] moves the cursor only, and not past [end]
    unless it was there before. *)
Lemma skip_varint_moves : moves 0 (fun r => skip_varint r).
Proof.
  intros r. 
  remember (Z.to_nat (end_ r + 1 - cursor r)) as m eqn:Hm.
  revert r Hm. induction m as [m IH] using lt_wf_ind. intros r Hm r' u.
  rewrite skip_varint_step.
  destruct (JS.elem_and (byte_at r (cursor r)) 128 =? 0).
  - apply (ret_moves tt).
  - destruct (cursor r + 1 >? end_ r) eqn:E; [discriminate |].
    rewrite Z.gtb_ltb in E. apply Z.ltb_ge in E.
    intros H.
    destruct (IH (Z.to_nat (end_ r + 1 - (cursor r + 1)))
                 ltac:(lia) (set_cursor (cursor r + 1) r) eq_refl r' u H)
      as [k [Hk [-> Hb]]].
    cbn [cursor end_ set_cursor] in Hb |- *.
    exists (1 + k). split; [lia |]. split; [| lia].
    rewrite set_cursor_twice. f_equal. lia.
Qed.

(** Whatever the wire type and the input, when [skipField] returns, the
    cursor is not past [end] and nothing but the cursor has changed. *)
Theorem skipField_stays_within_end (r r' : t) (u : unit) :
  skipField r = Ok u r' ->
  cursor r' <= end_ r /\ r' = set_cursor (cursor r') r.
Proof.
  unfold skipField. unfold bind at 1. unfold get.
  destruct (wire_is r WireType.VARINT).
  { unfold bind. destruct (skip_varint r) as [u0 s |] eqn:E; [| discriminate].
    destruct (skip_varint_moves r s u0 E) as [k [_ [-> _]]].
    intros H. apply advance_inv in H. destruct H as [-> H].
    cbn [cursor end_ set_cursor] in H |- *. split; [exact H | reflexivity]. }
  destruct (wire_is r WireType.FIXED64).
  { intros H. apply advance_inv in H. destruct H as [-> H].
    cbn [cursor set_cursor]. split; [exact H | reflexivity]. }
  destruct (wire_is r WireType.DELIMITED).
  { unfold bind. destruct (Varint32 r) as [l s |] eqn:E; [| discriminate].
    apply Varint32_inv in E. destruct E as [k [_ [-> _]]].
    intros H. apply advance_inv in H. destruct H as [-> H].
    cbn [cursor end_ set_cursor] in H |- *. split; [exact H | reflexivity]. }
  destruct (wire_is r WireType.FIXED32); [| discriminate].
  intros H. apply advance_inv in H. destruct H as [-> H].
  cbn [cursor set_cursor]. split; [exact H | reflexivity].
Qed.

Lemma skipField_stays_within_end_witness :
  let r := set_nextWireType (Some 0) (new [150; 1; 16]) in
  cursor (set_cursor 2 r) <= end_ r
  /\ set_cursor 2 r = set_cursor (cursor (set_cursor 2 r)) r.
Proof.
  intro r. apply (skipField_stays_within_end r (set_cursor 2 r) tt).
  vm_compute. reflexivity.
Defined.

(** When [NextField] answers [false]: exactly when the cursor has reached
    [end] or the end of the current message, and then it has read nothing;
    once it has read a tag it returns [true] or throws.  A reader fresh from
    the constructor is in this state whatever its input, the length of its
    message being zero until [Header] sets it. *)
Theorem NextField_false_iff (r r' : t) :
  (NextField r = Ok false r'
   <-> r' = r /\ (end_ r <= cursor r \/ length r = JS.Num (cursor r)))
  /\ forall src, NextField (new src) = Ok false (new src).
Proof.
  split.
  - split.
    + unfold NextField. unfold bind at 1. unfold get.
      destruct (cursor r >=? end_ r) eqn:E.
      { intros H. apply Ok_inv in H. destruct H as [_ <-].
        split; [reflexivity |]. left.
        rewrite Z.geb_leb in E. apply Z.leb_le in E. exact E. }
      destruct (JS.eqb (JS.Num (cursor r)) (length r)) eqn:E'.
      { intros H. apply Ok_inv in H. destruct H as [_ <-].
        split; [reflexivity |]. right.
        destruct (length r) as [z |]; [| discriminate E'].
        cbn [JS.eqb] in E'. apply Z.eqb_eq in E'. congruence. }
      unfold bind at 1. destruct (Varint32 r) as [tag s |]; [| discriminate].
      match goal with |- context [if ?c then _ else _] => destruct c end.
      * unfold bind, get, throw. discriminate.
      * unfold bind, modify, ret. discriminate.
    + intros [-> [H | H]].
      * unfold NextField. unfold bind at 1. unfold get.
        rewrite geb_true by exact H. reflexivity.
      * apply NextField_at_message_end. exact H.
  - intros src. apply NextField_at_message_end. reflexivity.
Qed.

(** An entry of a map from 32-bit numbers to 32-bit numbers: [Map] reads
    the length of the entry, then a varint that it drops, the key, a second
    varint that it drops and the value; the numbers of the two inner fields
    are not looked at.  It returns the key and the value, leaves the cursor
    just past the entry and [end] as it was. *)
Theorem Map_reads_number_entry
        (kFT vFT : FieldType) (r : t) (t1 t2 k v : Z) (rest : list Z) :
  kFT = INT32 \/ kFT = UINT32 ->
  vFT = INT32 \/ vFT = UINT32 ->
  wire_is r WireType.DELIMITED = true ->
  0 <= t1 < 128 -> 0 <= t2 < 128 ->
  0 <= k < 2 ^ 32 -> 0 <= v < 2 ^ 32 ->
  let entry := [t1] ++ BinaryEncoder.UnsignedVarint32 k []
               ++ [t2] ++ BinaryEncoder.UnsignedVarint32 v [] in
  let len := Z.of_nat (List.length entry) in
  holds r (len :: entry ++ rest) ->
  cursor r + 1 + len <= end_ r ->
  Map kFT vFT None r
  = Ok [VNumber k; VNumber v] (set_cursor (cursor r + 1 + len) r).
Proof.
  intros HkFT HvFT Hw Ht1 Ht2 Hk Hv entry len Hin Hb.
  set (ek := BinaryEncoder.UnsignedVarint32 k []) in *.
  set (ev := BinaryEncoder.UnsignedVarint32 v []) in *.
  pose proof (UnsignedVarint32_length k Hk) as Lk. fold ek in Lk.
  pose proof (UnsignedVarint32_length v Hv) as Lv. fold ev in Lv.
  assert (Hlen : len = 2 + Z.of_nat (List.length ek) + Z.of_nat (List.length ev)).
  { subst len entry. rewrite !length_app. cbn [List.length]. lia. }
  unfold Map. unfold bind at 1. unfold get. rewrite Hw.
  unfold bind at 1.
  rewrite (Varint32_on_length_byte r len (entry ++ rest))
    by (first [exact Hin | lia]).
  unfold bind at 1. unfold get. unfold bind at 1. unfold modify at 1.
  cbn [cursor set_cursor].
  pose proof (holds_skip r [len] (entry ++ rest) Hin) as H1.
  cbn [List.length Z.of_nat Pos.of_succ_nat] in H1.
  set (nEnd := cursor r + 1 + len) in *.
  set (r1 := set_end nEnd (set_cursor (cursor r + 1) r)).
  assert (Hin1 : holds r1 (t1 :: ek ++ [t2] ++ ev ++ rest)).
  { apply (holds_same_input (set_cursor (cursor r + 1) r));
      [reflexivity | reflexivity |].
    subst entry. cbn [app] in H1. rewrite <- !app_assoc in H1.
    exact H1. }
  (* the first inner tag *)
  unfold bind at 1.
  rewrite (Varint32_on_length_byte r1 t1 _ ltac:(lia) Hin1)
    by (cbn [cursor end_ r1 set_end set_cursor]; lia).
  pose proof (holds_skip r1 [t1] _ Hin1) as Hin2.
  cbn [List.length Z.of_nat Pos.of_succ_nat] in Hin2.
  set (r2 := set_cursor (cursor r1 + 1) r1) in *.
  (* the key *)
  assert (HK : Map_key kFT r2
               = Ok (VNumber k)
                    (set_cursor (cursor r2 + Z.of_nat (List.length ek)) r2)).
  { assert (E : Map_key kFT = (x <- Varint32;; ret (VNumber x)))
      by (destruct HkFT as [-> | ->]; reflexivity).
    rewrite E. unfold bind.
    rewrite (Varint32_on_UnsignedVarint32 r2 k _ Hk Hin2);
      [reflexivity |].
    fold ek. cbn [cursor end_ r2 r1 set_end set_cursor]. lia. }
  unfold bind at 1. rewrite HK.
  pose proof (holds_skip r2 ek _ Hin2) as Hin3.
  set (r3 := set_cursor (cursor r2 + Z.of_nat (List.length ek)) r2) in *.
  (* the second inner tag *)
  unfold bind at 1.
  rewrite (Varint32_on_length_byte r3 t2 _ ltac:(lia) Hin3)
    by (cbn [cursor end_ r3 r2 r1 set_end set_cursor]; lia).
  pose proof (holds_skip r3 [t2] _ Hin3) as Hin4.
  cbn [List.length Z.of_nat Pos.of_succ_nat] in Hin4.
  set (r4 := set_cursor (cursor r3 + 1) r3) in *.
  (* the value *)
  assert (HV : Map_value vFT None r4
               = Ok (Some (VNumber v))
                    (set_cursor (cursor r4 + Z.of_nat (List.length ev)) r4)).
  { assert (E : Map_value vFT None = (x <- Varint32;; ret (Some (VNumber x))))
      by (destruct HvFT as [-> | ->]; reflexivity).
    rewrite E. unfold bind.
    rewrite (Varint32_on_UnsignedVarint32 r4 v _ Hv Hin4);
      [reflexivity |].
    fold ev. cbn [cursor end_ r4 r3 r2 r1 set_end set_cursor]. lia. }
  unfold bind at 1. rewrite HV.
  unfold bind, modify, ret. reflexivity.
Qed.

Lemma Map_reads_number_entry_witness :
  let r := set_nextWireType (Some 2) (set_cursor 1 (new [10; 5; 8; 7; 16; 172; 2; 0])) in
  Map INT32 UINT32 None r
  = Ok [VNumber 7; VNumber 300] (set_cursor 7 r).
Proof.
  intro r.
  apply (Map_reads_number_entry INT32 UINT32 r 8 16 7 300 [0]);
    first [left; reflexivity | right; reflexivity | computed].
Defined.

End SkipAndMap.


(* ===================================================================== *)
(** ** Packed reads stay in bounds *)
(* ===================================================================== *)

Section PackedBounds.

Import BinaryReader.

(** The loop moves the cursor only, and not past [end] unless it was
    there before, when the read of one element does so. *)
Lemma Packed_loop_moves {A} (read : M t A) (H : advances read) (end' : Z) :
  moves 1 read ->
  forall result, moves 0 (Packed_loop read H end' result).
Proof.
  intros Hread result r.
  remember (Z.to_nat (end' - cursor r)) as m eqn:Hm.
  revert result r Hm. induction m as [m IH] using lt_wf_ind.
  intros result r Hm r' x.
  rewrite Packed_loop_step.
  destruct (cursor r <? end') eqn:E; [| apply (ret_moves result)].
  apply Z.ltb_lt in E.
  destruct (read r) as [v s |] eqn:Ev; [| discriminate].
  destruct (Hread r s v Ev) as [k [Hk [-> Hb]]].
  intros HP.
  destruct (IH (Z.to_nat (end' - (cursor r + k))) ltac:(lia)
               (result ++ [v]) (set_cursor (cursor r + k) r) eq_refl r' x HP)
    as [k' [Hk' [-> Hb']]].
  cbn [cursor end_ set_cursor] in Hb' |- *.
  exists (k + k'). split; [lia |]. split; [| lia].
  rewrite set_cursor_twice. f_equal. lia.
Qed.

Lemma set_nextWireType_same (r : t) : set_nextWireType (nextWireType r) r = r.
Proof. destruct r. reflexivity. Qed.

(** A packed read that leaves the wire type alone. *)
Lemma packed_plain_in_bounds {A} (read : M t A) (H : advances read) :
  moves 1 read ->
  packed_in_bounds
    (r <- get;;
     if wire_is r WireType.DELIMITED then
       length <- Varint32;;
       r <- get;;
       Packed_loop read H (cursor r + length) []
     else throw TypeNever).
Proof.
  intros Hread r r' x. unfold bind at 1. unfold get.
  destruct (wire_is r WireType.DELIMITED); [| discriminate].
  unfold bind at 1.
  destruct (Varint32 r) as [l s |] eqn:E; [| discriminate].
  apply Varint32_inv in E. destruct E as [k [Hk [-> Hb]]].
  unfold bind, get. intros HP.
  destruct (Packed_loop_moves read H _ Hread [] _ r' x HP)
    as [k' [Hk' [-> Hb']]].
  cbn [cursor end_ set_cursor set_nextWireType] in Hb' |- *.
  split; [lia |]. exists (nextWireType r).
  rewrite set_nextWireType_same. reflexivity.
Qed.

(** A packed read that sets the wire type of its elements. *)
Lemma packed_typed_in_bounds {A} (read : M t A) (H : advances read) (w : Z) :
  moves 1 read ->
  packed_in_bounds
    (r <- get;;
     if wire_is r WireType.DELIMITED then
       length <- Varint32;;
       r <- get;;
       modify (set_nextWireType (Some w));;
       Packed_loop read H (cursor r + length) []
     else throw TypeNever).
Proof.
  intros Hread r r' x. unfold bind at 1. unfold get.
  destruct (wire_is r WireType.DELIMITED); [| discriminate].
  unfold bind at 1.
  destruct (Varint32 r) as [l s |] eqn:E; [| discriminate].
  apply Varint32_inv in E. destruct E as [k [Hk [-> Hb]]].
  unfold bind, get, modify. intros HP.
  destruct (Packed_loop_moves read H _ Hread [] _ r' x HP)
    as [k' [Hk' [-> Hb']]].
  cbn [cursor end_ set_cursor set_nextWireType] in Hb' |- *.
  split; [lia |]. exists (Some w). reflexivity.
Qed.

(** The packed reads whose elements are read through [advance], that is all
    of them but [PackedBool]: whenever one of them returns, the cursor has
    moved forward and is not past [end] (it may be past the end that the
    length of the field announced), and the input, [end] and the field
    number are as they were. *)
Theorem packed_reads_stay_in_bounds :
  packed_in_bounds PackedInt32 /\ packed_in_bounds PackedInt64
  /\ packed_in_bounds PackedUint32 /\ packed_in_bounds PackedUint64
  /\ packed_in_bounds PackedSint32 /\ packed_in_bounds PackedSint64
  /\ packed_in_bounds PackedFixed32 /\ packed_in_bounds PackedFixed64
  /\ packed_in_bounds PackedSfixed32 /\ packed_in_bounds PackedSfixed64
  /\ packed_in_bounds PackedFloat /\ packed_in_bounds PackedDouble
  /\ packed_in_bounds PackedEnum.
Proof.
  repeat match goal with |- _ /\ _ => split end.
  - apply packed_plain_in_bounds. exact Varint32_moves.
  - apply packed_plain_in_bounds. apply Varint_moves.
  - apply packed_plain_in_bounds. exact Varint32_moves.
  - apply packed_plain_in_bounds. apply Varint_moves.
  - apply packed_typed_in_bounds. exact Sint32_moves.
  - apply packed_typed_in_bounds. exact Sint64_moves.
  - apply packed_typed_in_bounds.
    apply (moves_weaken 4); [lia | exact Fixed32_moves].
  - apply packed_typed_in_bounds.
    apply (moves_weaken 8); [lia | exact Fixed64_moves].
  - apply packed_typed_in_bounds.
    apply (moves_weaken 4); [lia | exact Fixed32_moves].
  - apply packed_typed_in_bounds.
    apply (moves_weaken 8); [lia | exact Fixed64_moves].
  - apply packed_typed_in_bounds.
    apply (moves_weaken 4); [lia | exact Float_moves].
  - apply packed_typed_in_bounds.
    apply (moves_weaken 8); [lia | exact Double_moves].
  - apply packed_typed_in_bounds. exact Enum_moves.
Qed.

End PackedBounds.
